(** * AIStudioToAPI: message queue, format converter and in-browser client

    A shallow embedding of these parts of the proxy:
    - [src/utils/MessageQueue.js]: the per-request hand-off queue;
    - [src/core/FormatConverter.js]: OpenAI <-> Gemini translation;
    - [scripts/client/build.js]: the in-browser request processor;
    - [src/utils/LoggingService.js]: the log buffer;
    - [src/auth/authSource.js]: the scan and validation of auth files;
    - [src/routes/WebRoutes.js]: login rate limiting and HTML escaping.

    JavaScript objects whose shape is fixed by a wire schema are records
    with [option] fields ([None] is an absent property); values the code
    inspects dynamically ([typeof], [Array.isArray]) are [JValue]s.
    Logging calls have no effect on the results and are left out. *)

From Stdlib Require Import ZArith String Ascii DecimalString DecimalNat.
From stdpp Require Import gmap strings list sorting.

Local Open Scope string_scope.
Local Open Scope list_scope.
Set Warnings "-register-all".

(* ===================================================================== *)
(** * Part I: definitions                                                 *)
(* ===================================================================== *)

(** ** JSON values *)

(** A parsed JSON document. Numbers the modelled code computes with are
    integer token counts; object fields keep their insertion order. *)
Inductive JValue : Type :=
| JNull
| JBool (b : bool)
| JNum (n : Z)
| JStr (s : string)
| JArr (items : list JValue)
| JObj (fields : list (string * JValue)).

(** JavaScript truthiness of a value that may be [undefined] ([None]). *)
Definition truthy (v : option JValue) : bool :=
  match v with
  | None | Some JNull => false
  | Some (JBool b) => b
  | Some (JNum n) => negb (n =? 0)%Z
  | Some (JStr s) => negb (String.eqb s EmptyString)
  | Some (JArr _) | Some (JObj _) => true
  end.

(** ** src/utils/MessageQueue.js *)

Module MessageQueue.
Section Defs.
Context {Message : Type}.

(** What a queue operation does to the promises and timers it touches.
    A resolver is identified by the number of the [dequeue] call that
    created it; its timer carries the same number. *)
Inductive Effect : Type :=
| Resolve (r : nat) (m : Message)
| Reject (r : nat) (error : string)
| SetTimeout (r : nat) (ms : Z)
| ClearTimeout (r : nat).

Record t : Type := mk {
  messages : list Message;
  waitingResolvers : list nat;
  defaultTimeout : Z;
  closed : bool;
}.

(** [constructor(timeoutMs = 600000)] *)
Definition new (timeoutMs : option Z) : t :=
  {| messages := [];
     waitingResolvers := [];
     defaultTimeout := default 600000%Z timeoutMs;
     closed := false |}.

Definition enqueue (message : Message) (q : t) : t * list Effect :=
  if closed q then (q, [])
  else match waitingResolvers q with
       | resolver :: rest =>
           ({| messages := messages q; waitingResolvers := rest;
               defaultTimeout := defaultTimeout q; closed := closed q |},
            [ClearTimeout resolver; Resolve resolver message])
       | [] =>
           ({| messages := messages q ++ [message];
               waitingResolvers := waitingResolvers q;
               defaultTimeout := defaultTimeout q; closed := closed q |},
            [])
       end.

(** [dequeue] is an [async] function: its [throw] rejects the promise
    [r] handed to the caller. *)
Definition dequeue (r : nat) (timeoutMs : option Z) (q : t) : t * list Effect :=
  if closed q then (q, [Reject r "Queue is closed"])
  else match messages q with
       | m :: rest =>
           ({| messages := rest; waitingResolvers := waitingResolvers q;
               defaultTimeout := defaultTimeout q; closed := closed q |},
            [Resolve r m])
       | [] =>
           ({| messages := messages q;
               waitingResolvers := waitingResolvers q ++ [r];
               defaultTimeout := defaultTimeout q; closed := closed q |},
            [SetTimeout r (default (defaultTimeout q) timeoutMs)])
       end.

(** [Array.prototype.indexOf] *)
Fixpoint indexOf (x : nat) (l : list nat) : option nat :=
  match l with
  | [] => None
  | y :: l' => if decide (y = x) then Some 0 else S <$> indexOf x l'
  end.

(** The callback handed to [setTimeout] by [dequeue] for resolver [r]. *)
Definition onTimeout (r : nat) (q : t) : t * list Effect :=
  match indexOf r (waitingResolvers q) with
  | Some index =>
      ({| messages := messages q;
          waitingResolvers := delete index (waitingResolvers q);
          defaultTimeout := defaultTimeout q; closed := closed q |},
       [Reject r "Queue timeout"])
  | None => (q, [])
  end.

Definition close (q : t) : t * list Effect :=
  ({| messages := []; waitingResolvers := [];
      defaultTimeout := defaultTimeout q; closed := true |},
   flat_map (fun resolver => [ClearTimeout resolver; Reject resolver "Queue closed"])
            (waitingResolvers q)).

(** *** The queue driven by its environment *)

(** One queue together with the allocator of resolver identities. *)
Record System : Type := mkSystem {
  queue : t;
  nextResolver : nat;
}.

Inductive Event : Type :=
| EvEnqueue (m : Message)
| EvDequeue (timeoutMs : option Z)
| EvTimerFires (r : nat)
| EvClose.

Definition step (s : System) (ev : Event) : System * list Effect :=
  match ev with
  | EvEnqueue m =>
      let '(q, effs) := enqueue m (queue s) in
      ({| queue := q; nextResolver := nextResolver s |}, effs)
  | EvDequeue timeoutMs =>
      let '(q, effs) := dequeue (nextResolver s) timeoutMs (queue s) in
      ({| queue := q; nextResolver := S (nextResolver s) |}, effs)
  | EvTimerFires r =>
      let '(q, effs) := onTimeout r (queue s) in
      ({| queue := q; nextResolver := nextResolver s |}, effs)
  | EvClose =>
      let '(q, effs) := close (queue s) in
      ({| queue := q; nextResolver := nextResolver s |}, effs)
  end.

Fixpoint run (s : System) (evs : list Event) : System * list Effect :=
  match evs with
  | [] => (s, [])
  | ev :: evs' =>
      let '(s1, effs1) := step s ev in
      let '(s2, effs2) := run s1 evs' in
      (s2, effs1 ++ effs2)
  end.

Definition initial (timeoutMs : option Z) : System :=
  {| queue := new timeoutMs; nextResolver := 0 |}.

End Defs.
Arguments t : clear implicits.
Arguments System : clear implicits.
Arguments Event : clear implicits.
Arguments Effect : clear implicits.
End MessageQueue.

(** ** JavaScript built-ins used by the converter and the client

    Library functions the repository calls but does not define. Results
    that depend on the clock or on [Math.random] are indexed by the
    number of draws made so far. *)
Class Host : Type := {
  (** [JSON.parse]: [None] when it throws. *)
  JSON_parse : string → option JValue;
  JSON_stringify : JValue → string;
  toUpperCase : string → string;
  toLowerCase : string → string;
  trim : string → string;
  (** [Date.now()] and [Math.random().toString(36).substring(2, 15)]. *)
  Date_now : nat → Z;
  Math_random36 : nat → string;
  Z_to_string : Z → string;
  (** [String(v)] *)
  JS_String : JValue → string;
}.

(** ** src/core/FormatConverter.js: wire shapes *)

(** Gemini [Part], [Content] and response objects. *)
Record InlineData : Type := {
  inl_mimeType : string;
  inl_data : string;
}.

Record FunctionCall : Type := {
  fc_args : option JValue;
  fc_name : option string;
}.

(** An element of an OpenAI array content. *)
Record ImageUrl : Type := { iu_url : string }.

Record ContentPart : Type := {
  cp_type : option string;
  cp_text : option string;
  cp_image_url : option ImageUrl;
}.

(** Content of an OpenAI message: [typeof content === "string"],
    [Array.isArray(content)], or anything else ([None] is [undefined]). *)
Inductive MessageContent : Type :=
| ContentString (s : string)
| ContentArray (parts : list ContentPart)
| ContentOther (v : option JValue).

(** The [response] of a [functionResponse]: the parsed tool output, the
    wrapper [{ result: content }] built when parsing throws, or the
    content itself when it is not a string. *)
Inductive ResponseContent : Type :=
| ParsedJson (v : JValue)
| ResultWrapper (s : string)
| Verbatim (c : MessageContent).

Record FunctionResponse : Type := {
  fr_name : string;
  fr_response : ResponseContent;
}.

Record Part : Type := {
  part_text : option string;
  part_thought : option bool;
  part_inlineData : option InlineData;
  part_functionCall : option FunctionCall;
  part_functionResponse : option FunctionResponse;
  part_thoughtSignature : option string;
}.

(** [part.thoughtSignature = v] *)
Definition set_thoughtSignature (v : string) (p : Part) : Part :=
  {| part_text := part_text p; part_thought := part_thought p;
     part_inlineData := part_inlineData p;
     part_functionCall := part_functionCall p;
     part_functionResponse := part_functionResponse p;
     part_thoughtSignature := Some v |}.

(** [parts] is [None] when the property is missing or not an array. *)
Record Content : Type := {
  parts : option (list Part);
  role : option string;
}.

(** A native Gemini request body; [gb_contents] is [None] when the
    property is missing or not an array, [gb_rest] are the other fields. *)
Record GeminiBody : Type := {
  gb_contents : option (list Content);
  gb_rest : list (string * JValue);
}.

(** Truthiness of an optional string property. *)
Definition truthyStr (s : option string) : bool :=
  match s with
  | Some s => negb (String.eqb s EmptyString)
  | None => false
  end.

(** OpenAI chat messages. *)
Record ToolCallFunction : Type := {
  tcf_name : option string;
  tcf_arguments : option JValue;
}.

Record ToolCall : Type := {
  tc_type : option string;
  tc_function : option ToolCallFunction;
}.

Record Message : Type := {
  msg_role : string;
  msg_content : MessageContent;
  msg_name : option string;
  msg_tool_calls : option (list ToolCall);
}.

(** The URL starts with [http://] or [https://]. *)
Definition isAbsoluteHttp (url : string) : bool :=
  String.prefix "http://" url || String.prefix "https://" url.

(** What the request translation needs to inline images:
    the two groups of the regular expression for base64 [data:image/...]
    URLs when it matches (MIME type, then payload),
    [axios.get(url, { responseType: "arraybuffer" })] giving the body in
    base64 and the [content-type] header ([None] when it throws), and
    [mime.lookup] ([None] for [false]). *)
Class ImageHost : Type := {
  match_data_url : string → option (string * string);
  axios_get : string → option (string * option string);
  mime_lookup : string → option string;
}.

(** The OpenAI request body as far as the message translation reads it. *)
Record OpenAIBody : Type := {
  messages : list Message;
}.

(** The part of the Gemini request that is built from [messages]. The
    fields [generationConfig], [tools], [toolConfig] and [safetySettings]
    are added to the request afterwards, from the other body fields. *)
Record GoogleRequest : Type := {
  contents : list Content;
  systemInstruction : option Content;
}.

Module FormatConverter.
Section Requests.
Context {host : Host} {imageHost : ImageHost}.

Definition DUMMY_THOUGHT_SIGNATURE : string :=
  "context_engineering_is_the_way_to_go".

(** *** ensureThoughtSignature *)

(** [for (const part of content.parts)], from the current value of
    [signatureAdded]. *)
Fixpoint ensureParts (signatureAdded : bool) (ps : list Part) : list Part :=
  match ps with
  | [] => []
  | part :: rest =>
      if bool_decide (is_Some (part_functionCall part))
         && negb (truthyStr (part_thoughtSignature part))
      then
        if negb signatureAdded
        then set_thoughtSignature DUMMY_THOUGHT_SIGNATURE part
               :: ensureParts true rest
        else part :: ensureParts signatureAdded rest
      else part :: ensureParts signatureAdded rest
  end.

Definition ensureContent (content : Content) : Content :=
  match parts content with
  | None => content
  | Some ps => {| parts := Some (ensureParts false ps); role := role content |}
  end.

Definition ensureThoughtSignature (geminiBody : option GeminiBody)
  : option GeminiBody :=
  match geminiBody with
  | None => None
  | Some body =>
      match gb_contents body with
      | None => Some body
      | Some cs =>
          Some {| gb_contents := Some (map ensureContent cs);
                  gb_rest := gb_rest body |}
      end
  end.

(** *** translateOpenAIToGoogle *)

(** [flushToolParts], on the two variables it closes over. *)
Definition flushToolParts (st : list Content * list Part)
  : list Content * list Part :=
  let '(googleContents, pendingToolParts) := st in
  match pendingToolParts with
  | [] => (googleContents, pendingToolParts)
  | _ :: _ =>
      (googleContents ++ [{| parts := Some pendingToolParts; role := Some "user" |}],
       [])
  end.

(** The [functionResponsePart] of a message with role "tool". *)
Definition functionResponsePart (message : Message) : Part :=
  let responseContent :=
    match msg_content message with
    | ContentString s =>
        match JSON_parse s with
        | Some v => ParsedJson v
        | None => ResultWrapper s
        end
    | c => Verbatim c
    end in
  let functionName :=
    match msg_name message with
    | Some n => if String.eqb n EmptyString then "unknown_function" else n
    | None => "unknown_function"
    end in
  {| part_text := None; part_thought := None; part_inlineData := None;
     part_functionCall := None;
     part_functionResponse :=
       Some {| fr_name := functionName; fr_response := responseContent |};
     part_thoughtSignature := None |}.

(** [for (const toolCall of message.tool_calls)] *)
Fixpoint functionCallParts (signatureAttachedToCall : bool)
    (tool_calls : list ToolCall) : list Part :=
  match tool_calls with
  | [] => []
  | toolCall :: rest =>
      match tc_type toolCall, tc_function toolCall with
      | Some ty, Some fn =>
          if String.eqb ty "function" then
            let args :=
              match tcf_arguments fn with
              | Some (JStr s) =>
                  match JSON_parse s with
                  | Some v => Some v
                  | None => Some (JObj [])
                  end
              | other => other
              end in
            {| part_text := None; part_thought := None;
               part_inlineData := None;
               part_functionCall :=
                 Some {| fc_args := args; fc_name := tcf_name fn |};
               part_functionResponse := None;
               part_thoughtSignature :=
                 if signatureAttachedToCall then None
                 else Some DUMMY_THOUGHT_SIGNATURE |}
              :: functionCallParts true rest
          else functionCallParts signatureAttachedToCall rest
      | _, _ => functionCallParts signatureAttachedToCall rest
      end
  end.

Definition textPart (text : option string) : Part :=
  {| part_text := text; part_thought := None; part_inlineData := None;
     part_functionCall := None; part_functionResponse := None;
     part_thoughtSignature := None |}.

Definition inlineDataPart (data mimeType : string) : Part :=
  {| part_text := None; part_thought := None;
     part_inlineData := Some {| inl_mimeType := mimeType; inl_data := data |};
     part_functionCall := None; part_functionResponse := None;
     part_thoughtSignature := None |}.

(** One element of an array [content]. *)
Definition contentPartParts (part : ContentPart) : list Part :=
  if bool_decide (cp_type part = Some "text") then [textPart (cp_text part)]
  else if bool_decide (cp_type part = Some "image_url") then
    match cp_image_url part with
    | Some image_url =>
        let dataUrl := iu_url image_url in
        match match_data_url dataUrl with
        | Some (mimeType, data) => [inlineDataPart data mimeType]
        | None =>
            if isAbsoluteHttp dataUrl then
              match axios_get dataUrl with
              | Some (base64Data, contentType) =>
                  let mimeType :=
                    match contentType with
                    | Some ct =>
                        if String.eqb ct EmptyString || String.eqb ct "application/octet-stream"
                        then default "image/jpeg" (mime_lookup dataUrl)
                        else ct
                    | None => default "image/jpeg" (mime_lookup dataUrl)
                    end in
                  [inlineDataPart base64Data mimeType]
              | None =>
                  [textPart (Some ("[System Note: Failed to load image from "
                                     +:+ dataUrl +:+ "]"))]
              end
            else []
        end
    | None => []
    end
  else [].

(** The parts of a message that is not a tool message. *)
Definition messageParts (message : Message) : list Part :=
  (if String.eqb (msg_role message) "assistant" then
     match msg_tool_calls message with
     | Some tool_calls => functionCallParts false tool_calls
     | None => []
     end
   else [])
  ++ match msg_content message with
     | ContentString s => if String.eqb s EmptyString then [] else [textPart (Some s)]
     | ContentArray cps => flat_map contentPartParts cps
     | ContentOther _ => []
     end.

(** One turn of [for (let msgIndex = 0; ...)] on [googleContents] and
    [pendingToolParts]. *)
Definition convertMessage (st : list Content * list Part) (message : Message)
  : list Content * list Part :=
  if String.eqb (msg_role message) "tool" then
    (fst st, snd st ++ [functionResponsePart message])
  else
    let '(googleContents, pendingToolParts) := flushToolParts st in
    match messageParts message with
    | [] => (googleContents, pendingToolParts)
    | googleParts =>
        (googleContents ++
           [{| parts := Some googleParts;
               role := Some (if String.eqb (msg_role message) "assistant"
                             then "model" else "user") |}],
         pendingToolParts)
    end.

(** [msg.content] as [Array.prototype.join] renders an element. *)
Definition joinedContent (c : MessageContent) : string :=
  match c with
  | ContentString s => s
  | ContentOther None | ContentOther (Some JNull) => EmptyString
  | ContentOther (Some v) => JS_String v
  | ContentArray cps =>
      String.concat "," (map (fun _ => "[object Object]") cps)
  end.

Definition isSystem (message : Message) : bool :=
  String.eqb (msg_role message) "system".

Definition conversationMessages (openaiBody : OpenAIBody) : list Message :=
  List.filter (fun msg => negb (isSystem msg)) (messages openaiBody).

(** [googleContents] once the loop and the last [flushToolParts()]
    have run over [conversationMessages]. *)
Definition googleContents (conversation : list Message) : list Content :=
  fst (flushToolParts (fold_left convertMessage conversation ([], []))).

Definition translateOpenAIToGoogle (openaiBody : OpenAIBody) : GoogleRequest :=
  let systemMessages := List.filter isSystem (messages openaiBody) in
  let systemInstruction :=
    match systemMessages with
    | [] => None
    | _ :: _ =>
        Some {| parts := Some [textPart (Some
                  (String.concat (String (ascii_of_nat 10) EmptyString)
                     (map (fun msg => joinedContent (msg_content msg))
                          systemMessages)))];
                role := Some "user" |}
    end in
  {| contents := googleContents (conversationMessages openaiBody);
     systemInstruction := systemInstruction |}.

End Requests.
End FormatConverter.

(** ** src/core/FormatConverter.js: responses *)

(** Gemini response objects. *)
Record ModalityTokenCount : Type := {
  mtc_modality : option string;
  mtc_tokenCount : option Z;
}.

(** An element of [candidatesTokensDetails] may be [null] ([None]). *)
Record UsageMetadata : Type := {
  promptTokenCount : option Z;
  toolUsePromptTokenCount : option Z;
  candidatesTokenCount : option Z;
  thoughtsTokenCount : option Z;
  totalTokenCount : option Z;
  candidatesTokensDetails : option (list (option ModalityTokenCount));
}.

Record PromptFeedback : Type := { blockReason : option string }.

Record Candidate : Type := {
  cand_content : option Content;
  cand_finishReason : option string;
}.

Record GoogleResponse : Type := {
  candidates : option (list Candidate);
  promptFeedback : option PromptFeedback;
  usageMetadata : option UsageMetadata;
}.

(** [JSON.parse] of a response chunk, read as a [GoogleResponse];
    [None] when [JSON.parse] throws. *)
Class GeminiWire : Type := {
  parseGoogleResponse : string → option GoogleResponse;
}.

(** OpenAI response objects. *)
Record CompletionTokensDetails : Type := {
  image_tokens : Z;
  output_text_tokens : Z;
  reasoning_tokens : Z;
}.

Record PromptTokensDetails : Type := {
  text_tokens : Z;
  tool_tokens : Z;
}.

Record Usage : Type := {
  completion_tokens : Z;
  completion_tokens_details : option CompletionTokensDetails;
  prompt_tokens : Z;
  prompt_tokens_details : option PromptTokensDetails;
  total_tokens : Z;
}.

Record ToolCallFunctionObj : Type := {
  tcfo_arguments : string;
  tcfo_name : option string;
}.

Record ToolCallObj : Type := {
  tco_function : ToolCallFunctionObj;
  tco_id : string;
  tco_index : nat;
  tco_type : string;
}.

Record Delta : Type := {
  delta_content : option string;
  delta_reasoning_content : option string;
  delta_tool_calls : option (list ToolCallObj);
  delta_role : option string;
}.

Record ChunkChoice : Type := {
  cc_delta : Delta;
  cc_finish_reason : option string;
  cc_index : Z;
}.

Record CompletionChunk : Type := {
  chunk_choices : list ChunkChoice;
  chunk_created : option Z;
  chunk_id : option string;
  chunk_model : string;
  chunk_object : string;
  chunk_usage : option Usage;
}.

Record ChatMessage : Type := {
  cm_content : string;
  cm_role : string;
  cm_reasoning_content : option string;
  cm_tool_calls : option (list ToolCallObj);
}.

Record Choice : Type := {
  ch_finish_reason : string;
  ch_index : Z;
  ch_message : ChatMessage;
}.

Record ChatCompletion : Type := {
  choices : list Choice;
  created : Z;
  id : string;
  model : string;
  object : string;
  usage : Usage;
}.

(** The per-request [streamState] object; a missing [hasFunctionCall]
    or [roleSent] reads as [false]. *)
Record StreamState : Type := {
  ss_id : option string;
  ss_created : option Z;
  ss_usage : option Usage;
  ss_toolCallIndex : option nat;
  ss_hasFunctionCall : bool;
  ss_roleSent : bool;
}.

(** [{}] *)
Definition emptyStreamState : StreamState :=
  {| ss_id := None; ss_created := None; ss_usage := None;
     ss_toolCallIndex := None; ss_hasFunctionCall := false;
     ss_roleSent := false |}.

(** One [data: ...] line of the string the stream converter returns:
    the literal [[DONE]] or a serialized chunk. The returned string is
    the concatenation of the lines, [null] is [None]. *)
Inductive SseLine : Type :=
| SseDone
| SseData (chunk : CompletionChunk).

Module ResponseConverter.
Section Responses.
Context {host : Host} {wire : GeminiWire}.

(** [x || 0] on a count. *)
Definition orZero (x : option Z) : Z :=
  match x with
  | Some n => n
  | None => 0%Z
  end.

(** [_generateRequestId()], at draw [tick]. *)
Definition _generateRequestId (tick : nat) : string :=
  Z_to_string (Date_now tick) +:+ "_" +:+ Math_random36 tick.

(** [for (const d of usage.candidatesTokensDetails)] *)
Definition addImageTokens (completionImageTokens : Z)
    (d : option ModalityTokenCount) : Z :=
  match d with
  | Some d =>
      if bool_decide (mtc_modality d = Some "IMAGE")
      then (completionImageTokens + orZero (mtc_tokenCount d))%Z
      else completionImageTokens
  | None => completionImageTokens
  end.

Definition _parseUsage (googleResponse : GoogleResponse) : Usage :=
  let usage :=
    default {| promptTokenCount := None; toolUsePromptTokenCount := None;
               candidatesTokenCount := None; thoughtsTokenCount := None;
               totalTokenCount := None; candidatesTokensDetails := None |}
            (usageMetadata googleResponse) in
  let inputTokens := orZero (promptTokenCount usage) in
  let toolPromptTokens := orZero (toolUsePromptTokenCount usage) in
  let completionTextTokens := orZero (candidatesTokenCount usage) in
  let reasoningTokens := orZero (thoughtsTokenCount usage) in
  let completionImageTokens :=
    match candidatesTokensDetails usage with
    | Some details => fold_left addImageTokens details 0%Z
    | None => 0%Z
    end in
  let promptTokens := (inputTokens + toolPromptTokens)%Z in
  let totalCompletionTokens := (completionTextTokens + reasoningTokens)%Z in
  let totalTokens :=
    match usageMetadata googleResponse with
    | Some um => orZero (totalTokenCount um)
    | None => 0%Z
    end in
  {| completion_tokens := totalCompletionTokens;
     completion_tokens_details :=
       Some {| image_tokens := completionImageTokens;
               output_text_tokens := completionTextTokens;
               reasoning_tokens := reasoningTokens |};
     prompt_tokens := promptTokens;
     prompt_tokens_details :=
       Some {| text_tokens := inputTokens; tool_tokens := toolPromptTokens |};
     total_tokens := totalTokens |}.

(** Only the five keys of [reasonMap] are looked up; names inherited
    from [Object.prototype] are not modelled. *)
Definition _mapFinishReason (geminiReason : option string) : string :=
  let key :=
    toLowerCase (if truthyStr geminiReason then default "stop" geminiReason
                 else "stop") in
  if String.eqb key "max_tokens" then "length"
  else if String.eqb key "other" then "stop"
  else if String.eqb key "recitation" then "stop"
  else if String.eqb key "safety" then "content_filter"
  else if String.eqb key "stop" then "stop"
  else "stop".

(** [candidates?.[0]] *)
Definition firstCandidate (googleResponse : GoogleResponse) : option Candidate :=
  match candidates googleResponse with
  | Some (candidate :: _) => Some candidate
  | _ => None
  end.

(** [candidate.content.parts] when [candidate.content] is set and
    [parts] is an array. *)
Definition candidateParts (candidate : Candidate) : option (list Part) :=
  match cand_content candidate with
  | Some content => parts content
  | None => None
  end.

Definition imageMarkdown (image : InlineData) : string :=
  "![Generated Image](data:" +:+ inl_mimeType image +:+ ";base64,"
    +:+ inl_data image +:+ ")".

(** [JSON.stringify(funcCall.args || {})] *)
Definition stringifyArgs (funcCall : FunctionCall) : string :=
  JSON_stringify (if truthy (fc_args funcCall)
                  then default (JObj []) (fc_args funcCall)
                  else JObj []).

(** *** translateGoogleToOpenAIStream *)

(** What the converter makes of the chunk text before it looks at the
    response: an empty or blank chunk, the [[DONE]] marker, text that
    [JSON.parse] rejects, or a response. *)
Inductive ChunkText : Type :=
| BlankChunk
| DoneChunk
| BadChunk
| ResponseChunk (googleResponse : GoogleResponse).

Definition readChunk (googleChunk : option string) : ChunkText :=
  match googleChunk with
  | None => BlankChunk
  | Some googleChunk =>
      if String.eqb googleChunk EmptyString || String.eqb (trim googleChunk) EmptyString
      then BlankChunk
      else
        let jsonString :=
          if String.prefix "data: " googleChunk
          then trim (String.substring 6 (String.length googleChunk - 6) googleChunk)
          else googleChunk in
        if String.eqb jsonString "[DONE]" then DoneChunk
        else match parseGoogleResponse jsonString with
             | Some googleResponse => ResponseChunk googleResponse
             | None => BadChunk
             end
  end.

Definition emptyDelta : Delta :=
  {| delta_content := None; delta_reasoning_content := None;
     delta_tool_calls := None; delta_role := None |}.

Definition mkChunk (delta : Delta) (finish_reason : option string)
    (created : option Z) (streamId : option string) (modelName : string)
    (usage : option Usage) : CompletionChunk :=
  {| chunk_choices :=
       [{| cc_delta := delta; cc_finish_reason := finish_reason; cc_index := 0 |}];
     chunk_created := created;
     chunk_id := streamId;
     chunk_model := modelName;
     chunk_object := "chat.completion.chunk";
     chunk_usage := usage |}.

(** The loop variables of [for (const part of candidate.content.parts)]:
    the stream state, the draw counter and [chunksToSend]. *)
Definition PartLoop : Type := StreamState * nat * list SseLine.

(** The body of the loop up to [if (hasContent)]: the delta of the
    part if it has content, with the state and counter after it. *)
Definition partDelta (streamState : StreamState) (tick : nat) (part : Part)
  : option Delta * StreamState * nat :=
  if bool_decide (part_thought part = Some true) then
    if truthyStr (part_text part) then
      (Some {| delta_content := None;
               delta_reasoning_content := part_text part;
               delta_tool_calls := None; delta_role := None |},
       streamState, tick)
    else (None, streamState, tick)
  else if truthyStr (part_text part) then
    (Some {| delta_content := part_text part;
             delta_reasoning_content := None;
             delta_tool_calls := None; delta_role := None |},
     streamState, tick)
  else
    match part_inlineData part, part_functionCall part with
    | Some image, _ =>
        (Some {| delta_content := Some (imageMarkdown image);
                 delta_reasoning_content := None;
                 delta_tool_calls := None; delta_role := None |},
         streamState, tick)
    | None, Some funcCall =>
        let toolCallId := "call_" +:+ _generateRequestId tick in
        let toolCallIndex := default 0 (ss_toolCallIndex streamState) in
        let toolCallObj :=
          {| tco_function :=
               {| tcfo_arguments := stringifyArgs funcCall;
                  tcfo_name := fc_name funcCall |};
             tco_id := toolCallId;
             tco_index := toolCallIndex;
             tco_type := "function" |} in
        (Some {| delta_content := None; delta_reasoning_content := None;
                 delta_tool_calls := Some [toolCallObj]; delta_role := None |},
         {| ss_id := ss_id streamState; ss_created := ss_created streamState;
            ss_usage := ss_usage streamState;
            ss_toolCallIndex := Some (toolCallIndex + 1);
            ss_hasFunctionCall := true;
            ss_roleSent := ss_roleSent streamState |},
         S tick)
    | None, None => (None, streamState, tick)
    end.

Definition convertPart (modelName : string) (created : option Z)
    (streamId : option string) (acc : PartLoop) (part : Part) : PartLoop :=
  let '(streamState, tick, chunksToSend) := acc in
  match partDelta streamState tick part with
  | (Some delta, streamState, tick) =>
      let delta' :=
        if ss_roleSent streamState then delta
        else {| delta_content := delta_content delta;
                delta_reasoning_content := delta_reasoning_content delta;
                delta_tool_calls := delta_tool_calls delta;
                delta_role := Some "assistant" |} in
      ({| ss_id := ss_id streamState; ss_created := ss_created streamState;
          ss_usage := ss_usage streamState;
          ss_toolCallIndex := ss_toolCallIndex streamState;
          ss_hasFunctionCall := ss_hasFunctionCall streamState;
          ss_roleSent := true |},
       tick,
       chunksToSend ++ [SseData (mkChunk delta' None created streamId modelName None)])
  | (None, streamState, tick) => (streamState, tick, chunksToSend)
  end.

(** The returned string: the lines joined, or [null] when there is
    none. *)
Definition joinLines (chunksToSend : list SseLine) : option (list SseLine) :=
  match chunksToSend with
  | [] => None
  | _ :: _ => Some chunksToSend
  end.

(** [translateGoogleToOpenAIStream(googleChunk, modelName, streamState)]
    at draw [tick]: the returned lines, the state object after the
    call (a fresh one when none was passed) and the draw counter. *)
Definition translateGoogleToOpenAIStream (googleChunk : option string)
    (modelName : string) (streamState : option StreamState) (tick : nat)
  : option (list SseLine) * StreamState * nat :=
  let streamState := default emptyStreamState streamState in
  match readChunk googleChunk with
  | BlankChunk | BadChunk => (None, streamState, tick)
  | DoneChunk => (Some [SseDone], streamState, tick)
  | ResponseChunk googleResponse =>
      let '(streamState, tick) :=
        if truthyStr (ss_id streamState) then (streamState, tick)
        else ({| ss_id := Some ("chatcmpl-" +:+ _generateRequestId tick);
                 ss_created := Some (Date_now (S tick) / 1000)%Z;
                 ss_usage := ss_usage streamState;
                 ss_toolCallIndex := ss_toolCallIndex streamState;
                 ss_hasFunctionCall := ss_hasFunctionCall streamState;
                 ss_roleSent := ss_roleSent streamState |},
              S (S tick)) in
      let streamId := ss_id streamState in
      let created := ss_created streamState in
      let streamState :=
        match usageMetadata googleResponse with
        | Some _ =>
            {| ss_id := ss_id streamState; ss_created := ss_created streamState;
               ss_usage := Some (_parseUsage googleResponse);
               ss_toolCallIndex := ss_toolCallIndex streamState;
               ss_hasFunctionCall := ss_hasFunctionCall streamState;
               ss_roleSent := ss_roleSent streamState |}
        | None => streamState
        end in
      match firstCandidate googleResponse with
      | None =>
          match promptFeedback googleResponse with
          | Some feedback =>
              let errorText :=
                "[ProxySystem Error] Request blocked due to safety settings. Finish Reason: "
                  +:+ default "undefined" (blockReason feedback) in
              (Some [SseData (mkChunk
                       {| delta_content := Some errorText;
                          delta_reasoning_content := None;
                          delta_tool_calls := None; delta_role := None |}
                       (Some "stop") created streamId modelName None)],
               streamState, tick)
          | None => (None, streamState, tick)
          end
      | Some candidate =>
          let '(streamState, tick, chunksToSend) :=
            match candidateParts candidate with
            | Some ps =>
                fold_left (convertPart modelName created streamId) ps
                          (streamState, tick, [])
            | None => (streamState, tick, [])
            end in
          let chunksToSend :=
            if truthyStr (cand_finishReason candidate) then
              let finishReason :=
                if ss_hasFunctionCall streamState then "tool_calls"
                else _mapFinishReason (cand_finishReason candidate) in
              chunksToSend ++
                [SseData (mkChunk emptyDelta (Some finishReason) created
                            streamId modelName (ss_usage streamState))]
            else chunksToSend in
          (joinLines chunksToSend, streamState, tick)
      end
  end.

(** A stream: the chunks of one response converted in order with one
    shared state object. *)
Fixpoint translateStream (googleChunks : list (option string))
    (modelName : string) (streamState : StreamState) (tick : nat)
  : list (option (list SseLine)) * StreamState * nat :=
  match googleChunks with
  | [] => ([], streamState, tick)
  | googleChunk :: rest =>
      let '(out, streamState, tick) :=
        translateGoogleToOpenAIStream googleChunk modelName (Some streamState) tick in
      let '(outs, streamState, tick) :=
        translateStream rest modelName streamState tick in
      (out :: outs, streamState, tick)
  end.

(** The [tool_calls] entries in what a stream returned, in order. *)
Definition lineToolCalls (line : SseLine) : list ToolCallObj :=
  match line with
  | SseDone => []
  | SseData chunk =>
      flat_map (fun choice => default [] (delta_tool_calls (cc_delta choice)))
               (chunk_choices chunk)
  end.

Definition emittedToolCalls (outs : list (option (list SseLine)))
  : list ToolCallObj :=
  flat_map (fun out => flat_map lineToolCalls (default [] out)) outs.

(** *** convertGoogleToOpenAINonStream *)

(** The loop variables: [content], [reasoning_content], [tool_calls]
    and the draw counter. *)
Definition collectPart (acc : string * string * list ToolCallObj * nat)
    (part : Part) : string * string * list ToolCallObj * nat :=
  let '(content, reasoning_content, tool_calls, tick) := acc in
  if bool_decide (part_thought part = Some true) then
    (content,
     reasoning_content +:+ (if truthyStr (part_text part)
                            then default EmptyString (part_text part) else EmptyString),
     tool_calls, tick)
  else if truthyStr (part_text part) then
    (content +:+ default EmptyString (part_text part), reasoning_content, tool_calls, tick)
  else
    match part_inlineData part, part_functionCall part with
    | Some image, _ =>
        (content +:+ imageMarkdown image, reasoning_content, tool_calls, tick)
    | None, Some funcCall =>
        (content, reasoning_content,
         tool_calls ++
           [{| tco_function :=
                 {| tcfo_arguments := stringifyArgs funcCall;
                    tcfo_name := fc_name funcCall |};
               tco_id := "call_" +:+ _generateRequestId tick;
               tco_index := length tool_calls;
               tco_type := "function" |}],
         S tick)
    | None, None => acc
    end.

Definition convertGoogleToOpenAINonStream (googleResponse : GoogleResponse)
    (modelName : string) (tick : nat) : ChatCompletion * nat :=
  match firstCandidate googleResponse with
  | None =>
      ({| choices :=
            [{| ch_finish_reason := "stop"; ch_index := 0;
                ch_message :=
                  {| cm_content := EmptyString; cm_role := "assistant";
                     cm_reasoning_content := None; cm_tool_calls := None |} |}];
          created := (Date_now tick / 1000)%Z;
          id := "chatcmpl-" +:+ _generateRequestId (S tick);
          model := modelName;
          object := "chat.completion";
          usage := {| completion_tokens := 0; completion_tokens_details := None;
                      prompt_tokens := 0; prompt_tokens_details := None;
                      total_tokens := 0 |} |},
       S (S tick))
  | Some candidate =>
      let '(content, reasoning_content, tool_calls, tick) :=
        match candidateParts candidate with
        | Some ps => fold_left collectPart ps (EmptyString, EmptyString, [], tick)
        | None => (EmptyString, EmptyString, [], tick)
        end in
      let message :=
        {| cm_content := content; cm_role := "assistant";
           cm_reasoning_content :=
             if String.eqb reasoning_content EmptyString then None
             else Some reasoning_content;
           cm_tool_calls :=
             match tool_calls with
             | [] => None
             | _ :: _ => Some tool_calls
             end |} in
      let finishReason :=
        match tool_calls with
        | [] => _mapFinishReason (cand_finishReason candidate)
        | _ :: _ => "tool_calls"
        end in
      ({| choices :=
            [{| ch_finish_reason := finishReason; ch_index := 0;
                ch_message := message |}];
          created := (Date_now tick / 1000)%Z;
          id := "chatcmpl-" +:+ _generateRequestId (S tick);
          model := modelName;
          object := "chat.completion";
          usage := _parseUsage googleResponse |},
       S (S tick))
  end.

End Responses.
End ResponseConverter.

(** ** scripts/client/build.js *)

(** [URL] and [URLSearchParams], and the page's [location]. Search
    parameters are the list of their name/value pairs in order. *)
Record UrlObj : Type := {
  url_host : string;
  url_pathname : string;
  url_search : string;
  url_searchParams : list (string * string);
}.

Class UrlHost : Type := {
  (** [new URL(url)] and [new URL(url, base)]; [None] when it throws. *)
  URL_parse : string → option string → option UrlObj;
  (** [URLSearchParams.prototype.toString] *)
  URLSearchParams_toString : list (string * string) → string;
  location_host : string;
  location_protocol : string;
}.

(** String methods on ASCII text. *)
Fixpoint dropString (n : nat) (s : string) : string :=
  match n, s with
  | 0, _ => s
  | S n', String _ s' => dropString n' s'
  | S _, EmptyString => EmptyString
  end.

(** [s.includes(needle)] *)
Fixpoint includes (needle s : string) : bool :=
  String.prefix needle s
  || match s with
     | String _ s' => includes needle s'
     | EmptyString => false
     end.

(** [s.replace(pattern, replacement)] for a string pattern: the first
    occurrence only. *)
Fixpoint replace (pattern replacement s : string) : string :=
  if String.prefix pattern s
  then replacement +:+ dropString (String.length pattern) s
  else match s with
       | String c s' => String c (replace pattern replacement s')
       | EmptyString => EmptyString
       end.







(** The request descriptor; [None] is a missing property. *)
Record RequestSpec : Type := {
  request_id : string;
  method : option string;
  path : option string;
  url : option string;
  query_params : list (string * string);
  headers : option (gmap string string);
  streaming_mode : option string;
}.

(** Frames handed to [connectionManager.transmit]. *)
Inductive Frame : Type :=
| ResponseHeadersFrame (request_id : string) (status : Z)
    (headers : list (string * string))
| ChunkFrame (request_id : string) (data : string)
| StreamCloseFrame (request_id : string)
| ErrorFrame (request_id : string) (status : Z) (message : string).

Record JsError : Type := {
  err_name : string;
  err_message : string;
  err_status : option Z;
}.

(** The upstream response as the client reads it: the decoded chunks
    that [reader.read()] yields before the end of the body, and the
    error of the read that fails after them, if one does.
    [resp_text] is [response.text()], read for error statuses. *)
Record Response : Type := {
  resp_ok : bool;
  resp_status : Z;
  resp_statusText : string;
  resp_headers : list (string * string);
  resp_reads : list string;
  resp_readError : option JsError;
  resp_text : string;
}.

(** How the race of [fetch] against the idle timer ends. *)
Inductive FetchOutcome : Type :=
| Fetched (response : Response)
| FetchRejected (error : JsError)
| IdleTimeout.

(** What happens around one request: whether a cancel frame for it came
    before it was started or while it awaited the response, and how the
    fetch ended. *)
Record Upstream : Type := {
  cancelledBefore : bool;
  outcome : FetchOutcome;
  cancelledAfter : bool;
}.

Module Client.
Section Defs.
Context {host : Host} {urlHost : UrlHost}.

(** *** RequestProcessor *)










Definition forbiddenHeaders : list string :=
  ["host"; "connection"; "content-length"; "origin"; "referer";
   "user-agent"; "sec-fetch-mode"; "sec-fetch-site"; "sec-fetch-dest"].

(** [{ ...headers }] of a missing [headers] is the empty object. *)
Definition _sanitizeHeaders (headers : option (gmap string string))
  : gmap string string :=
  foldl (fun sanitized h => delete h sanitized) (default ∅ headers)
        forbiddenHeaders.

(** The block "upper case responseModalities" of [_buildRequestConfig],
    on the value of [generationConfig.responseModalities]. *)
Definition upperCaseModality (m : JValue) : JValue :=
  match m with
  | JStr s => JStr (toUpperCase s)
  | _ => m
  end.

Definition upperCaseResponseModalities (responseModalities : option JValue)
  : option JValue :=
  if truthy responseModalities then
    match responseModalities with
    | Some (JArr ms) => Some (JArr (map upperCaseModality ms))
    | Some (JStr s) => Some (JArr [JStr (toUpperCase s)])
    | other => other
    end
  else responseModalities.

(** [execute]: the value or the error of [responsePromise]. *)
Definition execute (outcome : FetchOutcome) : Response + JsError :=
  match outcome with
  | Fetched response =>
      if resp_ok response then inl response
      else inr {| err_name := "Error";
                  err_message :=
                    "Google API returned error: "
                      +:+ Z_to_string (resp_status response) +:+ " "
                      +:+ resp_statusText response +:+ " "
                      +:+ resp_text response;
                  err_status := Some (resp_status response) |}
  | FetchRejected error => inr error
  | IdleTimeout =>
      inr {| err_name := "Error";
             err_message := "Timeout: 600 seconds without receiving any data";
             err_status := None |}
  end.

(** *** ProxySystem *)

Definition abortError : JsError :=
  {| err_name := "AbortError"; err_message := "The user aborted a request.";
     err_status := None |}.

Definition rewriteHeader (proxyHost : option string) (kv : string * string)
  : string * string :=
  let '(k, v) := kv in
  let lowerKey := toLowerCase k in
  if (String.eqb lowerKey "location" || String.eqb lowerKey "x-goog-upload-url")
     && includes "googleapis.com" v
  then
    match URL_parse v None with
    | Some urlObj =>
        let host :=
          match proxyHost with
          | Some h => if String.eqb h EmptyString then location_host else h
          | None => location_host
          end in
        let separator :=
          if String.eqb (url_search urlObj) EmptyString then "?" else "&" in
        let newSearch :=
          url_search urlObj +:+ separator +:+ "__proxy_host__=" +:+ url_host urlObj in
        (k, location_protocol +:+ "//" +:+ host +:+ url_pathname urlObj +:+ newSearch)
    | None => (k, v)
    end
  else (k, v).

Definition _transmitHeaders (response : Response) (operationId : string)
    (proxyHost : option string) : list Frame :=
  [ResponseHeadersFrame operationId (resp_status response)
     (map (rewriteHeader proxyHost) (resp_headers response))].

Definition _transmitChunk (data operationId : string) : list Frame :=
  if String.eqb data EmptyString then [] else [ChunkFrame operationId data].

Definition _transmitStreamEnd (operationId : string) : list Frame :=
  [StreamCloseFrame operationId].

Definition _sendErrorResponse (error : JsError) (operationId : string)
  : list Frame :=
  if String.eqb operationId EmptyString then []
  else [ErrorFrame operationId
          (match err_status error with
           | Some st => if (st =? 0)%Z then 504%Z else st
           | None => 504%Z
           end)
          ("Proxy browser error: "
             +:+ (if String.eqb (err_message error) EmptyString
                  then "Unknown error" else err_message error))].

(** [while (processing)]: the frames sent while reading and [fullBody]
    at the end of the body. *)
Fixpoint readBody (mode operationId : string) (reads : list string)
    (fullBody : string) : list Frame * string :=
  match reads with
  | [] => ([], fullBody)
  | chunk :: rest =>
      if String.eqb mode "real" then
        let '(frames, fullBody) := readBody mode operationId rest fullBody in
        (_transmitChunk chunk operationId ++ frames, fullBody)
      else readBody mode operationId rest (fullBody +:+ chunk)
  end.

(** The frames [_processProxyRequest] transmits for a descriptor. *)
Definition _processProxyRequest (requestSpec : RequestSpec) (up : Upstream)
  : list Frame :=
  let operationId := request_id requestSpec in
  let mode :=
    match streaming_mode requestSpec with
    | Some m => if String.eqb m EmptyString then "fake" else m
    | None => "fake"
    end in
  if cancelledBefore up then _sendErrorResponse abortError operationId
  else
    match execute (outcome up) with
    | inr error => _sendErrorResponse error operationId
    | inl response =>
        if cancelledAfter up then _sendErrorResponse abortError operationId
        else
          let '(frames, fullBody) :=
            readBody mode operationId (resp_reads response) EmptyString in
          _transmitHeaders response operationId
            (headers requestSpec ≫= (fun h => h !! "host"))
          ++ frames
          ++ match resp_readError response with
             | Some error => _sendErrorResponse error operationId
             | None =>
                 (if String.eqb mode "fake"
                  then _transmitChunk fullBody operationId else [])
                 ++ _transmitStreamEnd operationId
             end
    end.

End Defs.
End Client.

(** ** A host to run the definitions on examples

    ASCII case conversion and trimming, a [JSON.parse] that knows a few
    literals, and a clock and random source that count draws. *)
Module ExampleHost.

Definition upperAscii (c : ascii) : ascii :=
  let n := nat_of_ascii c in
  if (97 <=? n)%nat && (n <=? 122)%nat then ascii_of_nat (n - 32) else c.

Definition lowerAscii (c : ascii) : ascii :=
  let n := nat_of_ascii c in
  if (65 <=? n)%nat && (n <=? 90)%nat then ascii_of_nat (n + 32) else c.

Fixpoint mapString (f : ascii → ascii) (s : string) : string :=
  match s with
  | EmptyString => EmptyString
  | String c s' => String (f c) (mapString f s')
  end.

Definition isSpace (c : ascii) : bool :=
  let n := nat_of_ascii c in
  (n =? 32)%nat || (n =? 9)%nat || (n =? 10)%nat || (n =? 13)%nat.

Fixpoint trimStart (s : string) : string :=
  match s with
  | String c s' => if isSpace c then trimStart s' else s
  | EmptyString => EmptyString
  end.

Definition trimAscii (s : string) : string :=
  String.rev (trimStart (String.rev (trimStart s))).

Definition parseLiteral (s : string) : option JValue :=
  if String.eqb s "null" then Some JNull
  else if String.eqb s "true" then Some (JBool true)
  else if String.eqb s "false" then Some (JBool false)
  else if String.eqb s "{}" then Some (JObj [])
  else if String.eqb s "[]" then Some (JArr [])
  else None.

Definition decimal (z : Z) : string := NilZero.string_of_int (Z.to_int z).

Definition host : Host :=
  {| JSON_parse := parseLiteral;
     JSON_stringify := fun _ => "{}";
     toUpperCase := mapString upperAscii;
     toLowerCase := mapString lowerAscii;
     trim := trimAscii;
     Date_now := fun n => (1700000000000 + Z.of_nat n)%Z;
     Math_random36 := fun n => "r" +:+ decimal (Z.of_nat n);
     Z_to_string := decimal;
     JS_String := fun _ => "[object Object]" |}.

Definition callPart (name : string) : Part :=
  {| part_text := None; part_thought := None; part_inlineData := None;
     part_functionCall :=
       Some {| fc_args := Some (JObj []); fc_name := Some name |};
     part_functionResponse := None; part_thoughtSignature := None |}.

Definition modelTurn (ps : list Part) (finishReason : option string)
  : GoogleResponse :=
  {| candidates :=
       Some [{| cand_content := Some {| parts := Some ps; role := Some "model" |};
                cand_finishReason := finishReason |}];
     promptFeedback := None;
     usageMetadata := None |}.

Definition blockedResponse : GoogleResponse :=
  {| candidates := None;
     promptFeedback := Some {| blockReason := Some "SAFETY" |};
     usageMetadata := None |}.

(** A wire that knows three payloads by name. *)
Definition wire : GeminiWire :=
  {| parseGoogleResponse := fun s =>
       if String.eqb s "<two calls>"
       then Some (modelTurn [callPart "get_weather"; callPart "get_time"] None)
       else if String.eqb s "<one call, stop>"
       then Some (modelTurn [callPart "get_news"] (Some "STOP"))
       else if String.eqb s "<blocked>" then Some blockedResponse
       else None |}.

(** No URL parsing; parameters are joined unescaped. *)
Definition urlHost : UrlHost :=
  {| URL_parse := fun _ _ => None;
     URLSearchParams_toString := fun ps =>
       String.concat "&" (map (fun p => fst p +:+ "=" +:+ snd p) ps);
     location_host := "127.0.0.1:7860";
     location_protocol := "http:" |}.

Definition imageHost : ImageHost :=
  {| match_data_url := fun _ => None;
     axios_get := fun _ => None;
     mime_lookup := fun _ => None |}.

End ExampleHost.

(** ** src/utils/LoggingService.js *)

Module LoggingService.
Section Defs.
(** [_getTimestamp()] at its n-th call: a reading of the clock. *)
Context (timestampAt : nat → string).

Record t : Type := mk {
  serviceName : string;
  logBuffer : list string;
  maxBufferSize : nat;
  calls : nat;
}.

(** [constructor(serviceName = "ProxyServer")] *)
Definition new (name : option string) : t :=
  {| serviceName := default "ProxyServer" name;
     logBuffer := [];
     maxBufferSize := 100;
     calls := 0 |}.

Definition formatLine (level timestamp name message : string) : string :=
  "[" +:+ level +:+ "] " +:+ timestamp +:+ " [" +:+ name +:+ "] - " +:+ message.

(** [_formatMessage(level, message)]: the formatted line and the service
    after the call. *)
Definition _formatMessage (level message : string) (l : t) : string * t :=
  let formatted := formatLine level (timestampAt (calls l)) (serviceName l) message in
  let pushed := logBuffer l ++ [formatted] in
  (formatted,
   {| serviceName := serviceName l;
      logBuffer := if (maxBufferSize l <? length pushed)%nat then tail pushed else pushed;
      maxBufferSize := maxBufferSize l;
      calls := S (calls l) |}).

(** [info], [error], [warn] and [debug] print the line that
    [_formatMessage] returns, with the level they name. *)
Inductive Level : Type := INFO | ERROR | WARN | DEBUG.

Definition levelName (level : Level) : string :=
  match level with
  | INFO => "INFO"
  | ERROR => "ERROR"
  | WARN => "WARN"
  | DEBUG => "DEBUG"
  end.

Definition log (l : t) (entry : Level * string) : t :=
  snd (_formatMessage (levelName (fst entry)) (snd entry) l).

Definition printed (l : t) (entry : Level * string) : string :=
  fst (_formatMessage (levelName (fst entry)) (snd entry) l).

End Defs.
End LoggingService.

(** ** src/auth/authSource.js *)

(** The directory [configs/auth] as the module sees it: whether it
    exists, its listing ([None] when [readdirSync] throws), which file
    names exist in it and what reading them gives ([None] when
    [readFileSync] throws). *)
Record AuthDirectory : Type := {
  dirExists : bool;
  readdir : option (list string);
  fileExists : string → bool;
  readFile : string → option string;
}.

Module AuthSource.
Section Defs.
Context {host : Host}.

(** [suffix] taken off the end of [s]. *)
Definition stripSuffix (suffix s : string) : option string :=
  let n := (String.length s - String.length suffix)%nat in
  if (String.length suffix <=? String.length s)%nat
     && String.eqb (dropString n s) suffix
  then Some (String.substring 0 n s)
  else None.

(** The index in a file name of the form [auth-], one or more decimal
    digits, [.json]: the test of the scan and the [parseInt] of the
    digits. Indices are natural numbers; JavaScript holds them exactly
    below 2^53. *)
Definition authFileIndex (file : string) : option nat :=
  if String.prefix "auth-" file then
    match stripSuffix ".json" (dropString 5 file) with
    | Some digits =>
        if String.eqb digits EmptyString then None
        else Nat.of_uint <$> NilEmpty.uint_of_string digits
    | None => None
    end
  else None.

(** The file name [auth-${index}.json]. *)
Definition authFileName (index : nat) : string :=
  "auth-" +:+ NilEmpty.string_of_uint (Nat.to_uint index) +:+ ".json".

Record t : Type := mk {
  availableIndices : list nat;
  initialIndices : list nat;
  accountNameMap : gmap nat JValue;
  lastScannedIndices : list nat;
}.

(** [[...new Set(indices)].sort((a, b) => a - b)] *)
Definition sortedDistinct (indices : list nat) : list nat :=
  merge_sort Nat.le (remove_dups indices).

Definition _discoverAvailableIndices (dir : AuthDirectory) (a : t) : t :=
  if negb (dirExists dir) then
    {| availableIndices := []; initialIndices := [];
       accountNameMap := accountNameMap a;
       lastScannedIndices := lastScannedIndices a |}
  else
    match readdir dir with
    | Some files =>
        {| availableIndices := availableIndices a;
           initialIndices := sortedDistinct (omap authFileIndex files);
           accountNameMap := accountNameMap a;
           lastScannedIndices := lastScannedIndices a |}
    | None =>
        {| availableIndices := []; initialIndices := [];
           accountNameMap := accountNameMap a;
           lastScannedIndices := lastScannedIndices a |}
    end.

Definition _getAuthContent (dir : AuthDirectory) (index : nat) : option string :=
  if fileExists dir (authFileName index) then readFile dir (authFileName index)
  else None.

(** [authData.accountName || "N/A (unnamed)"]; [None] when reading the
    property throws, that is when [authData] is [null]. *)
Definition accountNameOf (authData : JValue) : option JValue :=
  match authData with
  | JNull => None
  | JObj fields =>
      match List.find (fun kv => String.eqb (fst kv) "accountName") fields with
      | Some (_, name) =>
          Some (if truthy (Some name) then name else JStr "N/A (unnamed)")
      | None => Some (JStr "N/A (unnamed)")
      end
  | _ => Some (JStr "N/A (unnamed)")
  end.

(** One turn of [for (const index of this.initialIndices)], on
    [validIndices] and [accountNameMap]. *)
Definition validateIndex (dir : AuthDirectory)
    (acc : list nat * gmap nat JValue) (index : nat)
  : list nat * gmap nat JValue :=
  let '(validIndices, names) := acc in
  match _getAuthContent dir index with
  | Some authContent =>
      if String.eqb authContent EmptyString then acc
      else
        match JSON_parse authContent with
        | Some authData =>
            (validIndices ++ [index],
             match accountNameOf authData with
             | Some name => <[index := name]> names
             | None => names
             end)
        | None => acc
        end
  | None => acc
  end.

Definition _preValidateAndFilter (dir : AuthDirectory) (a : t) : t :=
  match initialIndices a with
  | [] =>
      {| availableIndices := []; initialIndices := initialIndices a;
         accountNameMap := ∅; lastScannedIndices := lastScannedIndices a |}
  | _ :: _ =>
      let '(validIndices, names) :=
        fold_left (validateIndex dir) (initialIndices a) ([], ∅) in
      {| availableIndices := merge_sort Nat.le validIndices;
         initialIndices := initialIndices a;
         accountNameMap := names;
         lastScannedIndices := lastScannedIndices a |}
  end.

(** [lastScannedIndices] caches [JSON.stringify(this.initialIndices)];
    two lists of numbers have the same rendering exactly when they are
    equal, so the list itself is kept. *)
Definition reloadAuthSources (isInitialLoad : bool) (dir : AuthDirectory) (a : t) : t :=
  let oldIndices := lastScannedIndices a in
  let a := _discoverAvailableIndices dir a in
  let newIndices := initialIndices a in
  if isInitialLoad || negb (bool_decide (oldIndices = newIndices)) then
    let a := _preValidateAndFilter dir a in
    {| availableIndices := availableIndices a;
       initialIndices := initialIndices a;
       accountNameMap := accountNameMap a;
       lastScannedIndices := newIndices |}
  else a.

(** [constructor(logger)] *)
Definition new (dir : AuthDirectory) : t :=
  reloadAuthSources true dir
    {| availableIndices := []; initialIndices := [];
       accountNameMap := ∅; lastScannedIndices := [] |}.


(** The loop of [saveAuthFile] that looks for a free file name from
    [nextAuthIndex] on, run for at most [fuel] turns. *)
Fixpoint nextAuthIndexFrom (fuel : nat) (dir : AuthDirectory) (nextAuthIndex : nat)
  : option nat :=
  match fuel with
  | 0 => None
  | S fuel' =>
      if fileExists dir (authFileName nextAuthIndex)
      then nextAuthIndexFrom fuel' dir (S nextAuthIndex)
      else Some nextAuthIndex
  end.

End Defs.
End AuthSource.

(** ** src/routes/WebRoutes.js: login rate limiting and HTML escaping *)

(** The record kept per client address in [loginAttempts]. *)
Record Attempts : Type := {
  count : Z;
  firstAttempt : Z;
  lastAttempt : Z;
}.

(** [rateLimitEnabled], [rateLimitWindow] (minutes) and
    [rateLimitMaxAttempts] as the constructor leaves them. *)
Record RateLimit : Type := {
  rateLimitEnabled : bool;
  rateLimitWindow : Z;
  rateLimitMaxAttempts : Z;
}.

(** One POST to [/login]: the address [_getClientIP] returns, the
    reading of [Date.now()], [req.body.apiKey], whether
    [req.session.regenerate] reports an error, and whether
    [Math.random() < 0.1]. *)
Record LoginRequest : Type := {
  login_ip : string;
  login_now : Z;
  login_apiKey : option string;
  regenerateFails : bool;
  cleanupDrawn : bool;
}.

(** [res.redirect(location)], with [req.session.isAuthenticated] after
    the request. *)
Record LoginResponse : Type := {
  location : string;
  isAuthenticated : bool;
}.

Module WebRoutes.

(** [_cleanupExpiredAttempts(now, rateLimit)] *)
Definition _cleanupExpiredAttempts (now rateLimit : Z)
    (loginAttempts : gmap string Attempts) : gmap string Attempts :=
  filter (fun entry => ¬ (now - firstAttempt (snd entry) > rateLimit)%Z)
         loginAttempts.

(** [this.loginAttempts.get(ip) || { count: 0, firstAttempt: now, lastAttempt: 0 }] *)
Definition attemptsOf (loginAttempts : gmap string Attempts) (ip : string) (now : Z)
  : Attempts :=
  default {| count := 0; firstAttempt := now; lastAttempt := 0 |}
          (loginAttempts !! ip).

(** [apiKey && this.config.apiKeys.includes(apiKey)] *)
Definition keyAccepted (apiKeys : list string) (apiKey : option string) : bool :=
  match apiKey with
  | Some key => negb (String.eqb key EmptyString) && bool_decide (key ∈ apiKeys)
  | None => false
  end.

(** The first block of the handler: the window of the stored record is
    reset when it has expired (the record is the object held by the
    map, so the reset is seen by later requests), and the request is
    limited when the count has reached the maximum. *)
Definition checkRateLimit (limit : RateLimit) (request : LoginRequest)
    (loginAttempts : gmap string Attempts) : gmap string Attempts * bool :=
  let RATE_LIMIT_WINDOW := (rateLimitWindow limit * 60 * 1000)%Z in
  let MAX_ATTEMPTS := rateLimitMaxAttempts limit in
  if rateLimitEnabled limit then
    let attempts := attemptsOf loginAttempts (login_ip request) (login_now request) in
    if bool_decide (login_now request - firstAttempt attempts > RATE_LIMIT_WINDOW)%Z then
      let attempts :=
        {| count := 0; firstAttempt := login_now request;
           lastAttempt := lastAttempt attempts |} in
      (match loginAttempts !! login_ip request with
       | Some _ => <[login_ip request := attempts]> loginAttempts
       | None => loginAttempts
       end,
       bool_decide (count attempts >= MAX_ATTEMPTS)%Z)
    else (loginAttempts, bool_decide (count attempts >= MAX_ATTEMPTS)%Z)
  else (loginAttempts, false).

(** The rest of the handler, for a request that is not limited: the
    key is checked, a success deletes the record of the address and a
    failure counts. *)
Definition checkKey (limit : RateLimit) (apiKeys : list string)
    (request : LoginRequest) (loginAttempts : gmap string Attempts)
  : gmap string Attempts * LoginResponse :=
  let ip := login_ip request in
  let now := login_now request in
  let RATE_LIMIT_WINDOW := (rateLimitWindow limit * 60 * 1000)%Z in
  if keyAccepted apiKeys (login_apiKey request) then
    (if rateLimitEnabled limit then delete ip loginAttempts else loginAttempts,
     if regenerateFails request
     then {| location := "/login?error=1"; isAuthenticated := false |}
     else {| location := "/"; isAuthenticated := true |})
  else
    (if rateLimitEnabled limit then
       let attempts := attemptsOf loginAttempts ip now in
       let attempts :=
         {| count := count attempts + 1; firstAttempt := firstAttempt attempts;
            lastAttempt := now |} in
       let loginAttempts := <[ip := attempts]> loginAttempts in
       if cleanupDrawn request
       then _cleanupExpiredAttempts now RATE_LIMIT_WINDOW loginAttempts
       else loginAttempts
     else loginAttempts,
     {| location := "/login?error=1"; isAuthenticated := false |}).

(** The handler of [app.post("/login", ...)]. *)
Definition login (limit : RateLimit) (apiKeys : list string)
    (loginAttempts : gmap string Attempts) (request : LoginRequest)
  : gmap string Attempts * LoginResponse :=
  let '(loginAttempts, limited) := checkRateLimit limit request loginAttempts in
  if limited then
    (loginAttempts, {| location := "/login?error=2"; isAuthenticated := false |})
  else checkKey limit apiKeys request loginAttempts.

(** Requests handled one after the other. *)
Fixpoint logins (limit : RateLimit) (apiKeys : list string)
    (loginAttempts : gmap string Attempts) (requests : list LoginRequest)
  : gmap string Attempts * list LoginResponse :=
  match requests with
  | [] => (loginAttempts, [])
  | request :: rest =>
      let '(loginAttempts, response) := login limit apiKeys loginAttempts request in
      let '(loginAttempts, responses) := logins limit apiKeys loginAttempts rest in
      (loginAttempts, response :: responses)
  end.

(** The replacement of one character by [_escapeHtml]; the double
    quote is character 34. *)
Definition escapeChar (char : ascii) : string :=
  if Ascii.eqb char (ascii_of_nat 34) then "&quot;"
  else if Ascii.eqb char "&" then "&amp;"
  else if Ascii.eqb char "'" then "&#x27;"
  else if Ascii.eqb char "/" then "&#x2F;"
  else if Ascii.eqb char "<" then "&lt;"
  else if Ascii.eqb char ">" then "&gt;"
  else String char EmptyString.

(** [text.replace] with the global pattern for the six characters of
    [htmlEscapeMap] and the callback that looks the match up in it. *)
Fixpoint _escapeHtml (text : string) : string :=
  match text with
  | EmptyString => EmptyString
  | String char rest => escapeChar char +:+ _escapeHtml rest
  end.

End WebRoutes.

(** ** src/core/FormatConverter.js: tool schemas *)

(** [value.key] on a parsed JSON value that is not [null]: only objects
    have the properties read here; [None] is [undefined]. *)
Definition getProp (key : string) (value : JValue) : option JValue :=
  match value with
  | JObj fields => snd <$> List.find (fun field => String.eqb (fst field) key) fields
  | _ => None
  end.

(** [object.key = value] for a key the object has: the field keeps its
    place. *)
Definition setProp (key : string) (value : JValue) (fields : list (string * JValue))
  : list (string * JValue) :=
  map (fun field => if String.eqb (fst field) key then (fst field, value) else field)
      fields.

(** [result[key] = value]: an existing field is overwritten in place,
    a new one is added at the end. *)
Fixpoint assign (key : string) (value : JValue) (result : list (string * JValue))
  : list (string * JValue) :=
  match result with
  | [] => [(key, value)]
  | field :: rest =>
      if String.eqb (fst field) key then (key, value) :: rest
      else field :: assign key value rest
  end.

(** [for (const x of xs)], or [xs.map], with a body that may throw
    ([None]). *)
Definition forEach {A B : Type} (body : A → option B) : list A → option (list B) :=
  fix each (xs : list A) : option (list B) :=
    match xs with
    | [] => Some []
    | x :: rest =>
        match body x with
        | Some y =>
            match each rest with
            | Some ys => Some (y :: ys)
            | None => None
            end
        | None => None
        end
    end.

Module ToolSchemas.
Section Defs.
Context {host : Host}.

(** The fields the Gemini API does not accept. *)
Definition unsupportedKey (key : string) : bool :=
  String.eqb key "$schema" || String.eqb key "additionalProperties".

(** [for (const key of Object.keys(obj))] of [sanitizeSchema] on an
    object, given the function for the recursive calls. *)
Definition sanitizeFields (sanitizeSchema : JValue → JValue)
  : list (string * JValue) → list (string * JValue) :=
  fix each (fields : list (string * JValue)) : list (string * JValue) :=
    match fields with
    | [] => []
    | (key, value) :: rest =>
        if unsupportedKey key then each rest
        else
          (key,
           match value with
           | JStr s => if String.eqb key "type" then JStr (toUpperCase s) else value
           | _ => sanitizeSchema value
           end) :: each rest
    end.

(** [sanitizeSchema] of [sanitizeGeminiTools]. The keys of an array are
    its indices, so each element is copied or, when it is an object,
    sanitized; on a value that is not an object the function is the
    identity. *)
Fixpoint sanitizeSchema (obj : JValue) : JValue :=
  match obj with
  | JArr items => JArr (map sanitizeSchema items)
  | JObj fields => JObj (sanitizeFields sanitizeSchema fields)
  | _ => obj
  end.

(** The body of [for (const funcDecl of tool.functionDeclarations)];
    reading a property of [null] throws. *)
Definition sanitizeDeclaration (funcDecl : JValue) : option JValue :=
  match funcDecl with
  | JNull => None
  | JObj fields =>
      match getProp "parameters" funcDecl with
      | Some parameters =>
          if truthy (Some parameters)
          then Some (JObj (setProp "parameters" (sanitizeSchema parameters) fields))
          else Some funcDecl
      | None => Some funcDecl
      end
  | _ => Some funcDecl
  end.

(** The body of [for (const tool of geminiBody.tools)]. *)
Definition sanitizeTool (tool : JValue) : option JValue :=
  match tool with
  | JNull => None
  | JObj fields =>
      match getProp "functionDeclarations" tool with
      | Some (JArr functionDeclarations) =>
          match forEach sanitizeDeclaration functionDeclarations with
          | Some sanitized =>
              Some (JObj (setProp "functionDeclarations" (JArr sanitized) fields))
          | None => None
          end
      | _ => Some tool
      end
  | _ => Some tool
  end.

(** [sanitizeGeminiTools(geminiBody)]: the body returned, or [None]
    when the loop throws. An argument of [None] is [undefined]. *)
Definition sanitizeGeminiTools (geminiBody : option JValue)
  : option (option JValue) :=
  match geminiBody with
  | Some (JObj fields) =>
      match getProp "tools" (JObj fields) with
      | Some (JArr tools) =>
          match forEach sanitizeTool tools with
          | Some sanitized => Some (Some (JObj (setProp "tools" (JArr sanitized) fields)))
          | None => None
          end
      | _ => Some geminiBody
      end
  | _ => Some geminiBody
  end.

(** [convertParameterTypes] of [translateOpenAIToGoogle]; [None] when
    [toUpperCase] is called on a type that is not a string. *)
Definition upperCaseType (t : JValue) : option JValue :=
  match t with
  | JStr s => Some (JStr (toUpperCase s))
  | _ => None
  end.

Definition isNullName (t : JValue) : bool :=
  match t with
  | JStr s => String.eqb s "null"
  | _ => false
  end.

(** The value stored under [type] for an array of types. *)
Definition convertTypes (types : list JValue) : option JValue :=
  let nonNullTypes := List.filter (fun t => negb (isNullName t)) types in
  match nonNullTypes with
  | [] => Some (JStr "STRING")
  | [t] => upperCaseType t
  | _ => JArr <$> forEach upperCaseType nonNullTypes
  end.

(** [for (const key of Object.keys(obj))] of [convertParameterTypes]
    on an object, from the [result] built so far, given the function
    for the recursive calls. *)
Definition convertFields (convertParameterTypes : JValue → option JValue)
  : list (string * JValue) → list (string * JValue)
    → option (list (string * JValue)) :=
  fix each (fields result : list (string * JValue))
    : option (list (string * JValue)) :=
    match fields with
    | [] => Some result
    | (key, value) :: rest =>
        if unsupportedKey key then each rest result
        else if String.eqb key "type" then
          match value with
          | JArr types =>
              let result :=
                if existsb isNullName types
                then assign "nullable" (JBool true) result
                else result in
              match convertTypes types with
              | Some converted => each rest (assign key converted result)
              | None => None
              end
          | JStr s => each rest (assign key (JStr (toUpperCase s)) result)
          | _ =>
              match convertParameterTypes value with
              | Some converted => each rest (assign key converted result)
              | None => None
              end
          end
        else
          match convertParameterTypes value with
          | Some converted => each rest (assign key converted result)
          | None => None
          end
    end.

Fixpoint convertParameterTypes (obj : JValue) : option JValue :=
  match obj with
  | JArr items => JArr <$> forEach convertParameterTypes items
  | JObj fields => JObj <$> convertFields convertParameterTypes fields []
  | _ => Some obj
  end.

End Defs.
End ToolSchemas.

(** ** scripts/client/build.js: the request body *)


Module RequestBody.
Section Defs.
Context {host : Host}.














End Defs.
End RequestBody.

(* ===================================================================== *)
(** * Part II: theorems                                                   *)
(* ===================================================================== *)

Module MessageQueueFacts.
Import MessageQueue.
Section Facts.
Context {Message : Type}.
Implicit Types (q : t Message) (s : System Message).

Lemma indexOf_None r (l : list nat) : indexOf r l = None ↔ r ∉ l.
Proof.
  induction l as [|y l IH]; simpl.
  - split; [intros _; apply not_elem_of_nil | done].
  - destruct (decide (y = r)) as [->|Hne].
    + split; [done | intros H; exfalso; apply H; left].
    + rewrite not_elem_of_cons. destruct (indexOf r l); simpl.
      * split; [done | intros [_ H]]. by apply IH in H.
      * split; [intros _; split; [congruence | by apply IH] | done].
Qed.

Lemma indexOf_Some r (l : list nat) i :
  indexOf r l = Some i → l !! i = Some r ∧ r ∉ take i l.
Proof.
  revert i. induction l as [|y l IH]; intros i; simpl; [done|].
  destruct (decide (y = r)) as [->|Hne].
  - intros [= <-]. split; [done | apply not_elem_of_nil].
  - destruct (indexOf r l) as [j|]; simpl; [|done].
    intros [= <-]. destruct (IH j eq_refl) as [Hl Hn]. split; [done|].
    simpl. rewrite not_elem_of_cons. split; [congruence | done].
Qed.

(** Splicing out the first occurrence of an element that occurs once
    leaves a list without it. *)
Lemma delete_indexOf_NoDup r (l : list nat) i :
  NoDup l → indexOf r l = Some i → r ∉ delete i l.
Proof.
  revert i. induction l as [|y l IH]; intros i Hnd; simpl; [done|].
  apply NoDup_cons in Hnd as [Hy Hnd].
  destruct (decide (y = r)) as [->|Hne].
  - intros [= <-]. done.
  - destruct (indexOf r l) as [j|] eqn:E; simpl; [|done].
    intros [= <-]. simpl. rewrite not_elem_of_cons. split; [congruence|].
    by apply IH.
Qed.

Lemma delete_sublist (l : list nat) i x : x ∈ delete i l → x ∈ l.
Proof. apply sublist_subseteq, sublist_delete. Qed.

(** Resolver [r] was allocated earlier and is on no waiting list. *)
Definition dropped (r : nat) s : Prop :=
  (r ∉ waitingResolvers (queue s)) ∧ (r < nextResolver s).

Lemma step_dropped r s ev :
  dropped r s →
  dropped r (fst (step s ev)) ∧ ∀ m, Resolve r m ∉ snd (step s ev).
Proof.
  intros [Hnot Hlt]. destruct s as [q n]; simpl in *.
  destruct ev as [m|timeoutMs|r'|]; simpl.
  - unfold enqueue. destruct (closed q); simpl.
    { split; [done | intros m'; apply not_elem_of_nil]. }
    destruct (waitingResolvers q) as [|w rest] eqn:E; simpl.
    + split; [split; simpl; [apply not_elem_of_nil | done] | intros m'; apply not_elem_of_nil].
    + apply not_elem_of_cons in Hnot as [Hrw Hrest].
      split; [done|]. intros m'. rewrite !not_elem_of_cons.
      split; [done|]. split; [congruence | apply not_elem_of_nil].
  - unfold dequeue. destruct (closed q); simpl.
    { split; [split; simpl; [done | lia]|].
      intros m'. rewrite not_elem_of_cons. split; [done | apply not_elem_of_nil]. }
    destruct (messages q) as [|m rest]; simpl.
    + split; [split; simpl; [|lia]|].
      * rewrite not_elem_of_app, not_elem_of_cons. split; [done|].
        split; [lia | apply not_elem_of_nil].
      * intros m'. rewrite not_elem_of_cons. split; [done | apply not_elem_of_nil].
    + split; [split; simpl; [done | lia]|].
      intros m'. rewrite not_elem_of_cons.
      split; [intros [= -> _]; lia | apply not_elem_of_nil].
  - unfold onTimeout. destruct (indexOf r' (waitingResolvers q)) as [i|]; simpl.
    + split; [split; simpl; [|done]|].
      * intros Hin. apply Hnot. by eapply delete_sublist.
      * intros m'. rewrite not_elem_of_cons. split; [done | apply not_elem_of_nil].
    + split; [done | intros m'; apply not_elem_of_nil].
  - split; [split; simpl; [apply not_elem_of_nil | done]|].
    intros m'. clear Hnot. induction (waitingResolvers q) as [|w l IH]; simpl.
    + apply not_elem_of_nil.
    + rewrite !not_elem_of_cons. repeat (split; [discriminate|]). exact IH.
Qed.

Lemma run_dropped r s evs :
  dropped r s → ∀ m, Resolve r m ∉ snd (run s evs).
Proof.
  revert s. induction evs as [|ev evs IH]; intros s Hd m; simpl.
  - apply not_elem_of_nil.
  - destruct (step_dropped r s ev Hd) as [Hd' Hno].
    destruct (step s ev) as [s1 effs1]; simpl in *.
    specialize (IH s1 Hd' m). destruct (run s1 evs) as [s2 effs2]; simpl in *.
    rewrite not_elem_of_app. split; [apply Hno | done].
Qed.

(** Waiting resolvers are distinct and were all allocated. *)
Definition wf s : Prop :=
  NoDup (waitingResolvers (queue s))
  ∧ Forall (fun w => w < nextResolver s) (waitingResolvers (queue s)).

Lemma wf_initial timeoutMs : wf (initial (Message := Message) timeoutMs).
Proof. split; simpl; [apply NoDup_nil_2 | apply Forall_nil_2]. Qed.

Lemma step_wf s ev : wf s → wf (fst (step s ev)).
Proof.
  intros [Hnd Hall]. destruct s as [q n]; simpl in *.
  destruct ev as [m|timeoutMs|r'|]; simpl.
  - unfold enqueue. destruct (closed q); simpl; [done|].
    destruct (waitingResolvers q) as [|w rest] eqn:E; simpl.
    + split; simpl; [apply NoDup_nil_2 | apply Forall_nil_2].
    + apply NoDup_cons in Hnd as [_ Hnd]. apply Forall_cons in Hall as [_ Hall].
      by split.
  - unfold dequeue. destruct (closed q); simpl.
    { split; simpl; [done|]. eapply Forall_impl; [exact Hall|]. simpl; lia. }
    destruct (messages q) as [|m rest]; simpl.
    + split; simpl.
      * apply NoDup_app. split; [done|]. split; [|apply NoDup_singleton].
        intros x Hx Hx'. apply list_elem_of_singleton in Hx'. subst x.
        rewrite Forall_forall in Hall. specialize (Hall _ Hx). lia.
      * apply Forall_app. split.
        -- eapply Forall_impl; [exact Hall|]. simpl; lia.
        -- apply Forall_singleton. lia.
    + split; simpl; [done|]. eapply Forall_impl; [exact Hall|]. simpl; lia.
  - unfold onTimeout. destruct (indexOf r' (waitingResolvers q)) as [i|]; simpl; [|done].
    split; simpl.
    + eapply sublist_NoDup; eauto using sublist_delete.
    + by apply Forall_delete.
  - split; simpl; [apply NoDup_nil_2 | apply Forall_nil_2].
Qed.

Lemma run_wf s evs : wf s → wf (fst (run s evs)).
Proof.
  revert s. induction evs as [|ev evs IH]; intros s Hwf; simpl; [done|].
  pose proof (step_wf s ev Hwf) as Hwf1.
  destruct (step s ev) as [s1 effs1]; simpl in *.
  specialize (IH s1 Hwf1). by destruct (run s1 evs) as [s2 effs2].
Qed.

(** The timer callback of a waiting resolver rejects it with the
    timeout error and leaves it dropped. *)
Lemma timer_drops r s :
  wf s → r ∈ waitingResolvers (queue s) →
  snd (step s (EvTimerFires r)) = [Reject r "Queue timeout"]
  ∧ dropped r (fst (step s (EvTimerFires r))).
Proof.
  intros [Hnd Hall] Hin. destruct s as [q n]; simpl in *. unfold onTimeout.
  destruct (indexOf r (waitingResolvers q)) as [i|] eqn:E; simpl.
  - split; [done|]. split; simpl.
    + by apply delete_indexOf_NoDup.
    + rewrite Forall_forall in Hall. by apply Hall.
  - apply indexOf_None in E. done.
Qed.

(** C3: on a closed queue [enqueue] changes nothing and touches no
    promise, and [dequeue] rejects its caller with the error "Queue is
    closed"; a resolver that its timeout removed from the waiting list
    is rejected with "Queue timeout" and no later event, whatever the
    sequence, resolves it with a message. *)
Theorem closed_queue_and_timed_out_waiter :
  (∀ q (m : Message), closed q = true → enqueue m q = (q, []))
  ∧ (∀ q r timeoutMs, closed q = true →
       dequeue r timeoutMs q = (q, [Reject r "Queue is closed"]))
  ∧ (∀ timeoutMs (before after : list (Event Message)) r,
       r ∈ waitingResolvers (queue (fst (run (initial timeoutMs) before))) →
       snd (step (fst (run (initial timeoutMs) before)) (EvTimerFires r))
         = [Reject r "Queue timeout"]
       ∧ ∀ m, Resolve r m ∉
           snd (run (fst (step (fst (run (initial timeoutMs) before))
                               (EvTimerFires r))) after)).
Proof.
  split; [|split].
  - intros q m Hc. unfold enqueue. by rewrite Hc.
  - intros q r timeoutMs Hc. unfold dequeue. by rewrite Hc.
  - intros timeoutMs before after r Hin.
    pose proof (run_wf _ before (wf_initial timeoutMs)) as Hwf.
    destruct (timer_drops r _ Hwf Hin) as [Heff Hdrop].
    split; [exact Heff|]. intros m. by apply run_dropped.
Qed.

(** C9: [close] clears the timer of every waiting resolver and rejects
    it with "Queue closed", resolves nobody, and leaves a closed queue
    with no waiter and no buffered message; closing again changes
    nothing and touches no promise, and afterwards every [enqueue] is
    dropped and every [dequeue] is rejected. *)
Theorem close_rejects_discards_idempotent q :
  snd (close q)
    = flat_map (fun r => [ClearTimeout r; Reject r "Queue closed"])
               (waitingResolvers q)
  ∧ waitingResolvers (fst (close q)) = []
  ∧ messages (fst (close q)) = []
  ∧ closed (fst (close q)) = true
  ∧ close (fst (close q)) = (fst (close q), [])
  ∧ (∀ m, enqueue m (fst (close q)) = (fst (close q), []))
  ∧ (∀ r timeoutMs,
       dequeue r timeoutMs (fst (close q))
         = (fst (close q), [Reject r "Queue is closed"])).
Proof. by repeat split. Qed.

End Facts.

(** A consumer waits, its timer fires, then a message arrives: the
    message is buffered, the dropped consumer does not get it. *)
Lemma closed_queue_and_timed_out_waiter_witness :
  enqueue 7 (fst (close (new None))) = (fst (close (new None)), [])
  ∧ dequeue 0 None (fst (close (new (Message := nat) None)))
      = (fst (close (new None)), [Reject 0 "Queue is closed"])
  ∧ Resolve 0 7 ∉
      snd (run (fst (step (fst (run (initial None) [EvDequeue None]))
                          (EvTimerFires 0))) [EvEnqueue 7]).
Proof.
  destruct (closed_queue_and_timed_out_waiter (Message := nat)) as (H1 & H2 & H3).
  split; [apply H1; reflexivity|].
  split; [apply H2; reflexivity|].
  apply (H3 None [EvDequeue None] [EvEnqueue 7] 0). simpl. left.
Defined.

End MessageQueueFacts.

Module FormatConverterFacts.
Import FormatConverter ExampleHost.

(** *** ensureThoughtSignature *)

Lemma ensureParts_first_call_signed (ps pre : list Part) p' post :
  ensureParts false ps = pre ++ p' :: post →
  Forall (fun x => part_functionCall x = None) pre →
  is_Some (part_functionCall p') →
  truthyStr (part_thoughtSignature p') = true.
Proof.
  revert pre. induction ps as [|x xs IH]; intros pre Heq Hpre Hcall; simpl in Heq.
  - by destruct pre.
  - destruct (bool_decide (is_Some (part_functionCall x))) eqn:Ecall; simpl in Heq.
    + destruct (truthyStr (part_thoughtSignature x)) eqn:Esig; simpl in Heq.
      * destruct pre as [|y pre]; simplify_eq/=; [done|].
        apply Forall_cons in Hpre as [_ Hpre]. by eapply IH.
      * apply bool_decide_eq_true in Ecall.
        destruct pre as [|y pre]; simplify_eq/=; [done|].
        apply Forall_cons in Hpre as [Hy _]. simpl in Hy.
        rewrite Hy in Ecall. by destruct Ecall.
    + destruct pre as [|y pre]; simplify_eq/=.
      * by apply bool_decide_eq_false in Ecall.
      * apply Forall_cons in Hpre as [_ Hpre]. by eapply IH.
Qed.

(** C6, as the code has it: after [ensureThoughtSignature], in every
    entry of [contents] that has a [parts] array the first part with a
    [functionCall] carries a [thoughtSignature]. *)
Theorem ensureThoughtSignature_signs_first_call
    (body body' : GeminiBody) (cs' : list Content) (content' : Content)
    (pre : list Part) (p' : Part) (post : list Part) :
  ensureThoughtSignature (Some body) = Some body' →
  gb_contents body' = Some cs' →
  content' ∈ cs' →
  parts content' = Some (pre ++ p' :: post) →
  Forall (fun x => part_functionCall x = None) pre →
  is_Some (part_functionCall p') →
  truthyStr (part_thoughtSignature p') = true.
Proof.
  unfold ensureThoughtSignature. intros Hrun Hcs Hin Hparts Hpre Hcall.
  destruct (gb_contents body) as [cs|] eqn:E; simplify_eq/=.
  apply list_elem_of_fmap in Hin as (content & -> & _).
  unfold ensureContent in Hparts.
  destruct (parts content) as [ps|] eqn:Eps; simpl in Hparts.
  - injection Hparts as Hparts. by eapply ensureParts_first_call_signed.
  - congruence.
Qed.

(** The claim as the specification words it: every [functionCall] part
    of every entry is signed. *)
Definition every_call_signed (body : GeminiBody) : Prop :=
  ∀ cs content ps p,
    gb_contents body = Some cs → content ∈ cs →
    parts content = Some ps → p ∈ ps →
    is_Some (part_functionCall p) →
    truthyStr (part_thoughtSignature p) = true.

(** One model turn with two parallel calls and no signatures. *)
Definition twoCallsBody : GeminiBody :=
  {| gb_contents :=
       Some [{| parts := Some [callPart "get_weather"; callPart "get_time"];
                role := Some "model" |}];
     gb_rest := [] |}.

Lemma ensureThoughtSignature_two_calls :
  ensureThoughtSignature (Some twoCallsBody)
  = Some {| gb_contents :=
              Some [{| parts :=
                         Some [set_thoughtSignature DUMMY_THOUGHT_SIGNATURE
                                 (callPart "get_weather");
                               callPart "get_time"];
                       role := Some "model" |}];
            gb_rest := [] |}.
Proof. reflexivity. Qed.

(** C6, counterexample: the second call of a turn stays unsigned. *)
Lemma ensureThoughtSignature_second_call_unsigned :
  ∃ body', ensureThoughtSignature (Some twoCallsBody) = Some body'
           ∧ ¬ every_call_signed body'.
Proof.
  eexists. split; [reflexivity|]. intros Hall.
  specialize (Hall _ _ _ (callPart "get_time") eq_refl
                (list_elem_of_here _ _) eq_refl).
  assert (false = true) as Hf; [|discriminate Hf].
  apply Hall; [right; left | by eexists].
Qed.

Lemma ensureThoughtSignature_signs_first_call_witness :
  truthyStr (part_thoughtSignature
               (set_thoughtSignature DUMMY_THOUGHT_SIGNATURE (callPart "get_weather")))
  = true.
Proof.
  apply (ensureThoughtSignature_signs_first_call twoCallsBody _ _ _ []
           _ [callPart "get_time"] ensureThoughtSignature_two_calls eq_refl
           (list_elem_of_here _ _) eq_refl).
  - apply Forall_nil_2.
  - by eexists.
Defined.

(** *** translateOpenAIToGoogle: tool messages *)

Definition isTool (m : Message) : bool := String.eqb (msg_role m) "tool".

Section ToolRuns.
Context {host : Host} {imageHost : ImageHost}.

(** The entry a buffered run of tool messages is flushed as. *)
Definition toolEntry (run : list Message) : Content :=
  {| parts := Some (map functionResponsePart run); role := Some "user" |}.

Lemma flushToolParts_snd st : snd (flushToolParts st) = [].
Proof. by destruct st as [gc [|p ps]]. Qed.

Lemma flushToolParts_prefix gc x p :
  flushToolParts (gc ++ x, p)
  = (gc ++ fst (flushToolParts (x, p)), snd (flushToolParts (x, p))).
Proof. destruct p; simpl; [done|]. by rewrite app_assoc. Qed.

Lemma convertMessage_prefix gc x p m :
  convertMessage (gc ++ x, p) m
  = (gc ++ fst (convertMessage (x, p) m), snd (convertMessage (x, p) m)).
Proof.
  unfold convertMessage. destruct (String.eqb (msg_role m) "tool"); [done|].
  rewrite flushToolParts_prefix.
  destruct (flushToolParts (x, p)) as [gc' p']; simpl.
  destruct (messageParts m); simpl; [done|]. by rewrite app_assoc.
Qed.

Lemma loop_prefix msgs gc x p :
  fold_left convertMessage msgs (gc ++ x, p)
  = (gc ++ fst (fold_left convertMessage msgs (x, p)),
     snd (fold_left convertMessage msgs (x, p))).
Proof.
  revert x p. induction msgs as [|m msgs IH]; intros x p; simpl; [done|].
  rewrite convertMessage_prefix.
  destruct (convertMessage (x, p) m) as [x' p']; simpl. apply IH.
Qed.

(** Tool messages only grow the buffer. *)
Lemma loop_tools run gc p :
  Forall (fun m => isTool m = true) run →
  fold_left convertMessage run (gc, p) = (gc, p ++ map functionResponsePart run).
Proof.
  revert p. induction run as [|m run IH]; intros p Hall; simpl.
  - by rewrite app_nil_r.
  - apply Forall_cons in Hall as [Hm Hall]. unfold isTool in Hm.
    unfold convertMessage at 2. rewrite Hm. simpl.
    rewrite IH by done. by rewrite <- app_assoc.
Qed.

(** A message that is not a tool message leaves the buffer empty. *)
Lemma convertMessage_nontool_snd st m :
  isTool m = false → snd (convertMessage st m) = [].
Proof.
  unfold isTool, convertMessage. intros ->.
  pose proof (flushToolParts_snd st) as Hs.
  destruct (flushToolParts st) as [gc p]; simpl in *.
  by destruct (messageParts m).
Qed.

Lemma loop_ends_nontool before :
  (∀ m, last before = Some m → isTool m = false) →
  snd (fold_left convertMessage before ([], [])) = [].
Proof.
  destruct before as [|m0 before'] using rev_ind; [done|]. intros Hlast.
  rewrite fold_left_app. simpl. apply convertMessage_nontool_snd.
  apply Hlast. by rewrite last_snoc.
Qed.

(** A buffered run followed by a message that is not a tool message,
    or by the end of the conversation, becomes one entry. *)
Lemma loop_starts_nontool after gc p :
  p ≠ [] →
  (∀ m, head after = Some m → isTool m = false) →
  flushToolParts (fold_left convertMessage after (gc, p))
  = flushToolParts
      (fold_left convertMessage after
         (gc ++ [{| parts := Some p; role := Some "user" |}], [])).
Proof.
  intros Hp Hhead. destruct after as [|m after]; simpl.
  - by destruct p.
  - specialize (Hhead m eq_refl). unfold isTool in Hhead.
    unfold convertMessage at 2 4. rewrite Hhead.
    by destruct p.
Qed.

(** C1, as the code has it: among the messages that are not system
    messages, a maximal run of consecutive tool messages becomes
    exactly one entry of [contents], with role "user" and with the
    [functionResponse] parts of the run in order; the entries before it
    are those of the messages before the run, the entries after it
    those of the messages after the run. *)
Theorem tool_run_is_one_user_entry
    (openaiBody : OpenAIBody) (before run after : list Message) :
  conversationMessages openaiBody = before ++ run ++ after →
  run ≠ [] →
  Forall (fun m => isTool m = true) run →
  (∀ m, last before = Some m → isTool m = false) →
  (∀ m, head after = Some m → isTool m = false) →
  contents (translateOpenAIToGoogle openaiBody)
  = googleContents before ++ [toolEntry run] ++ googleContents after.
Proof.
  intros Hconv Hne Htools Hbefore Hafter.
  unfold translateOpenAIToGoogle, googleContents. simpl.
  rewrite Hconv, !fold_left_app.
  pose proof (loop_ends_nontool before Hbefore) as Hb.
  destruct (fold_left convertMessage before ([], [])) as [cb pb]; simpl in Hb.
  subst pb. rewrite (loop_tools run cb []) by done. simpl.
  rewrite loop_starts_nontool; [|by destruct run|done].
  rewrite (loop_prefix after cb _ []), flushToolParts_prefix. simpl.
  f_equal. fold (toolEntry run).
  pose proof (loop_prefix after [toolEntry run] [] []) as Hp.
  rewrite app_nil_r in Hp. rewrite Hp.
  destruct (fold_left convertMessage after ([], [])) as [ca pa]; simpl.
  by destruct pa.
Qed.

End ToolRuns.

(** The claim as the specification words it, on [messages] itself: each
    maximal run of consecutive tool messages has its own entry. *)
Definition message_runs_have_entries {host : Host} {imageHost : ImageHost}
    (openaiBody : OpenAIBody) : Prop :=
  ∀ before run after,
    messages openaiBody = before ++ run ++ after →
    run ≠ [] →
    Forall (fun m => isTool m = true) run →
    (∀ m, last before = Some m → isTool m = false) →
    (∀ m, head after = Some m → isTool m = false) →
    toolEntry run ∈ contents (translateOpenAIToGoogle openaiBody).

Definition toolMessage (name output : string) : Message :=
  {| msg_role := "tool"; msg_content := ContentString output;
     msg_name := Some name; msg_tool_calls := None |}.

Definition textMessage (r text : string) : Message :=
  {| msg_role := r; msg_content := ContentString text;
     msg_name := None; msg_tool_calls := None |}.

(** Two tool results with a system message between them. *)
Definition systemBetweenTools : OpenAIBody :=
  {| messages := [toolMessage "get_weather" "sunny";
                  textMessage "system" "Answer briefly.";
                  toolMessage "get_time" "noon"] |}.

(** C1, counterexample: the system message does not end the run; both
    tool results land in one entry and neither run has an entry of its
    own. *)
Lemma system_message_does_not_flush :
  contents (translateOpenAIToGoogle (host := ExampleHost.host)
              (imageHost := ExampleHost.imageHost) systemBetweenTools)
  = [toolEntry (host := ExampleHost.host)
       [toolMessage "get_weather" "sunny"; toolMessage "get_time" "noon"]]
  ∧ ¬ message_runs_have_entries (host := ExampleHost.host)
        (imageHost := ExampleHost.imageHost) systemBetweenTools.
Proof.
  split; [reflexivity|]. intros Hall.
  specialize (Hall [] [toolMessage "get_weather" "sunny"]
                [textMessage "system" "Answer briefly.";
                 toolMessage "get_time" "noon"] eq_refl).
  assert (toolEntry (host := ExampleHost.host) [toolMessage "get_weather" "sunny"]
          ∈ [toolEntry (host := ExampleHost.host)
               [toolMessage "get_weather" "sunny"; toolMessage "get_time" "noon"]])
    as Hin.
  { apply Hall.
    - discriminate.
    - by apply Forall_singleton.
    - intros m [=].
    - intros m [= <-]. reflexivity. }
  apply list_elem_of_singleton in Hin. discriminate Hin.
Qed.

(** A user turn, two tool results around a system message, a user turn. *)
Definition toolsThenUser : OpenAIBody :=
  {| messages := [textMessage "user" "Weather and time?";
                  toolMessage "get_weather" "sunny";
                  textMessage "system" "Answer briefly.";
                  toolMessage "get_time" "noon";
                  textMessage "user" "Thanks."] |}.

Lemma tool_run_is_one_user_entry_witness :
  contents (translateOpenAIToGoogle (host := ExampleHost.host)
              (imageHost := ExampleHost.imageHost) toolsThenUser)
  = googleContents (host := ExampleHost.host) (imageHost := ExampleHost.imageHost)
      [textMessage "user" "Weather and time?"]
    ++ [toolEntry (host := ExampleHost.host)
          [toolMessage "get_weather" "sunny"; toolMessage "get_time" "noon"]]
    ++ googleContents (host := ExampleHost.host) (imageHost := ExampleHost.imageHost)
         [textMessage "user" "Thanks."].
Proof.
  apply (tool_run_is_one_user_entry (host := ExampleHost.host)
           (imageHost := ExampleHost.imageHost) toolsThenUser).
  - reflexivity.
  - discriminate.
  - repeat constructor.
  - intros m [= <-]. reflexivity.
  - intros m [= <-]. reflexivity.
Defined.

End FormatConverterFacts.

Module ResponseConverterFacts.
Import ResponseConverter.

(** *** _parseUsage *)

Definition isImageDetail (d : option ModalityTokenCount) : bool :=
  match d with
  | Some d => bool_decide (mtc_modality d = Some "IMAGE")
  | None => false
  end.

Definition detailTokens (d : option ModalityTokenCount) : Z :=
  match d with
  | Some d => orZero (mtc_tokenCount d)
  | None => 0%Z
  end.

(** The token counts of the details whose modality is IMAGE, summed. *)
Definition imageTokenSum (details : list (option ModalityTokenCount)) : Z :=
  foldr Z.add 0%Z (map detailTokens (List.filter isImageDetail details)).

Lemma fold_addImageTokens details acc :
  fold_left addImageTokens details acc = (acc + imageTokenSum details)%Z.
Proof.
  revert acc. induction details as [|d details IH]; intros acc; simpl.
  - unfold imageTokenSum. simpl. lia.
  - rewrite IH. unfold imageTokenSum. simpl.
    destruct d as [d|]; simpl; [|done].
    destruct (bool_decide (mtc_modality d = Some "IMAGE")); simpl; lia.
Qed.

(** C7: for a response that carries [usageMetadata], with a missing
    count read as 0: [prompt_tokens] is [promptTokenCount] plus
    [toolUsePromptTokenCount] and [prompt_tokens_details] holds the two
    summands; [completion_tokens] is [candidatesTokenCount] plus
    [thoughtsTokenCount] and [completion_tokens_details] holds the two
    summands and the tokens of the IMAGE details. *)
Theorem parseUsage_token_accounting
    (googleResponse : GoogleResponse) (um : UsageMetadata) :
  usageMetadata googleResponse = Some um →
  let u := _parseUsage googleResponse in
  prompt_tokens u
    = (orZero (promptTokenCount um) + orZero (toolUsePromptTokenCount um))%Z
  ∧ completion_tokens u
    = (orZero (candidatesTokenCount um) + orZero (thoughtsTokenCount um))%Z
  ∧ prompt_tokens_details u
    = Some {| text_tokens := orZero (promptTokenCount um);
              tool_tokens := orZero (toolUsePromptTokenCount um) |}
  ∧ completion_tokens_details u
    = Some {| image_tokens := imageTokenSum (default [] (candidatesTokensDetails um));
              output_text_tokens := orZero (candidatesTokenCount um);
              reasoning_tokens := orZero (thoughtsTokenCount um) |}
  ∧ total_tokens u = orZero (totalTokenCount um).
Proof.
  intros Hum. unfold _parseUsage. rewrite Hum. simpl.
  repeat split. f_equal. f_equal.
  destruct (candidatesTokensDetails um) as [details|]; simpl; [|done].
  by rewrite fold_addImageTokens.
Qed.

(** A response with text, image and thinking tokens and one tool prompt. *)
Definition meteredResponse : GoogleResponse :=
  {| candidates := None; promptFeedback := None;
     usageMetadata :=
       Some {| promptTokenCount := Some 12%Z;
               toolUsePromptTokenCount := Some 3%Z;
               candidatesTokenCount := Some 40%Z;
               thoughtsTokenCount := Some 25%Z;
               totalTokenCount := Some 80%Z;
               candidatesTokensDetails :=
                 Some [Some {| mtc_modality := Some "TEXT"; mtc_tokenCount := Some 30%Z |};
                       None;
                       Some {| mtc_modality := Some "IMAGE"; mtc_tokenCount := Some 10%Z |}] |} |}.

Lemma parseUsage_token_accounting_witness :
  prompt_tokens (_parseUsage meteredResponse) = 15%Z
  ∧ completion_tokens (_parseUsage meteredResponse) = 65%Z
  ∧ prompt_tokens_details (_parseUsage meteredResponse)
    = Some {| text_tokens := 12; tool_tokens := 3 |}
  ∧ completion_tokens_details (_parseUsage meteredResponse)
    = Some {| image_tokens := 10; output_text_tokens := 40; reasoning_tokens := 25 |}
  ∧ total_tokens (_parseUsage meteredResponse) = 80%Z.
Proof.
  exact (parseUsage_token_accounting meteredResponse _ eq_refl).
Defined.

(** *** translateGoogleToOpenAIStream: tool-call indices *)

Section ToolCallIndex.
Context {host : Host} {wire : GeminiWire}.

(** The value [streamState.toolCallIndex ?? 0] reads. *)
Definition counter (streamState : StreamState) : nat :=
  default 0 (ss_toolCallIndex streamState).

(** The calls are numbered consecutively from [c]. *)
Definition numbered (c : nat) (calls : list ToolCallObj) : Prop :=
  map tco_index calls = seq c (length calls).

Lemma numbered_nil c : numbered c [].
Proof. reflexivity. Qed.

Lemma numbered_app c xs ys :
  numbered c xs → numbered (c + length xs) ys → numbered c (xs ++ ys).
Proof.
  unfold numbered. intros Hx Hy.
  by rewrite map_app, length_app, seq_app, Hx, Hy.
Qed.

Lemma partDelta_numbered streamState tick part :
  let calls :=
    default [] (fst (fst (partDelta streamState tick part)) ≫= delta_tool_calls) in
  numbered (counter streamState) calls
  ∧ counter (snd (fst (partDelta streamState tick part)))
    = counter streamState + length calls.
Proof.
  unfold partDelta, numbered, counter.
  destruct (bool_decide (part_thought part = Some true)).
  { destruct (truthyStr (part_text part)); simpl; split; first [done | lia]. }
  destruct (truthyStr (part_text part)); simpl; [split; first [done | lia]|].
  destruct (part_inlineData part); simpl; [split; first [done | lia]|].
  destruct (part_functionCall part); simpl; split; first [done | lia].
Qed.

Lemma convertPart_numbered modelName created streamId streamState tick chunks part :
  ∃ new,
    snd (convertPart modelName created streamId (streamState, tick, chunks) part)
      = chunks ++ new
    ∧ numbered (counter streamState) (flat_map lineToolCalls new)
    ∧ counter (fst (fst (convertPart modelName created streamId
                           (streamState, tick, chunks) part)))
      = counter streamState + length (flat_map lineToolCalls new).
Proof.
  pose proof (partDelta_numbered streamState tick part) as [Hn Hc].
  unfold convertPart.
  destruct (partDelta streamState tick part) as [[[delta|] st'] tick']; simpl in *.
  - eexists. split; [reflexivity|]. simpl. rewrite app_nil_r.
    destruct (ss_roleSent st'); simpl; rewrite app_nil_r;
      (split; [exact Hn | exact Hc]).
  - exists []. rewrite app_nil_r. split; [done|]. split; [apply numbered_nil|].
    simpl. simpl in Hc. lia.
Qed.

Lemma convertParts_numbered modelName created streamId ps streamState tick chunks :
  ∃ new,
    snd (fold_left (convertPart modelName created streamId) ps
           (streamState, tick, chunks)) = chunks ++ new
    ∧ numbered (counter streamState) (flat_map lineToolCalls new)
    ∧ counter (fst (fst (fold_left (convertPart modelName created streamId) ps
                           (streamState, tick, chunks))))
      = counter streamState + length (flat_map lineToolCalls new).
Proof.
  revert streamState tick chunks.
  induction ps as [|part ps IH]; intros streamState tick chunks; cbn [fold_left].
  - exists []. simpl. rewrite app_nil_r. split; [done|].
    split; [apply numbered_nil | lia].
  - destruct (convertPart_numbered modelName created streamId streamState tick
                chunks part) as (new1 & Hs1 & Hn1 & Hc1).
    destruct (convertPart modelName created streamId (streamState, tick, chunks) part)
      as [[st1 tick1] chunks1]; simpl in *. subst chunks1.
    destruct (IH st1 tick1 (chunks ++ new1)) as (new2 & Hs2 & Hn2 & Hc2).
    exists (new1 ++ new2). rewrite Hs2, Hc2, Hc1, app_assoc.
    split; [done|]. rewrite flat_map_app, length_app.
    split; [|lia]. apply numbered_app; [done|]. by rewrite <- Hc1.
Qed.

(** One call of the converter numbers the calls it emits from the
    counter it finds and leaves the counter advanced by their number. *)
Lemma translateGoogleToOpenAIStream_numbered googleChunk modelName streamState tick :
  let r := translateGoogleToOpenAIStream googleChunk modelName (Some streamState) tick in
  let calls := flat_map lineToolCalls (default [] (fst (fst r))) in
  numbered (counter streamState) calls
  ∧ counter (snd (fst r)) = counter streamState + length calls.
Proof.
  unfold translateGoogleToOpenAIStream. simpl.
  destruct (readChunk googleChunk) as [| | |googleResponse]; simpl;
    try (split; [apply numbered_nil | lia]).
  set (st1 := if truthyStr (ss_id streamState) then _ else _).
  assert (counter (fst st1) = counter streamState) as Hst1.
  { subst st1. by destruct (truthyStr (ss_id streamState)). }
  destruct st1 as [st1 tick1]; simpl in Hst1.
  set (st2 := match usageMetadata googleResponse with Some _ => _ | None => _ end).
  assert (counter st2 = counter streamState) as Hst2.
  { subst st2. by destruct (usageMetadata googleResponse). }
  clearbody st2.
  destruct (firstCandidate googleResponse) as [candidate|]; simpl.
  2:{ destruct (promptFeedback googleResponse); simpl;
        (split; [apply numbered_nil | lia]). }
  assert (∃ new st3 tick3,
    match candidateParts candidate with
    | Some ps =>
        fold_left (convertPart modelName (ss_created st1) (ss_id st1)) ps (st2, tick1, [])
    | None => (st2, tick1, [])
    end = (st3, tick3, new)
    ∧ numbered (counter streamState) (flat_map lineToolCalls new)
    ∧ counter st3 = counter streamState + length (flat_map lineToolCalls new))
    as (new & st3 & tick3 & -> & Hn & Hc).
  { destruct (candidateParts candidate) as [ps|].
    - destruct (convertParts_numbered modelName (ss_created st1) (ss_id st1) ps
                  st2 tick1 []) as (new & Hs & Hn & Hc).
      destruct (fold_left _ ps _) as [[st3 tick3] chunks3]; simpl in *. subst.
      exists new, st3, tick3. rewrite <- Hst2. done.
    - exists [], st2, tick1. split; [done|]. split; [apply numbered_nil|].
      simpl. lia. }
  simpl.
  assert (∀ l, default [] (joinLines l) = l) as Hjoin by (by intros []).
  rewrite Hjoin.
  destruct (truthyStr (cand_finishReason candidate)); [|by split].
  rewrite flat_map_app. simpl. rewrite app_nil_r. by split.
Qed.

Lemma translateStream_numbered googleChunks modelName streamState tick :
  let r := translateStream googleChunks modelName streamState tick in
  numbered (counter streamState) (emittedToolCalls (fst (fst r)))
  ∧ counter (snd (fst r))
    = counter streamState + length (emittedToolCalls (fst (fst r))).
Proof.
  revert streamState tick.
  induction googleChunks as [|googleChunk rest IH]; intros streamState tick; simpl.
  - split; [apply numbered_nil | lia].
  - pose proof (translateGoogleToOpenAIStream_numbered googleChunk modelName
                  streamState tick) as [Hn1 Hc1].
    destruct (translateGoogleToOpenAIStream googleChunk modelName (Some streamState) tick)
      as [[out st1] tick1]; simpl in *.
    specialize (IH st1 tick1) as [Hn2 Hc2].
    destruct (translateStream rest modelName st1 tick1) as [[outs st2] tick2];
      simpl in *.
    unfold emittedToolCalls in *. simpl. rewrite length_app.
    split; [|lia]. apply numbered_app; [done|]. by rewrite <- Hc1.
Qed.

(** C2: over one stream converted with one shared state object whose
    [toolCallIndex] is not yet set, the [k]-th [tool_calls] entry
    emitted (counting from 0) has [index] [k]: the indices run 0, 1,
    2, ... without gaps and each is the number of calls emitted before
    it. *)
Theorem tool_call_index_counts_prior_calls
    (googleChunks : list (option string)) (modelName : string)
    (streamState : StreamState) (tick : nat) (k : nat) (call : ToolCallObj) :
  ss_toolCallIndex streamState = None →
  emittedToolCalls (fst (fst (translateStream googleChunks modelName streamState tick)))
    !! k = Some call →
  tco_index call = k.
Proof.
  intros Hfresh Hk.
  pose proof (translateStream_numbered googleChunks modelName streamState tick)
    as [Hn _].
  unfold numbered, counter in Hn. rewrite Hfresh in Hn. simpl in Hn.
  assert (map tco_index
            (emittedToolCalls
               (fst (fst (translateStream googleChunks modelName streamState tick))))
          !! k = Some (tco_index call)) as Hm.
  { change (map tco_index ?l) with (tco_index <$> l).
    by rewrite list_lookup_fmap, Hk. }
  rewrite Hn in Hm. apply lookup_seq in Hm as [Hm _]. simpl in Hm. done.
Qed.

End ToolCallIndex.

(** Two chunks of one response: two parallel calls, then a third call
    with the finish reason. *)
Lemma tool_call_index_counts_prior_calls_witness :
  ∃ call,
    emittedToolCalls
      (fst (fst (translateStream (host := ExampleHost.host) (wire := ExampleHost.wire)
                   [Some "<two calls>"; Some "data: <one call, stop>"]
                   "gemini-2.5-flash-lite" emptyStreamState 0)))
      !! 2 = Some call
    ∧ tcfo_name (tco_function call) = Some "get_news"
    ∧ tco_index call = 2.
Proof.
  eexists. split; [vm_compute; reflexivity|]. split; [reflexivity|].
  apply (tool_call_index_counts_prior_calls (host := ExampleHost.host)
           (wire := ExampleHost.wire)
           [Some "<two calls>"; Some "data: <one call, stop>"]
           "gemini-2.5-flash-lite" emptyStreamState 0 2).
  - reflexivity.
  - vm_compute. reflexivity.
Defined.

(** *** No candidate in the response *)

Section NoCandidate.
Context {host : Host} {wire : GeminiWire}.

(** C10: when the response has no candidate ([candidates] missing or
    empty), whatever [promptFeedback] holds, the non-stream converter
    returns a completion with the single choice
    with finish reason "stop", index 0 and an assistant message of empty
    content, and a usage of three zeros; the stream converter,
    given such a response with a [promptFeedback], returns one chunk
    whose content is the safety-block error text and whose
    [finish_reason] is "stop". *)
Theorem no_candidate_nonstream_and_stream
    (googleResponse : GoogleResponse) (modelName : string) (tick : nat) :
  candidates googleResponse = None ∨ candidates googleResponse = Some [] →
  (let completion :=
     fst (convertGoogleToOpenAINonStream googleResponse modelName tick) in
   choices completion
     = [{| ch_finish_reason := "stop"; ch_index := 0;
           ch_message :=
             {| cm_content := EmptyString; cm_role := "assistant";
                cm_reasoning_content := None; cm_tool_calls := None |} |}]
   ∧ prompt_tokens (usage completion) = 0%Z
   ∧ completion_tokens (usage completion) = 0%Z
   ∧ total_tokens (usage completion) = 0%Z
   ∧ model completion = modelName
   ∧ object completion = "chat.completion")
  ∧ (∀ googleChunk streamState feedback,
       readChunk googleChunk = ResponseChunk googleResponse →
       promptFeedback googleResponse = Some feedback →
       ∃ chunk,
         fst (fst (translateGoogleToOpenAIStream googleChunk modelName
                     streamState tick)) = Some [SseData chunk]
         ∧ chunk_choices chunk
           = [{| cc_delta :=
                   {| delta_content :=
                        Some ("[ProxySystem Error] Request blocked due to safety settings. Finish Reason: "
                                +:+ default "undefined" (blockReason feedback));
                      delta_reasoning_content := None;
                      delta_tool_calls := None; delta_role := None |};
                 cc_finish_reason := Some "stop"; cc_index := 0 |}]).
Proof.
  intros Hnone.
  assert (firstCandidate googleResponse = None) as Hfirst.
  { unfold firstCandidate. by destruct Hnone as [-> | ->]. }
  split.
  - unfold convertGoogleToOpenAINonStream. rewrite Hfirst. simpl. done.
  - intros googleChunk streamState feedback Hread Hfeedback.
    unfold translateGoogleToOpenAIStream. rewrite Hread.
    destruct (truthyStr (ss_id (default emptyStreamState streamState)));
      rewrite Hfirst, Hfeedback; eexists; split; reflexivity.
Qed.

End NoCandidate.

Lemma no_candidate_nonstream_and_stream_witness :
  choices (fst (convertGoogleToOpenAINonStream (host := ExampleHost.host)
                  ExampleHost.blockedResponse "gemini-2.5-flash-lite" 0))
  = [{| ch_finish_reason := "stop"; ch_index := 0;
        ch_message :=
          {| cm_content := EmptyString; cm_role := "assistant";
             cm_reasoning_content := None; cm_tool_calls := None |} |}]
  ∧ ∃ chunk,
      fst (fst (translateGoogleToOpenAIStream (host := ExampleHost.host)
                  (wire := ExampleHost.wire) (Some "data: <blocked>")
                  "gemini-2.5-flash-lite" None 0)) = Some [SseData chunk]
      ∧ chunk_choices chunk
        = [{| cc_delta :=
                {| delta_content :=
                     Some "[ProxySystem Error] Request blocked due to safety settings. Finish Reason: SAFETY";
                   delta_reasoning_content := None;
                   delta_tool_calls := None; delta_role := None |};
              cc_finish_reason := Some "stop"; cc_index := 0 |}].
Proof.
  destruct (no_candidate_nonstream_and_stream (host := ExampleHost.host)
              (wire := ExampleHost.wire) ExampleHost.blockedResponse
              "gemini-2.5-flash-lite" 0 (or_introl eq_refl)) as [Hnon Hstream].
  split; [apply Hnon|].
  apply (Hstream (Some "data: <blocked>") None {| blockReason := Some "SAFETY" |});
    reflexivity.
Defined.

End ResponseConverterFacts.

Module ClientFacts.
Import Client.

(** *** _sanitizeHeaders *)

Lemma foldl_delete_lookup (l : list string) (m : gmap string string) (k : string) :
  foldl (fun sanitized h => delete h sanitized) m l !! k
  = if bool_decide (k ∈ l) then None else m !! k.
Proof.
  revert m. induction l as [|h l IH]; intros m; cbn [foldl].
  - case_bool_decide as Hin; [by apply not_elem_of_nil in Hin | done].
  - rewrite IH. case_bool_decide as Hl; case_bool_decide as Hhl; try done.
    + exfalso. apply Hhl. by right.
    + apply elem_of_cons in Hhl as [->|Hin]; [apply lookup_delete_eq | done].
    + apply not_elem_of_cons in Hhl as [Hne _]. by apply lookup_delete_ne.
Qed.

(** C5, as the code has it: the sanitized headers lack exactly the nine
    names of [forbiddenHeaders] (of the [sec-fetch-] family: mode, site
    and dest) and agree with the given headers on every other name. *)
Theorem sanitizeHeaders_removes_forbidden
    (headers : option (gmap string string)) (k : string) :
  _sanitizeHeaders headers !! k
  = if bool_decide (k ∈ forbiddenHeaders) then None
    else default ∅ headers !! k.
Proof. unfold _sanitizeHeaders. apply foldl_delete_lookup. Qed.

(** The names the specification says are removed. *)
Definition specForbidden (k : string) : bool :=
  bool_decide (k ∈ ["host"; "connection"; "content-length"; "origin";
                    "referer"; "user-agent"])
  || String.prefix "sec-fetch-" k.

Definition navigationHeaders : gmap string string :=
  {[ "sec-fetch-user" := "?1"; "accept" := "application/json" ]}.

(** C5, counterexample: [sec-fetch-user] matches [sec-fetch-*] and
    passes through. *)
Lemma sanitizeHeaders_keeps_sec_fetch_user :
  specForbidden "sec-fetch-user" = true
  ∧ _sanitizeHeaders (Some navigationHeaders) !! "sec-fetch-user" = Some "?1"
  ∧ ¬ (∀ k, specForbidden k = true →
            _sanitizeHeaders (Some navigationHeaders) !! k = None).
Proof.
  assert (_sanitizeHeaders (Some navigationHeaders) !! "sec-fetch-user" = Some "?1")
    as Hkept by (vm_compute; reflexivity).
  split; [reflexivity|]. split; [exact Hkept|].
  intros Hall. specialize (Hall "sec-fetch-user" eq_refl).
  rewrite Hkept in Hall. discriminate Hall.
Qed.

(** *** responseModalities *)

Section Modalities.
Context {host : Host}.
Hypothesis toUpperCase_idempotent :
  ∀ s, toUpperCase (toUpperCase s) = toUpperCase s.

Lemma upperCaseModality_idempotent m :
  upperCaseModality (upperCaseModality m) = upperCaseModality m.
Proof using toUpperCase_idempotent.
  destruct m; simpl; try done. by rewrite toUpperCase_idempotent.
Qed.

(** C8: for an upper-casing that is idempotent on strings, the
    normalization of [generationConfig.responseModalities] applied
    twice gives what it gives applied once, on every value. *)
Theorem upperCaseResponseModalities_idempotent (responseModalities : option JValue) :
  upperCaseResponseModalities (upperCaseResponseModalities responseModalities)
  = upperCaseResponseModalities responseModalities.
Proof using toUpperCase_idempotent.
  destruct responseModalities as [[| b | n | s | ms | fields]|]; try done.
  - assert (upperCaseResponseModalities (Some (JBool b)) = Some (JBool b)) as Hid
      by (by destruct b).
    by rewrite !Hid.
  - assert (upperCaseResponseModalities (Some (JNum n)) = Some (JNum n)) as Hid.
    { unfold upperCaseResponseModalities. simpl. by destruct (n =? 0)%Z. }
    by rewrite !Hid.
  - destruct (String.eqb s EmptyString) eqn:E.
    + assert (upperCaseResponseModalities (Some (JStr s)) = Some (JStr s)) as Hid.
      { unfold upperCaseResponseModalities. simpl. by rewrite E. }
      by rewrite !Hid.
    + assert (upperCaseResponseModalities (Some (JStr s))
              = Some (JArr [JStr (toUpperCase s)])) as Hwrap.
      { unfold upperCaseResponseModalities. simpl. by rewrite E. }
      rewrite Hwrap. unfold upperCaseResponseModalities. simpl.
      by rewrite toUpperCase_idempotent.
  - unfold upperCaseResponseModalities. simpl. do 2 f_equal.
    rewrite map_map. apply map_ext. intros m.
    apply upperCaseModality_idempotent.
Qed.

End Modalities.

Lemma upperAscii_idempotent c :
  ExampleHost.upperAscii (ExampleHost.upperAscii c) = ExampleHost.upperAscii c.
Proof. by destruct c as [[] [] [] [] [] [] [] []]. Qed.

Lemma mapString_upperAscii_idempotent s :
  ExampleHost.mapString ExampleHost.upperAscii
    (ExampleHost.mapString ExampleHost.upperAscii s)
  = ExampleHost.mapString ExampleHost.upperAscii s.
Proof.
  induction s as [|c s IH]; simpl; [done|].
  by rewrite upperAscii_idempotent, IH.
Qed.

Lemma upperCaseResponseModalities_idempotent_witness :
  upperCaseResponseModalities (host := ExampleHost.host)
    (upperCaseResponseModalities (host := ExampleHost.host) (Some (JStr "image")))
  = Some (JArr [JStr "IMAGE"]).
Proof.
  rewrite (upperCaseResponseModalities_idempotent (host := ExampleHost.host)
             mapString_upperAscii_idempotent (Some (JStr "image"))).
  reflexivity.
Defined.

(** *** Fake streaming *)







(** The decoded chunks of a body, concatenated. *)
Definition wholeBody (reads : list string) : string :=
  foldr String.append EmptyString reads.

Lemma append_cons x (a b : string) : String x a +:+ b = String x (a +:+ b).
Proof. reflexivity. Qed.

Lemma append_assoc (a b c : string) : (a +:+ b) +:+ c = a +:+ (b +:+ c).
Proof. induction a as [|x a IH]; [done|]. by rewrite !append_cons, IH. Qed.

Lemma append_empty_r (a : string) : a +:+ EmptyString = a.
Proof. induction a as [|x a IH]; [done|]. by rewrite append_cons, IH. Qed.

Section FakeStreaming.
Context {host : Host} {urlHost : UrlHost}.

(** Outside "real" mode the loop sends nothing and accumulates. *)
Lemma readBody_accumulates mode operationId reads fullBody :
  String.eqb mode "real" = false →
  readBody mode operationId reads fullBody = ([], fullBody +:+ wholeBody reads).
Proof.
  intros Hmode. revert fullBody.
  induction reads as [|chunk rest IH]; intros fullBody; simpl.
  - by rewrite append_empty_r.
  - rewrite Hmode, IH. by rewrite append_assoc.
Qed.


End FakeStreaming.






End ClientFacts.

(* ===================================================================== *)
(** * Part III: further properties of the modelled code                   *)
(* ===================================================================== *)

Module MessageQueueOrder.
Import MessageQueue.
Local Open Scope nat_scope.
Section Order.
Context {Message : Type}.
Implicit Types (q : t Message) (s : System Message).

Lemma run_app s (evs1 evs2 : list (Event Message)) :
  run s (evs1 ++ evs2)
  = (fst (run (fst (run s evs1)) evs2),
     snd (run s evs1) ++ snd (run (fst (run s evs1)) evs2)).
Proof.
  revert s. induction evs1 as [|ev evs1 IH]; intros s; simpl.
  - by destruct (run s evs2).
  - destruct (step s ev) as [s1 effs1]. rewrite IH.
    destruct (run s1 evs1) as [s2 effs2]; simpl.
    by rewrite app_assoc.
Qed.

Lemma run_preserves (P : System Message → Prop) :
  (∀ s ev, P s → P (fst (step s ev))) →
  ∀ s evs, P s → P (fst (run s evs)).
Proof.
  intros Hstep s evs. revert s.
  induction evs as [|ev evs IH]; intros s HP; simpl; [done|].
  specialize (Hstep s ev HP). destruct (step s ev) as [s1 effs1]; simpl in *.
  specialize (IH s1 Hstep). by destruct (run s1 evs).
Qed.

(** Never a waiter and a buffered message at once; a closed queue holds
    neither. *)
Definition balanced q : Prop :=
  (waitingResolvers q = [] ∨ messages q = [])
  ∧ (closed q = true → waitingResolvers q = [] ∧ messages q = []).

Lemma step_balanced s ev : balanced (queue s) → balanced (queue (fst (step s ev))).
Proof.
  destruct s as [q n]. intros Hb. pose proof Hb as [Hor Hclosed]. simpl in *.
  destruct ev as [m|timeoutMs|r|]; simpl.
  - unfold enqueue. destruct (closed q) eqn:Ec; simpl; [exact Hb|].
    destruct (waitingResolvers q) as [|w rest] eqn:Ew; simpl.
    + split; simpl; [by left | done].
    + destruct Hor as [Hor|Hor]; [done|].
      split; simpl; [by right | done].
  - unfold dequeue. destruct (closed q) eqn:Ec; simpl; [exact Hb|].
    destruct (messages q) as [|m rest] eqn:Em; simpl.
    + split; simpl; [by right | done].
    + destruct Hor as [Hor|Hor]; [|done].
      split; simpl; [by left | done].
  - unfold onTimeout. destruct (indexOf r (waitingResolvers q)) as [i|]; simpl;
      [|exact Hb].
    split; simpl.
    + destruct Hor as [->|Hor]; [left; by destruct i | by right].
    + intros Hc. destruct (Hclosed Hc) as [-> ->]. split; [by destruct i | done].
  - split; simpl; [by left | done].
Qed.

(** X1: in every state the queue reaches from its construction, whatever
    the sequence of enqueues, dequeues, timer callbacks and closes, there
    are never a waiting resolver and a buffered message at the same
    time, and a closed queue has neither. *)
Theorem waiters_and_messages_exclude
    (timeoutMs : option Z) (evs : list (Event Message)) :
  let q := queue (fst (run (initial timeoutMs) evs)) in
  (waitingResolvers q = [] ∨ messages q = [])
  ∧ (closed q = true → waitingResolvers q = [] ∧ messages q = []).
Proof.
  apply (run_preserves (fun s => balanced (queue s))).
  - apply step_balanced.
  - split; simpl; [by left | done].
Qed.

Definition withQueue (q : t Message) (n : nat) : System Message :=
  {| queue := q; nextResolver := n |}.

Definition setMessages (ms : list Message) q : t Message :=
  {| messages := ms; waitingResolvers := waitingResolvers q;
     defaultTimeout := defaultTimeout q; closed := closed q |}.

Definition setWaiters (ws : list nat) q : t Message :=
  {| messages := messages q; waitingResolvers := ws;
     defaultTimeout := defaultTimeout q; closed := closed q |}.

Lemma run_enqueues_buffer q n (ms : list Message) :
  closed q = false → waitingResolvers q = [] →
  run (withQueue q n) (map EvEnqueue ms)
  = (withQueue (setMessages (messages q ++ ms) q) n, []).
Proof.
  destruct q as [qm qw dt c]. unfold withQueue, setMessages. simpl.
  intros -> ->. revert qm.
  induction ms as [|m ms IH]; intros qm; simpl.
  - by rewrite app_nil_r.
  - rewrite IH. by rewrite <- app_assoc.
Qed.

Lemma run_dequeues_drain q n timeoutMs :
  closed q = false →
  run (withQueue q n) (replicate (length (messages q)) (EvDequeue timeoutMs))
  = (withQueue (setMessages [] q) (n + length (messages q)),
     imap (fun i m => Resolve (n + i) m) (messages q)).
Proof.
  destruct q as [ms ws dt c]. simpl. intros ->. revert n.
  induction ms as [|m ms IH]; intros n; simpl.
  - unfold withQueue, setMessages. simpl. by rewrite Nat.add_0_r.
  - unfold withQueue, setMessages in *. simpl in *. rewrite (IH (S n)). simpl.
    rewrite Nat.add_0_r. f_equal; [f_equal; lia|]. f_equal.
    apply imap_ext. intros i x _. simpl. f_equal. lia.
Qed.

(** X2: on an open queue with no waiter, messages come out in the order
    they went in: after enqueuing [ms], as many dequeues as there are
    buffered messages resolve, one after the other, with the messages
    buffered before and then [ms], in order, and empty the buffer. *)
Theorem buffered_messages_are_fifo
    (q : t Message) (n : nat) (ms : list Message) (timeoutMs : option Z) :
  closed q = false →
  waitingResolvers q = [] →
  run (withQueue q n)
      (map EvEnqueue ms
       ++ replicate (length (messages q ++ ms)) (EvDequeue timeoutMs))
  = (withQueue (setMessages [] q) (n + length (messages q ++ ms)),
     imap (fun i m => Resolve (n + i) m) (messages q ++ ms)).
Proof.
  intros Hc Hw. rewrite run_app, run_enqueues_buffer by done. simpl.
  pose proof (run_dequeues_drain (setMessages (messages q ++ ms) q) n timeoutMs Hc)
    as Hd. simpl in Hd. rewrite Hd. by destruct q.
Qed.

(** X3: waiting consumers are served in the order they arrived: on an
    open queue, enqueuing no more messages than there are waiters gives
    the i-th message to the i-th waiter, after clearing its timer, and
    leaves the remaining waiters waiting. *)
Theorem waiters_are_served_in_order
    (q : t Message) (n : nat) (ms : list Message) :
  closed q = false →
  length ms ≤ length (waitingResolvers q) →
  run (withQueue q n) (map EvEnqueue ms)
  = (withQueue (setWaiters (drop (length ms) (waitingResolvers q)) q) n,
     flat_map (fun wm => [ClearTimeout (fst wm); Resolve (fst wm) (snd wm)])
              (zip (waitingResolvers q) ms)).
Proof.
  destruct q as [qm qw dt c]. unfold withQueue, setWaiters. simpl.
  intros ->. revert qw.
  induction ms as [|m ms IH]; intros qw Hlen; simpl.
  - by destruct qw.
  - destruct qw as [|w ws]; simpl in *; [lia|].
    rewrite IH by lia. done.
Qed.

End Order.

Lemma buffered_messages_are_fifo_witness :
  snd (run (initial None)
         [EvEnqueue 10; EvEnqueue 20; EvDequeue None; EvDequeue None])
  = [Resolve 0 10; Resolve 1 20].
Proof.
  exact (f_equal snd
           (buffered_messages_are_fifo (new None) 0 [10; 20] None eq_refl eq_refl)).
Defined.

Lemma waiters_are_served_in_order_witness :
  snd (run (withQueue (setWaiters [4; 7] (new None)) 8)
         [EvEnqueue 10; EvEnqueue 20])
  = [ClearTimeout 4; Resolve 4 10; ClearTimeout 7; Resolve 7 20].
Proof.
  refine (f_equal snd
            (waiters_are_served_in_order (setWaiters [4; 7] (new None)) 8
               [10; 20] eq_refl _)).
  simpl. lia.
Defined.

(** *** Promises are settled once, messages are not lost *)

Section Settlement.
Context {Message : Type}.
Implicit Types (q : t Message) (s : System Message).

(** [eff] resolves or rejects the promise of resolver [r]. *)
Definition settles (r : nat) (eff : Effect Message) : bool :=
  match eff with
  | Resolve r' _ | Reject r' _ => bool_decide (r' = r)
  | SetTimeout _ _ | ClearTimeout _ => false
  end.

Definition settlements (r : nat) (effs : list (Effect Message)) : nat :=
  length (List.filter (settles r) effs).

Lemma settlements_app r effs1 effs2 :
  settlements r (effs1 ++ effs2) = settlements r effs1 + settlements r effs2.
Proof. unfold settlements. by rewrite List.filter_app, length_app. Qed.

Lemma settlements_close r (ws : list nat) :
  NoDup ws →
  settlements r (flat_map (fun w => [ClearTimeout w; Reject w "Queue closed"]) ws)
  = if bool_decide (r ∈ ws) then 1 else 0.
Proof.
  induction ws as [|w ws IH]; intros Hnd; [done|].
  apply NoDup_cons in Hnd as [Hw Hnd]. specialize (IH Hnd).
  change (flat_map ?f (w :: ws)) with (f w ++ flat_map f ws).
  rewrite settlements_app, IH. unfold settlements. simpl.
  destruct (decide (w = r)) as [->|Hne].
  - rewrite (bool_decide_eq_true_2 (r = r)) by done.
    rewrite (bool_decide_eq_false_2 (r ∈ ws)) by done.
    by rewrite (bool_decide_eq_true_2 (r ∈ r :: ws)) by left.
  - rewrite (bool_decide_eq_false_2 (w = r)) by done. simpl.
    destruct (decide (r ∈ ws)) as [Hin|Hnin].
    + rewrite (bool_decide_eq_true_2 (r ∈ ws)) by done.
      by rewrite (bool_decide_eq_true_2 (r ∈ w :: ws)) by by right.
    + rewrite (bool_decide_eq_false_2 (r ∈ ws)) by done.
      rewrite (bool_decide_eq_false_2 (r ∈ w :: ws)); [done|].
      rewrite not_elem_of_cons. split; [congruence | done].
Qed.

(** What has happened so far agrees with the waiting list [ws] and the
    allocator [n]: no waiting or unallocated resolver has been settled,
    and nobody twice. *)
Definition accounted (ws : list nat) (n : nat) (tr : list (Effect Message)) : Prop :=
  (∀ r, r ∈ ws → settlements r tr = 0)
  ∧ (∀ r, n ≤ r → settlements r tr = 0)
  ∧ (∀ r, settlements r tr ≤ 1).

Lemma accounted_settle ws n tr x effs ws' n' :
  accounted ws n tr →
  settlements x tr = 0 →
  (∀ r, settlements r effs = if bool_decide (x = r) then 1 else 0) →
  (∀ r, r ∈ ws' → r ∈ ws ∧ r ≠ x) →
  n ≤ n' → x < n' →
  accounted ws' n' (tr ++ effs).
Proof.
  intros (Hwait & Hfresh & Honce) Hx Heffs Hws Hn Hxn.
  split; [|split]; intros r; rewrite settlements_app, Heffs.
  - intros [Hr Hne]%Hws. rewrite Hwait by done.
    by rewrite bool_decide_eq_false_2.
  - intros Hr. rewrite Hfresh by lia. rewrite bool_decide_eq_false_2; [done | lia].
  - case_bool_decide; [subst; lia|]. specialize (Honce r). lia.
Qed.

Lemma accounted_quiet ws n tr effs ws' n' :
  accounted ws n tr →
  (∀ r, settlements r effs = 0) →
  (∀ r, r ∈ ws' → r ∈ ws ∨ n ≤ r) →
  n ≤ n' →
  accounted ws' n' (tr ++ effs).
Proof.
  intros (Hwait & Hfresh & Honce) Heffs Hws Hn.
  split; [|split]; intros r; rewrite settlements_app, Heffs, Nat.add_0_r.
  - intros [Hr|Hr]%Hws; [by apply Hwait | by apply Hfresh].
  - intros Hr. apply Hfresh. lia.
  - apply Honce.
Qed.

Lemma step_accounted s tr ev :
  MessageQueueFacts.wf s →
  accounted (waitingResolvers (queue s)) (nextResolver s) tr →
  accounted (waitingResolvers (queue (fst (step s ev))))
            (nextResolver (fst (step s ev))) (tr ++ snd (step s ev)).
Proof.
  intros [Hnd Hall] Hacc. rewrite Forall_forall in Hall.
  pose proof Hacc as (Hwait & Hfresh & Honce).
  destruct s as [q n]. simpl in *.
  destruct ev as [m|timeoutMs|r'|]; simpl.
  - unfold enqueue. destruct (closed q); simpl.
    { eapply accounted_quiet; eauto. }
    destruct (waitingResolvers q) as [|w rest] eqn:Ew; simpl.
    { eapply accounted_quiet; eauto. }
    apply NoDup_cons in Hnd as [Hw Hnd].
    eapply (accounted_settle _ _ _ w); eauto.
    + apply Hwait. left.
    + intros r. unfold settlements. simpl. by case_bool_decide.
    + intros r Hr. split; [by right | by intros ->].
    + apply Hall. left.
  - unfold dequeue. destruct (closed q); simpl.
    { eapply (accounted_settle _ _ _ n); eauto.
      - intros r. unfold settlements. simpl. by case_bool_decide.
      - intros r Hr. split; [done|]. specialize (Hall r Hr). lia. }
    destruct (messages q) as [|m rest]; simpl.
    + eapply accounted_quiet; eauto.
      intros r [Hr|Hr]%elem_of_app; [by left|].
      apply list_elem_of_singleton in Hr. right. lia.
    + eapply (accounted_settle _ _ _ n); eauto.
      * intros r. unfold settlements. simpl. by case_bool_decide.
      * intros r Hr. split; [done|]. specialize (Hall r Hr). lia.
  - unfold onTimeout.
    destruct (indexOf r' (waitingResolvers q)) as [i|] eqn:Ei; simpl.
    + pose proof (MessageQueueFacts.indexOf_Some _ _ _ Ei) as [Hlook _].
      apply list_elem_of_lookup_2 in Hlook.
      eapply (accounted_settle _ _ _ r'); eauto.
      * intros r. unfold settlements. simpl. by case_bool_decide.
      * intros r Hr. split; [by eapply MessageQueueFacts.delete_sublist|].
        intros ->. by eapply MessageQueueFacts.delete_indexOf_NoDup.
    + eapply accounted_quiet; eauto.
  - split; [|split]; intros r; rewrite settlements_app, settlements_close by done.
    + intros Hr. by apply not_elem_of_nil in Hr.
    + intros Hr. rewrite Hfresh by done. rewrite bool_decide_eq_false_2; [done|].
      intros Hin. specialize (Hall r Hin). lia.
    + case_bool_decide as Hr; [rewrite Hwait by done; lia|].
      specialize (Honce r). lia.
Qed.

Lemma run_accounted s tr evs :
  MessageQueueFacts.wf s →
  accounted (waitingResolvers (queue s)) (nextResolver s) tr →
  accounted (waitingResolvers (queue (fst (run s evs))))
            (nextResolver (fst (run s evs))) (tr ++ snd (run s evs)).
Proof.
  revert s tr. induction evs as [|ev evs IH]; intros s tr Hwf Hacc; simpl.
  - by rewrite app_nil_r.
  - pose proof (step_accounted s tr ev Hwf Hacc) as Hacc1.
    pose proof (MessageQueueFacts.step_wf s ev Hwf) as Hwf1.
    destruct (step s ev) as [s1 effs1]; simpl in *.
    specialize (IH s1 (tr ++ effs1) Hwf1 Hacc1).
    destruct (run s1 evs) as [s2 effs2]; simpl in *.
    by rewrite app_assoc.
Qed.

(** X4: whatever the sequence of enqueues, dequeues, timer callbacks and
    closes on a queue, the promise of each [dequeue] call is resolved or
    rejected at most once: it never gets two messages, nor a message
    and an error. *)
Theorem dequeue_promise_settled_at_most_once
    (timeoutMs : option Z) (evs : list (Event Message)) (r : nat) :
  settlements r (snd (run (initial timeoutMs) evs)) ≤ 1.
Proof.
  pose proof (run_accounted (initial timeoutMs) [] evs
                (MessageQueueFacts.wf_initial timeoutMs)) as Hacc.
  simpl in Hacc. apply Hacc.
  split; [|split]; intros; unfold settlements; simpl; (done || lia).
Qed.

Definition isResolve (eff : Effect Message) : bool :=
  match eff with
  | Resolve _ _ => true
  | _ => false
  end.

Definition isEnqueue (ev : Event Message) : bool :=
  match ev with
  | EvEnqueue _ => true
  | _ => false
  end.

Definition isClose (ev : Event Message) : bool :=
  match ev with
  | EvClose => true
  | _ => false
  end.

Lemma run_open_conserves s evs :
  closed (queue s) = false →
  forallb (fun ev => negb (isClose ev)) evs = true →
  closed (queue (fst (run s evs))) = false
  ∧ length (List.filter isResolve (snd (run s evs)))
    + length (messages (queue (fst (run s evs))))
    = length (messages (queue s)) + length (List.filter isEnqueue evs).
Proof.
  revert s. induction evs as [|ev evs IH]; intros s Hopen Hno; simpl in *.
  - split; [done | lia].
  - apply andb_true_iff in Hno as [Hev Hno].
    assert (closed (queue (fst (step s ev))) = false
            ∧ length (List.filter isResolve (snd (step s ev)))
              + length (messages (queue (fst (step s ev))))
              = length (messages (queue s)) + (if isEnqueue ev then 1 else 0))
      as [Hopen1 Hcount1].
    { destruct s as [q n]. simpl in *.
      destruct ev as [m|timeoutMs|r|]; simpl in *; [| | |done].
      - unfold enqueue. rewrite Hopen.
        destruct (waitingResolvers q); simpl; rewrite ?length_app; simpl;
          (split; [done | lia]).
      - unfold dequeue. rewrite Hopen.
        destruct (messages q); simpl; (split; [done | lia]).
      - unfold onTimeout. destruct (indexOf r (waitingResolvers q)); simpl;
          (split; [done | lia]). }
    destruct (step s ev) as [s1 effs1]; simpl in *.
    destruct (IH s1 Hopen1 Hno) as [Hopen2 Hcount2].
    destruct (run s1 evs) as [s2 effs2]; simpl in *.
    split; [done|]. rewrite List.filter_app, length_app.
    destruct (isEnqueue ev); simpl; lia.
Qed.

(** X5: as long as the queue is not closed no message is lost or
    duplicated: after any sequence of enqueues, dequeues and timer
    callbacks, the messages delivered to consumers plus the messages
    still buffered are as many as the messages enqueued. *)
Theorem open_queue_conserves_messages
    (timeoutMs : option Z) (evs : list (Event Message)) :
  forallb (fun ev => negb (isClose ev)) evs = true →
  length (List.filter isResolve (snd (run (initial timeoutMs) evs)))
  + length (messages (queue (fst (run (initial timeoutMs) evs))))
  = length (List.filter isEnqueue evs).
Proof.
  intros Hno.
  destruct (run_open_conserves (initial timeoutMs) evs eq_refl Hno) as [_ Hc].
  exact Hc.
Qed.

End Settlement.

Lemma open_queue_conserves_messages_witness :
  length (List.filter isResolve
            (snd (run (initial None)
                    [EvDequeue None; EvEnqueue 1; EvEnqueue 2; EvTimerFires 0;
                     EvEnqueue 3; EvDequeue None])))
  + length (messages (queue (fst (run (initial None)
                    [EvDequeue None; EvEnqueue 1; EvEnqueue 2; EvTimerFires 0;
                     EvEnqueue 3; EvDequeue None]))))
  = 3.
Proof.
  exact (open_queue_conserves_messages None
           [EvDequeue None; EvEnqueue 1; EvEnqueue 2; EvTimerFires 0;
            EvEnqueue 3; EvDequeue None] eq_refl).
Defined.

End MessageQueueOrder.

Module LoggingServiceFacts.
Import LoggingService.
Local Open Scope nat_scope.
Section Buffer.
Context (timestampAt : nat → string).

(** The lines a service named [name] formats for [entries], the first
    at clock reading 0. *)
Definition formattedLines (name : string) (entries : list (Level * string))
  : list string :=
  imap (fun i entry =>
          formatLine (levelName (fst entry)) (timestampAt i) name (snd entry))
       entries.

Lemma tail_drop_snoc {A} (l : list A) (k : nat) (x : A) :
  k < length l → tail (drop k l ++ [x]) = drop (S k) (l ++ [x]).
Proof.
  intros Hk. destruct (lookup_lt_is_Some_2 l k Hk) as [y Hy].
  rewrite (drop_S l y k Hy). simpl.
  rewrite drop_app_le; [done | lia].
Qed.

Lemma logged_state name entries :
  calls (fold_left (log timestampAt) entries (new name)) = length entries
  ∧ serviceName (fold_left (log timestampAt) entries (new name))
    = default "ProxyServer" name
  ∧ maxBufferSize (fold_left (log timestampAt) entries (new name)) = 100
  ∧ logBuffer (fold_left (log timestampAt) entries (new name))
    = drop (length entries - 100)
        (formattedLines (default "ProxyServer" name) entries).
Proof.
  induction entries as [|entry entries IH] using rev_ind; [done|].
  rewrite fold_left_app. cbn [fold_left].
  destruct IH as (Hcalls & Hname & Hmax & Hbuf).
  unfold log at 1 3 5 7. unfold _formatMessage. cbn [snd calls serviceName maxBufferSize logBuffer].
  rewrite Hcalls, Hname, Hmax, Hbuf, length_app. cbn [length].
  repeat split; [lia|].
  unfold formattedLines. rewrite imap_app. cbn [imap]. rewrite Nat.add_0_r.
  set (L := imap _ entries). set (x := formatLine _ _ _ _).
  assert (length L = length entries) as HL by apply length_imap.
  rewrite length_app, length_drop, HL. cbn [length].
  destruct (100 <? length entries - (length entries - 100) + 1) eqn:E.
  - apply Nat.ltb_lt in E. rewrite tail_drop_snoc by lia.
    f_equal. lia.
  - apply Nat.ltb_ge in E.
    replace (length entries - 100) with 0 by lia.
    replace (length entries + 1 - 100) with 0 by lia. done.
Qed.

(** X6: the log buffer never holds more than 100 lines: after any
    number of log calls on a new service it holds the last 100 lines
    formatted (all of them when there were fewer), oldest first. *)
Theorem logBuffer_holds_last_hundred
    (name : option string) (entries : list (Level * string)) :
  logBuffer (fold_left (log timestampAt) entries (new name))
  = drop (length entries - 100)
      (formattedLines (default "ProxyServer" name) entries)
  ∧ length (logBuffer (fold_left (log timestampAt) entries (new name)))
    = Nat.min (length entries) 100.
Proof.
  destruct (logged_state name entries) as (_ & _ & _ & Hbuf).
  split; [exact Hbuf|].
  rewrite Hbuf, length_drop. unfold formattedLines. rewrite length_imap. lia.
Qed.

End Buffer.
End LoggingServiceFacts.

Module AuthSourceFacts.
Import AuthSource.
Local Open Scope nat_scope.

(** *** File names *)

Lemma length_append (a b : string) :
  String.length (a +:+ b) = String.length a + String.length b.
Proof.
  induction a as [|c a IH]; [done|].
  rewrite ClientFacts.append_cons. simpl. by rewrite IH.
Qed.

Lemma dropString_append (a b : string) : dropString (String.length a) (a +:+ b) = b.
Proof. induction a as [|c a IH]; [done|]. by rewrite ClientFacts.append_cons. Qed.

Lemma substring_append (a b : string) :
  String.substring 0 (String.length a) (a +:+ b) = a.
Proof.
  induction a as [|c a IH]; [by destruct b|].
  rewrite ClientFacts.append_cons. simpl. by rewrite IH.
Qed.

Lemma prefix_append (a b : string) : String.prefix a (a +:+ b) = true.
Proof.
  induction a as [|c a IH]; [by destruct b|].
  rewrite ClientFacts.append_cons. simpl.
  by destruct (Ascii.ascii_dec c c).
Qed.

Lemma stripSuffix_append suffix a : stripSuffix suffix (a +:+ suffix) = Some a.
Proof.
  unfold stripSuffix. rewrite length_append.
  replace (String.length a + String.length suffix - String.length suffix)
    with (String.length a) by lia.
  rewrite dropString_append, String.eqb_refl, substring_append.
  rewrite (proj2 (Nat.leb_le _ _)) by lia. done.
Qed.

Lemma to_uint_not_Nil n : Nat.to_uint n ≠ Decimal.Nil.
Proof.
  intros Hnil. pose proof (DecimalNat.Unsigned.of_to n) as Hn.
  rewrite Hnil in Hn. simpl in Hn. subst n. discriminate Hnil.
Qed.

(** X7: the name the module builds for an index, [auth-${index}.json],
    is recognised by the directory scan and read back as that index. *)
Theorem authFileName_is_scanned_as_its_index (index : nat) :
  authFileIndex (authFileName index) = Some index.
Proof.
  unfold authFileIndex, authFileName.
  set (digits := NilEmpty.string_of_uint (Nat.to_uint index)).
  rewrite prefix_append.
  assert (dropString 5 ("auth-" +:+ digits +:+ ".json") = digits +:+ ".json") as ->
    by reflexivity.
  rewrite stripSuffix_append. subst digits.
  destruct (String.eqb _ EmptyString) eqn:E.
  - apply String.eqb_eq in E. pose proof (to_uint_not_Nil index) as Hnil.
    by destruct (Nat.to_uint index).
  - rewrite NilEmpty.usu. simpl. f_equal. apply DecimalNat.Unsigned.of_to.
Qed.

(** *** Scanning and validating *)

Section Scan.
Context {host : Host}.

Lemma StronglySorted_le_lt (l : list nat) :
  StronglySorted Nat.le l → NoDup l → StronglySorted Nat.lt l.
Proof.
  induction 1 as [|x l Hs IH Hall]; intros Hnd; [constructor|].
  apply NoDup_cons in Hnd as [Hx Hnd]. constructor; [by apply IH|].
  rewrite Forall_forall in Hall |- *. intros y Hy.
  specialize (Hall y Hy). assert (x ≠ y) by (by intros ->). unfold Nat.lt. lia.
Qed.

Lemma sortedDistinct_spec (indices : list nat) :
  StronglySorted Nat.lt (sortedDistinct indices)
  ∧ ∀ n, n ∈ sortedDistinct indices ↔ n ∈ indices.
Proof.
  unfold sortedDistinct. split.
  - apply StronglySorted_le_lt.
    + apply (StronglySorted_merge_sort Nat.le).
    + rewrite merge_sort_Permutation. apply NoDup_remove_dups.
  - intros n. rewrite merge_sort_Permutation. apply elem_of_remove_dups.
Qed.

Lemma discoverAvailableIndices_spec (dir : AuthDirectory) (a : t) :
  StronglySorted Nat.lt (initialIndices (_discoverAvailableIndices dir a))
  ∧ ∀ n, n ∈ initialIndices (_discoverAvailableIndices dir a)
         ↔ dirExists dir = true
           ∧ ∃ files file, readdir dir = Some files ∧ file ∈ files
                           ∧ authFileIndex file = Some n.
Proof.
  unfold _discoverAvailableIndices.
  destruct (dirExists dir); simpl.
  - destruct (readdir dir) as [files|]; simpl.
    + destruct (sortedDistinct_spec (omap authFileIndex files)) as [Hs Hin].
      split; [done|]. intros n. rewrite Hin, list_elem_of_omap.
      split.
      * intros (file & Hfile & Hidx). split; [done|]. by exists files, file.
      * intros (_ & files' & file & [= <-] & Hfile & Hidx). by exists file.
    + split; [constructor|]. intros n. split.
      * by intros ?%not_elem_of_nil.
      * by intros (_ & files & file & [=] & _).
  - split; [constructor|]. intros n. split.
    + by intros ?%not_elem_of_nil.
    + by intros ([=] & _).
Qed.


(** X8: after a scan of the directory [initialIndices] is strictly
    increasing (ascending, no index twice) and holds exactly the indices
    of the listed file names of the form [auth-<digits>.json]; it is
    empty when the directory is missing or cannot be listed. *)
Theorem discover_sorts_and_collects (dir : AuthDirectory) (a : t) :
  StronglySorted Nat.lt (initialIndices (_discoverAvailableIndices dir a))
  ∧ ∀ n, n ∈ initialIndices (_discoverAvailableIndices dir a)
         ↔ dirExists dir = true
           ∧ ∃ files file, readdir dir = Some files ∧ file ∈ files
                           ∧ authFileIndex file = Some n.
Proof. apply discoverAvailableIndices_spec. Qed.

(** The file of [index] can be read, is not empty and is valid JSON. *)
Definition usable (dir : AuthDirectory) (index : nat) : bool :=
  match _getAuthContent dir index with
  | Some authContent =>
      negb (String.eqb authContent EmptyString)
      && bool_decide (is_Some (JSON_parse authContent))
  | None => false
  end.

Lemma validate_fold dir (l valid : list nat) (names : gmap nat JValue) :
  fst (fold_left (validateIndex dir) l (valid, names))
  = valid ++ List.filter (usable dir) l.
Proof.
  revert valid names. induction l as [|index l IH]; intros valid names; simpl.
  - by rewrite app_nil_r.
  - unfold usable at 1.
    destruct (_getAuthContent dir index) as [authContent|]; simpl; [|apply IH].
    destruct (String.eqb authContent EmptyString); simpl; [apply IH|].
    destruct (JSON_parse authContent) as [authData|]; simpl; [|apply IH].
    rewrite IH. by rewrite <- app_assoc.
Qed.

Lemma preValidate_available dir a n :
  n ∈ availableIndices (_preValidateAndFilter dir a)
  ↔ n ∈ initialIndices a ∧ usable dir n = true.
Proof.
  unfold _preValidateAndFilter.
  destruct (initialIndices a) as [|i0 rest] eqn:E.
  - simpl. split; [by intros ?%not_elem_of_nil | by intros [?%not_elem_of_nil _]].
  - pose proof (validate_fold dir (i0 :: rest) [] ∅) as Hfold.
    destruct (fold_left (validateIndex dir) (i0 :: rest) ([], ∅)) as [valid names].
    cbn [app fst] in Hfold. cbn [availableIndices]. rewrite merge_sort_Permutation, Hfold.
    rewrite list_elem_of_In, List.filter_In, <- list_elem_of_In. done.
Qed.

Lemma preValidate_sorted dir a :
  StronglySorted Nat.lt (initialIndices a) →
  StronglySorted Nat.lt (availableIndices (_preValidateAndFilter dir a)).
Proof.
  intros Hs. unfold _preValidateAndFilter.
  destruct (initialIndices a) as [|i0 rest] eqn:E; [constructor|].
  pose proof (validate_fold dir (i0 :: rest) [] ∅) as Hfold.
  destruct (fold_left (validateIndex dir) (i0 :: rest) ([], ∅)) as [valid names].
  cbn [app fst] in Hfold. cbn [availableIndices]. apply StronglySorted_le_lt.
  - apply (StronglySorted_merge_sort Nat.le).
  - rewrite merge_sort_Permutation, Hfold.
    apply NoDup_ListNoDup, List.NoDup_filter, NoDup_ListNoDup.
    clear -Hs. induction Hs as [|x l Hs IH Hall]; [constructor|].
    constructor; [|done]. intros Hin. rewrite Forall_forall in Hall.
    specialize (Hall x Hin). unfold Nat.lt in Hall. lia.
Qed.

(** X9: a newly constructed source offers, in ascending order and each
    once, exactly the indices of the listed [auth-<digits>.json] files
    for which the file [auth-<index>.json] exists, can be read, is not
    empty and parses as JSON. *)
Theorem new_source_offers_usable_indices (dir : AuthDirectory) :
  StronglySorted Nat.lt (availableIndices (new dir))
  ∧ ∀ n, n ∈ availableIndices (new dir)
         ↔ (dirExists dir = true
            ∧ ∃ files file, readdir dir = Some files ∧ file ∈ files
                            ∧ authFileIndex file = Some n)
           ∧ ∃ authContent,
               fileExists dir (authFileName n) = true
               ∧ readFile dir (authFileName n) = Some authContent
               ∧ authContent ≠ EmptyString
               ∧ is_Some (JSON_parse authContent).
Proof.
  unfold new, reloadAuthSources. cbn [orb availableIndices].
  set (a0 := {| availableIndices := []; initialIndices := [];
                accountNameMap := ∅; lastScannedIndices := [] |}).
  destruct (discoverAvailableIndices_spec dir a0) as [Hs Hin].
  split; [by apply preValidate_sorted|].
  intros n. rewrite preValidate_available, Hin.
  apply and_iff_compat_l. unfold usable, _getAuthContent.
  destruct (fileExists dir (authFileName n)); simpl.
  - destruct (readFile dir (authFileName n)) as [authContent|]; simpl.
    + rewrite andb_true_iff, negb_true_iff, String.eqb_neq, bool_decide_eq_true.
      split.
      * intros [Hne Hp]. by exists authContent.
      * by intros (c & _ & [= <-] & Hne & Hp).
    + split; [done | by intros (c & _ & [=] & _)].
  - split; [done | by intros (c & [=] & _)].
Qed.


(** *** Reloading *)

(** What holds of a source between two calls. *)
Definition consistent (a : t) : Prop :=
  StronglySorted Nat.lt (availableIndices a)
  ∧ (∀ n, n ∈ availableIndices a → n ∈ initialIndices a)
  ∧ lastScannedIndices a = initialIndices a
  ∧ (∀ n, is_Some (accountNameMap a !! n) → n ∈ availableIndices a).

Lemma validate_fold_names dir (l : list nat) : ∀ valid names n,
  is_Some (snd (fold_left (validateIndex dir) l (valid, names)) !! n) →
  is_Some (names !! n)
  ∨ n ∈ List.filter (usable dir) l.
Proof.
  induction l as [|index l IH]; intros valid names n; cbn [fold_left]; [by left|].
  assert (∀ rest, n ∈ rest → n ∈ (if usable dir index then index :: rest else rest))
    as Hrest by (intros rest ?; destruct (usable dir index); [by right | done]).
  assert (is_Some ((fold_left (validateIndex dir) l (valid, names)).2 !! n) →
          is_Some (names !! n)
          ∨ n ∈ (if usable dir index
                 then index :: List.filter (usable dir) l
                 else List.filter (usable dir) l)) as Hskip.
  { intros Hn. apply IH in Hn as [Hn | Hn]; [by left | right; by apply Hrest]. }
  cbn [List.filter]. unfold validateIndex at 2.
  destruct (_getAuthContent dir index) as [authContent|] eqn:Econtent; [|exact Hskip].
  destruct (String.eqb authContent EmptyString) eqn:Eempty; [exact Hskip|].
  destruct (JSON_parse authContent) as [authData|] eqn:Eparse; [|exact Hskip].
  assert (usable dir index = true) as ->.
  { unfold usable. rewrite Econtent, Eempty, Eparse. cbn [negb andb].
    apply bool_decide_eq_true_2. by eexists. }
  intros Hn. apply IH in Hn as [Hn | Hn]; [|right; by right].
  destruct (accountNameOf authData) as [name|]; [|by left].
  destruct (decide (n = index)) as [->|Hne]; [right; by left|].
  left. by rewrite lookup_insert_ne in Hn.
Qed.

Lemma preValidate_names dir a n :
  is_Some (accountNameMap (_preValidateAndFilter dir a) !! n) →
  n ∈ availableIndices (_preValidateAndFilter dir a).
Proof.
  unfold _preValidateAndFilter.
  destruct (initialIndices a) as [|i0 rest] eqn:E.
  - cbn. rewrite lookup_empty. by intros [? [=]].
  - pose proof (validate_fold dir (i0 :: rest) [] ∅) as Hfold.
    pose proof (validate_fold_names dir (i0 :: rest) [] ∅ n) as Hnames.
    destruct (fold_left (validateIndex dir) (i0 :: rest) ([], ∅)) as [valid names].
    cbn [app fst snd] in Hfold, Hnames. cbn [availableIndices accountNameMap].
    intros Hn. rewrite merge_sort_Permutation, Hfold.
    destruct (Hnames Hn) as [Hempty | Hin]; [|done].
    rewrite lookup_empty in Hempty. by destruct Hempty.
Qed.

Lemma preValidate_initial dir a :
  initialIndices (_preValidateAndFilter dir a) = initialIndices a.
Proof.
  unfold _preValidateAndFilter. destruct (initialIndices a) eqn:E; [done|].
  by destruct (fold_left _ _ _).
Qed.

Lemma reload_consistent isInitialLoad dir a :
  consistent a → consistent (reloadAuthSources isInitialLoad dir a).
Proof.
  intros (Hsorted & Hsub & Hlast & Hnames). unfold reloadAuthSources.
  destruct (discoverAvailableIndices_spec dir a) as [Hscan _].
  set (a1 := _discoverAvailableIndices dir a) in *.
  assert (accountNameMap a1 = accountNameMap a
          ∧ lastScannedIndices a1 = lastScannedIndices a
          ∧ (availableIndices a1 = availableIndices a
             ∨ availableIndices a1 = [] ∧ initialIndices a1 = []))
    as (Hn1 & Hl1 & Ha1).
  { subst a1. unfold _discoverAvailableIndices.
    destruct (dirExists dir); [destruct (readdir dir)|];
      (split; [done|]; split; [done|]); first [by left | by right]. }
  destruct (isInitialLoad || negb (bool_decide (lastScannedIndices a = initialIndices a1)))
    eqn:Echanged.
  - unfold consistent. cbn [availableIndices initialIndices accountNameMap
      lastScannedIndices]. rewrite preValidate_initial.
    split; [by apply preValidate_sorted|]. split; [|split; [done|]].
    + intros n Hn. by apply preValidate_available in Hn as [? _].
    + intros n. apply preValidate_names.
  - apply orb_false_iff in Echanged as [_ Esame].
    apply negb_false_iff, bool_decide_eq_true in Esame.
    unfold consistent. rewrite Hn1, Hl1.
    destruct Ha1 as [-> | [-> Hnil]].
    + split; [done|]. split; [|done].
      intros n Hn. rewrite <- Esame, Hlast. by apply Hsub.
    + split; [constructor|]. split; [by intros n ?%not_elem_of_nil|]. split; [done|].
      intros n Hn. apply Hnames, Hsub in Hn.
      rewrite <- Hlast, Esame, Hnil in Hn. by apply not_elem_of_nil in Hn.
Qed.

(** X11: a source stays consistent however the directory changes
    between reloads: after the constructor and any number of
    [reloadAuthSources()] calls, each seeing the directory in some state,
    the available indices are ascending without repeats and are among
    the indices of the last scan, the cache of the last scan agrees
    with [initialIndices], and only available indices have an account
    name. *)
Theorem reloads_keep_the_source_consistent
    (dir : AuthDirectory) (later : list AuthDirectory) :
  StronglySorted Nat.lt
    (availableIndices
       (fold_left (fun a dir' => reloadAuthSources false dir' a) later (new dir)))
  ∧ (∀ n,
       n ∈ availableIndices
             (fold_left (fun a dir' => reloadAuthSources false dir' a) later (new dir)) →
       n ∈ initialIndices
             (fold_left (fun a dir' => reloadAuthSources false dir' a) later (new dir)))
  ∧ lastScannedIndices
      (fold_left (fun a dir' => reloadAuthSources false dir' a) later (new dir))
    = initialIndices
        (fold_left (fun a dir' => reloadAuthSources false dir' a) later (new dir))
  ∧ (∀ n,
       is_Some (accountNameMap
                  (fold_left (fun a dir' => reloadAuthSources false dir' a) later
                             (new dir)) !! n) →
       n ∈ availableIndices
             (fold_left (fun a dir' => reloadAuthSources false dir' a) later (new dir))).
Proof.
  assert (consistent (new dir)) as Hnew.
  { apply reload_consistent. split; [constructor|]. split; [done|]. split; [done|].
    intros n. cbn [accountNameMap]. rewrite lookup_empty. by intros [? [=]]. }
  revert Hnew. generalize (new dir).
  induction later as [|dir' later IH]; intros a Ha; [exact Ha|].
  cbn [fold_left]. by apply IH, reload_consistent.
Qed.

(** *** The next free index *)

Lemma nextAuthIndexFrom_least dir (free start fuel : nat) :
  fileExists dir (authFileName free) = false →
  start ≤ free → free - start < fuel →
  ∃ k, nextAuthIndexFrom fuel dir start = Some k
       ∧ start ≤ k ≤ free
       ∧ fileExists dir (authFileName k) = false
       ∧ ∀ j, start ≤ j < k → fileExists dir (authFileName j) = true.
Proof.
  intros Hfree. revert start.
  induction fuel as [|fuel IH]; intros start Hle Hfuel; [lia|]. simpl.
  destruct (fileExists dir (authFileName start)) eqn:E.
  - assert (start ≠ free) by (intros ->; congruence).
    destruct (IH (S start)) as (k & Hk & Hrange & Hkfree & Hbelow); [lia..|].
    exists k. split; [done|]. split; [lia|]. split; [done|].
    intros j Hj. destruct (decide (j = start)) as [->|Hne]; [done|].
    apply Hbelow. lia.
  - exists start. split; [done|]. split; [lia|]. split; [done|]. intros j Hj. lia.
Qed.

(** X12: when some index from 1 on is free, the search of
    [saveAuthFile] ends, within as many turns as that index, at the
    least index from 1 on whose file does not exist: it never picks the
    name of an existing file and leaves no gap below. *)
Theorem nextAuthIndex_is_least_free (dir : AuthDirectory) (free fuel : nat) :
  fileExists dir (authFileName free) = false →
  1 ≤ free → free ≤ fuel →
  ∃ k, nextAuthIndexFrom fuel dir 1 = Some k
       ∧ 1 ≤ k ≤ free
       ∧ fileExists dir (authFileName k) = false
       ∧ ∀ j, 1 ≤ j < k → fileExists dir (authFileName j) = true.
Proof.
  intros Hfree Hone Hfuel. apply nextAuthIndexFrom_least; [done | done | lia].
Qed.

End Scan.

(** A directory with three auth files, one of them holding no JSON, and
    a stray file. *)
Definition sampleDirectory : AuthDirectory :=
  {| dirExists := true;
     readdir := Some ["auth-2.json"; "notes.txt"; "auth-10.json"; "auth-1.json"];
     fileExists := fun name =>
       bool_decide (name ∈ ["auth-2.json"; "notes.txt"; "auth-10.json"; "auth-1.json"]);
     readFile := fun name =>
       if String.eqb name "auth-2.json" then Some "{}"
       else if String.eqb name "auth-10.json" then Some "not json"
       else if String.eqb name "auth-1.json" then Some "{}"
       else None |}.

Lemma nextAuthIndex_is_least_free_witness :
  ∃ k, nextAuthIndexFrom 3 sampleDirectory 1 = Some k
       ∧ (1 ≤ k ≤ 3)%nat
       ∧ fileExists sampleDirectory (authFileName k) = false
       ∧ ∀ j, (1 ≤ j < k)%nat → fileExists sampleDirectory (authFileName j) = true.
Proof.
  apply (nextAuthIndex_is_least_free sampleDirectory 3 3).
  - vm_compute. reflexivity.
  - lia.
  - lia.
Defined.

End AuthSourceFacts.

Module TranslationInvariants.
Import FormatConverter.

(** *** ensureThoughtSignature only adds one signature per entry *)







(** *** Shape of the translated contents *)

Section Requests.
Context {host : Host} {imageHost : ImageHost}.

(** A text or image part. *)
Definition plainPart (p : Part) : Prop :=
  part_functionCall p = None ∧ part_functionResponse p = None
  ∧ part_thoughtSignature p = None.

Definition callPart (p : Part) : Prop :=
  is_Some (part_functionCall p) ∧ part_functionResponse p = None.

Definition responsePart (p : Part) : Prop :=
  is_Some (part_functionResponse p) ∧ part_functionCall p = None
  ∧ part_thoughtSignature p = None.

(** The dummy signature on the first element and none on the others. *)
Definition firstOnly (signatures : list (option string)) : Prop :=
  match signatures with
  | [] => True
  | s :: rest => s = Some DUMMY_THOUGHT_SIGNATURE ∧ Forall (eq None) rest
  end.

(** An entry as the translation builds them. *)
Definition translatedEntry (content : Content) : Prop :=
  (role content = Some "user"
   ∧ ∃ ps, parts content = Some ps ∧ ps ≠ []
           ∧ (Forall responsePart ps ∨ Forall plainPart ps))
  ∨ (role content = Some "model"
     ∧ ∃ calls rest,
         parts content = Some (calls ++ rest) ∧ calls ++ rest ≠ []
         ∧ Forall callPart calls
         ∧ firstOnly (map part_thoughtSignature calls)
         ∧ Forall plainPart rest).

Lemma functionCallParts_shape signatureAttachedToCall tool_calls :
  Forall callPart (functionCallParts signatureAttachedToCall tool_calls)
  ∧ if signatureAttachedToCall
    then Forall (eq None)
           (map part_thoughtSignature
              (functionCallParts signatureAttachedToCall tool_calls))
    else firstOnly
           (map part_thoughtSignature
              (functionCallParts signatureAttachedToCall tool_calls)).
Proof.
  revert signatureAttachedToCall.
  induction tool_calls as [|toolCall rest IH]; intros b; simpl.
  - split; [constructor|]. by destruct b.
  - destruct (tc_type toolCall) as [ty|]; [|apply IH].
    destruct (tc_function toolCall) as [fn|]; [|apply IH].
    destruct (String.eqb ty "function"); [|apply IH].
    destruct (IH true) as [Hcalls Hsigs]. split.
    + constructor; [|done]. split; simpl; [by eexists | done].
    + destruct b; simpl; [by constructor | done].
Qed.

Lemma contentPartParts_plain part : Forall plainPart (contentPartParts part).
Proof.
  unfold contentPartParts.
  repeat (first [ case_bool_decide | case_match ];
          try by (repeat constructor)).
Qed.

Lemma messageParts_shape message :
  ∃ calls rest,
    messageParts message = calls ++ rest
    ∧ Forall callPart calls
    ∧ firstOnly (map part_thoughtSignature calls)
    ∧ Forall plainPart rest
    ∧ (String.eqb (msg_role message) "assistant" = false → calls = []).
Proof.
  unfold messageParts. eexists _, _. split; [done|].
  split; [|split; [|split]].
  - destruct (String.eqb _ "assistant"); [|constructor].
    destruct (msg_tool_calls message); [|constructor].
    apply (functionCallParts_shape false).
  - destruct (String.eqb _ "assistant"); [|done].
    destruct (msg_tool_calls message); [|done].
    apply (functionCallParts_shape false).
  - destruct (msg_content message) as [s|cps|v]; [| |constructor].
    + destruct (String.eqb s EmptyString); by repeat constructor.
    + induction cps as [|cp cps IH]; simpl; [constructor|].
      apply Forall_app. split; [apply contentPartParts_plain | done].
  - by intros ->.
Qed.

Lemma functionResponsePart_response message :
  responsePart (functionResponsePart message).
Proof. unfold functionResponsePart, responsePart. simpl. by split; [eexists|]. Qed.

Definition loopInvariant (st : list Content * list Part) : Prop :=
  Forall translatedEntry (fst st) ∧ Forall responsePart (snd st).

Lemma flushToolParts_invariant st :
  loopInvariant st → loopInvariant (flushToolParts st).
Proof.
  destruct st as [gc [|p pending]]; [done|]. intros [Hgc Hp]. split; simpl; [|constructor].
  apply Forall_app. split; [done|]. constructor; [|constructor].
  left. split; [done|]. exists (p :: pending). by repeat split; [|left].
Qed.

Lemma convertMessage_invariant st message :
  loopInvariant st → loopInvariant (convertMessage st message).
Proof.
  intros Hst. unfold convertMessage.
  destruct (String.eqb (msg_role message) "tool") eqn:Etool.
  - destruct Hst as [Hgc Hp]. split; simpl; [done|].
    apply Forall_app. split; [done|]. constructor; [|constructor].
    apply functionResponsePart_response.
  - apply flushToolParts_invariant in Hst.
    destruct (flushToolParts st) as [gc pending]. destruct Hst as [Hgc Hp].
    destruct (messageParts_shape message)
      as (calls & rest & Heq & Hcalls & Hsigs & Hrest & Huser).
    destruct (messageParts message) as [|p ps] eqn:E; [done|].
    split; simpl; [|done]. apply Forall_app. split; [done|].
    constructor; [|constructor]. unfold translatedEntry. simpl.
    destruct (String.eqb (msg_role message) "assistant") eqn:Erole.
    + right. split; [done|]. exists calls, rest. rewrite <- Heq. by repeat split.
    + left. split; [done|]. exists (p :: ps). repeat split; [done|].
      right. rewrite Heq, (Huser eq_refl). done.
Qed.

Lemma googleContents_translated conversation :
  Forall translatedEntry (googleContents conversation).
Proof.
  unfold googleContents.
  assert (∀ st, loopInvariant st →
                loopInvariant (fold_left convertMessage conversation st)) as Hloop.
  { induction conversation as [|m ms IH]; intros st Hst; [done|].
    simpl. by apply IH, convertMessage_invariant. }
  apply flushToolParts_invariant, Hloop. by split; constructor.
Qed.

(** X14: every entry of the translated [contents] has a [parts] array
    that is not empty and the role "user" or "model". A "user" entry
    holds only function responses or only text and image parts, and
    never a function call; a "model" entry never holds a function
    response, and its calls come before its text and image parts. *)
Theorem translated_entries_are_well_formed (openaiBody : OpenAIBody) :
  Forall (fun content =>
            ∃ ps, parts content = Some ps ∧ ps ≠ []
              ∧ ((role content = Some "user"
                  ∧ Forall (fun p => part_functionCall p = None) ps
                  ∧ (Forall (fun p => is_Some (part_functionResponse p)) ps
                     ∨ Forall (fun p => part_functionResponse p = None) ps))
                 ∨ (role content = Some "model"
                    ∧ Forall (fun p => part_functionResponse p = None) ps
                    ∧ ∃ calls rest,
                        ps = calls ++ rest
                        ∧ Forall (fun p => is_Some (part_functionCall p)) calls
                        ∧ Forall (fun p => part_functionCall p = None) rest)))
         (contents (translateOpenAIToGoogle openaiBody)).
Proof.
  unfold translateOpenAIToGoogle. simpl.
  eapply Forall_impl; [apply googleContents_translated|].
  intros content [(Hrole & ps & Hps & Hne & Hkind)
                 | (Hrole & calls & rest & Hps & Hne & Hcalls & _ & Hrest)].
  - exists ps. split; [done|]. split; [done|]. left. split; [done|].
    destruct Hkind as [Hr | Hp].
    + split; [|left]; eapply Forall_impl; try exact Hr; by intros p (? & ? & ?).
    + split; [|right]; eapply Forall_impl; try exact Hp; by intros p (? & ? & ?).
  - exists (calls ++ rest). split; [done|]. split; [done|]. right.
    split; [done|]. split.
    + apply Forall_app. split.
      * eapply Forall_impl; [exact Hcalls|]. by intros p [? ?].
      * eapply Forall_impl; [exact Hrest|]. by intros p (? & ? & ?).
    + exists calls, rest. split; [done|]. split.
      * eapply Forall_impl; [exact Hcalls|]. by intros p [? ?].
      * eapply Forall_impl; [exact Hrest|]. by intros p (? & ? & ?).
Qed.

(** The signatures on the function calls of [ps], in order. *)
Definition callSignatures (ps : list Part) : list (option string) :=
  map part_thoughtSignature
      (List.filter (fun p => bool_decide (is_Some (part_functionCall p))) ps).

Lemma callSignatures_calls calls :
  Forall callPart calls → callSignatures calls = map part_thoughtSignature calls.
Proof.
  unfold callSignatures. induction 1 as [|p ps [Hp _] _ IH]; [done|]. simpl.
  rewrite bool_decide_eq_true_2 by done. simpl. by rewrite IH.
Qed.

Lemma callSignatures_none ps :
  Forall (fun p => part_functionCall p = None) ps → callSignatures ps = [].
Proof.
  unfold callSignatures. induction 1 as [|p ps Hp _ IH]; [done|]. simpl.
  rewrite bool_decide_eq_false_2; [done|]. rewrite Hp. by intros [? ?].
Qed.

(** X15: in every entry of the translated [contents] the first function
    call carries the dummy thought signature and no other part carries
    a signature at all. *)
Theorem translated_calls_sign_only_the_first (openaiBody : OpenAIBody) :
  Forall (fun content =>
            ∃ ps, parts content = Some ps
              ∧ firstOnly (callSignatures ps)
              ∧ Forall (fun p => part_functionCall p = None →
                                 part_thoughtSignature p = None) ps)
         (contents (translateOpenAIToGoogle openaiBody)).
Proof.
  unfold translateOpenAIToGoogle. simpl.
  eapply Forall_impl; [apply googleContents_translated|].
  intros content [(Hrole & ps & Hps & Hne & Hkind)
                 | (Hrole & calls & rest & Hps & Hne & Hcalls & Hsigs & Hrest)].
  - exists ps. split; [done|].
    assert (Forall (fun p => part_functionCall p = None
                             ∧ part_thoughtSignature p = None) ps) as Hnone.
    { destruct Hkind as [H | H]; eapply Forall_impl; try exact H;
        by intros p (? & ? & ?). }
    split.
    + rewrite callSignatures_none; [done|].
      eapply Forall_impl; [exact Hnone|]. by intros p [? ?].
    + eapply Forall_impl; [exact Hnone|]. by intros p [? ?].
  - exists (calls ++ rest). split; [done|]. split.
    + unfold callSignatures. rewrite List.filter_app, map_app.
      fold (callSignatures calls). fold (callSignatures rest).
      rewrite (callSignatures_none rest), app_nil_r, callSignatures_calls; [done..|].
      eapply Forall_impl; [exact Hrest|]. by intros p (? & ? & ?).
    + apply Forall_app. split.
      * eapply Forall_impl; [exact Hcalls|]. intros p [[fc Hfc] _] Hnone. congruence.
      * eapply Forall_impl; [exact Hrest|]. by intros p (? & ? & ?).
Qed.

End Requests.
End TranslationInvariants.

Module StreamFacts.
Import ResponseConverter.
Local Open Scope nat_scope.

(** The chunks in what the stream converter returned, in order. *)
Definition lineChunks (line : SseLine) : list CompletionChunk :=
  match line with
  | SseDone => []
  | SseData chunk => [chunk]
  end.

Definition emittedChunks (outs : list (option (list SseLine)))
  : list CompletionChunk :=
  flat_map (fun out => flat_map lineChunks (default [] out)) outs.

Definition openStream (id : string) (created : Z) (st : StreamState) : StreamState :=
  {| ss_id := Some id; ss_created := Some created; ss_usage := ss_usage st;
     ss_toolCallIndex := ss_toolCallIndex st;
     ss_hasFunctionCall := ss_hasFunctionCall st;
     ss_roleSent := ss_roleSent st |}.

Definition withUsage (u : Usage) (st : StreamState) : StreamState :=
  {| ss_id := ss_id st; ss_created := ss_created st; ss_usage := Some u;
     ss_toolCallIndex := ss_toolCallIndex st;
     ss_hasFunctionCall := ss_hasFunctionCall st;
     ss_roleSent := ss_roleSent st |}.

Definition withRoleSent (st : StreamState) : StreamState :=
  {| ss_id := ss_id st; ss_created := ss_created st; ss_usage := ss_usage st;
     ss_toolCallIndex := ss_toolCallIndex st;
     ss_hasFunctionCall := ss_hasFunctionCall st;
     ss_roleSent := true |}.

Definition withCall (st : StreamState) : StreamState :=
  {| ss_id := ss_id st; ss_created := ss_created st; ss_usage := ss_usage st;
     ss_toolCallIndex := Some (default 0 (ss_toolCallIndex st) + 1);
     ss_hasFunctionCall := true;
     ss_roleSent := ss_roleSent st |}.

Definition withRole (roleSent : bool) (delta : Delta) : Delta :=
  if roleSent then delta
  else {| delta_content := delta_content delta;
          delta_reasoning_content := delta_reasoning_content delta;
          delta_tool_calls := delta_tool_calls delta;
          delta_role := Some "assistant" |}.

Definition blockedDelta (errorText : string) : Delta :=
  {| delta_content := Some errorText; delta_reasoning_content := None;
     delta_tool_calls := None; delta_role := None |}.

Section Summary.
Context {host : Host} {wire : GeminiWire}.

(** What a part with content contributes: a delta without a role that
    carries text, reasoning text or one tool call; only a tool call
    changes the state. *)
Lemma partDelta_Some st tick part delta st1 tick1 :
  partDelta st tick part = (Some delta, st1, tick1) →
  delta_role delta = None
  ∧ ((st1 = st ∧ tick1 = tick ∧ delta_tool_calls delta = None
      ∧ (is_Some (delta_content delta) ∨ is_Some (delta_reasoning_content delta)))
     ∨ (st1 = withCall st ∧ tick1 = S tick
        ∧ delta_content delta = None ∧ delta_reasoning_content delta = None
        ∧ ∃ funcCall,
            part_functionCall part = Some funcCall
            ∧ delta_tool_calls delta
              = Some [{| tco_function :=
                           {| tcfo_arguments := stringifyArgs funcCall;
                              tcfo_name := fc_name funcCall |};
                         tco_id := "call_" +:+ _generateRequestId tick;
                         tco_index := default 0 (ss_toolCallIndex st);
                         tco_type := "function" |}])).
Proof.
  unfold partDelta.
  destruct (bool_decide (part_thought part = Some true)).
  { destruct (truthyStr (part_text part)) eqn:E; intros [= <- <- <-]; simpl.
    split; [done|]. left. repeat split. right.
    destruct (part_text part); [by eexists | done]. }
  destruct (truthyStr (part_text part)) eqn:E.
  { intros [= <- <- <-]. simpl. split; [done|]. left. repeat split. left.
    destruct (part_text part); [by eexists | done]. }
  destruct (part_inlineData part) as [image|].
  { intros [= <- <- <-]. simpl. split; [done|]. left. repeat split. left. by eexists. }
  destruct (part_functionCall part) as [funcCall|]; [|done].
  intros [= <- <- <-]. simpl. split; [done|]. right. repeat split. by exists funcCall.
Qed.

Lemma partDelta_None st tick part st1 tick1 :
  partDelta st tick part = (None, st1, tick1) → st1 = st ∧ tick1 = tick.
Proof.
  unfold partDelta. repeat case_match; by intros [= <- <-].
Qed.

Variable modelName : string.

(** A summary [R st chunks st'] of what the converter emits between two
    states, closed under the steps the converter can take. *)
Variable R : StreamState → list CompletionChunk → StreamState → Prop.

Hypothesis R_refl : ∀ st, R st [] st.
Hypothesis R_trans : ∀ st1 st2 st3 a b,
  R st1 a st2 → R st2 b st3 → R st1 (a ++ b) st3.
Hypothesis R_open : ∀ st id created,
  truthyStr (ss_id st) = false → truthyStr (Some id) = true →
  R st [] (openStream id created st).
Hypothesis R_usage : ∀ st u, R st [] (withUsage u st).
Hypothesis R_blocked : ∀ st errorText,
  truthyStr (ss_id st) = true →
  R st [mkChunk (blockedDelta errorText) (Some "stop") (ss_created st) (ss_id st)
          modelName None] st.
Hypothesis R_part : ∀ st tick part delta st1 tick1,
  truthyStr (ss_id st) = true →
  partDelta st tick part = (Some delta, st1, tick1) →
  R st [mkChunk (withRole (ss_roleSent st1) delta) None (ss_created st) (ss_id st)
          modelName None] (withRoleSent st1).
Hypothesis R_finish : ∀ st reason,
  truthyStr (ss_id st) = true → truthyStr reason = true →
  R st [mkChunk emptyDelta
          (Some (if ss_hasFunctionCall st then "tool_calls"
                 else _mapFinishReason reason))
          (ss_created st) (ss_id st) modelName (ss_usage st)] st.

Lemma parts_summary ps : ∀ st tick chunks created streamId,
  ss_id st = streamId → ss_created st = created →
  truthyStr streamId = true →
  ∃ st' tick' new,
    fold_left (convertPart modelName created streamId) ps (st, tick, chunks)
      = (st', tick', chunks ++ new)
    ∧ R st (flat_map lineChunks new) st'
    ∧ ss_id st' = streamId ∧ ss_created st' = created.
Proof.
  induction ps as [|part ps IH]; intros st tick chunks created streamId Hid Hcr Hopen.
  - exists st, tick, []. rewrite app_nil_r. by repeat split.
  - cbn [fold_left]. unfold convertPart at 2.
    destruct (partDelta st tick part) as [[[delta|] st1] tick1] eqn:E.
    + assert (ss_id st1 = streamId ∧ ss_created st1 = created) as [Hid1 Hcr1].
      { apply partDelta_Some in E as [_ [(-> & _) | (-> & _)]]; by split. }
      destruct (IH (withRoleSent st1) tick1
                  (chunks ++ [SseData (mkChunk (withRole (ss_roleSent st1) delta) None
                                         created streamId modelName None)])
                  created streamId Hid1 Hcr1 Hopen)
        as (st' & tick' & new & Hfold & HR & Hid' & Hcr').
      exists st', tick', (SseData (mkChunk (withRole (ss_roleSent st1) delta) None
                                    created streamId modelName None) :: new).
      split; [|split; [|done]].
      * unfold withRoleSent, withRole in Hfold. rewrite Hfold.
        by rewrite <- app_assoc.
      * change (flat_map lineChunks (?x :: new))
          with (lineChunks x ++ flat_map lineChunks new).
        eapply R_trans; [|exact HR]. simpl. subst created streamId.
        by eapply R_part.
    + apply partDelta_None in E as [-> ->]. by apply IH.
Qed.

Lemma call_summary googleChunk st tick :
  R st
    (flat_map lineChunks
       (default [] (fst (fst (translateGoogleToOpenAIStream googleChunk modelName
                                (Some st) tick)))))
    (snd (fst (translateGoogleToOpenAIStream googleChunk modelName (Some st) tick))).
Proof.
  unfold translateGoogleToOpenAIStream. cbn [default].
  destruct (readChunk googleChunk) as [| | |googleResponse]; simpl; try apply R_refl.
  assert (∃ st1 tick1,
    (if truthyStr (ss_id st) then (st, tick)
     else ({| ss_id := Some ("chatcmpl-" +:+ _generateRequestId tick);
              ss_created := Some (Date_now (S tick) / 1000)%Z;
              ss_usage := ss_usage st;
              ss_toolCallIndex := ss_toolCallIndex st;
              ss_hasFunctionCall := ss_hasFunctionCall st;
              ss_roleSent := ss_roleSent st |}, S (S tick))) = (st1, tick1)
    ∧ R st [] st1 ∧ truthyStr (ss_id st1) = true) as (st1 & tick1 & -> & HR1 & Hopen).
  { destruct (truthyStr (ss_id st)) eqn:E.
    - by exists st, tick.
    - eexists _, _. split; [done|]. split; [|done].
      by apply (R_open st ("chatcmpl-" +:+ _generateRequestId tick)). }
  assert (∃ st2,
    match usageMetadata googleResponse with
    | Some _ =>
        {| ss_id := ss_id st1; ss_created := ss_created st1;
           ss_usage := Some (_parseUsage googleResponse);
           ss_toolCallIndex := ss_toolCallIndex st1;
           ss_hasFunctionCall := ss_hasFunctionCall st1;
           ss_roleSent := ss_roleSent st1 |}
    | None => st1
    end = st2
    ∧ R st [] st2 ∧ ss_id st2 = ss_id st1 ∧ ss_created st2 = ss_created st1)
    as (st2 & -> & HR2 & Hid2 & Hcr2).
  { destruct (usageMetadata googleResponse).
    - eexists. split; [done|]. split; [|done].
      change [] with (@nil CompletionChunk ++ []).
      eapply R_trans; [exact HR1|]. apply (R_usage st1 (_parseUsage googleResponse)).
    - by exists st1. }
  assert (truthyStr (ss_id st2) = true) as Hopen2 by (by rewrite Hid2).
  destruct (firstCandidate googleResponse) as [candidate|].
  - assert (∃ st3 tick3 new,
      match candidateParts candidate with
      | Some ps =>
          fold_left (convertPart modelName (ss_created st1) (ss_id st1)) ps
            (st2, tick1, [])
      | None => (st2, tick1, [])
      end = (st3, tick3, new)
      ∧ R st2 (flat_map lineChunks new) st3
      ∧ ss_id st3 = ss_id st1 ∧ ss_created st3 = ss_created st1)
      as (st3 & tick3 & new & -> & HR3 & Hid3 & Hcr3).
    { destruct (candidateParts candidate) as [ps|].
      - destruct (parts_summary ps st2 tick1 [] (ss_created st1) (ss_id st1))
          as (st3 & tick3 & new & Hfold & HR3 & Hid3 & Hcr3); [done..|].
        by exists st3, tick3, new.
      - exists st2, tick1, []. by repeat split. }
    cbn [fst snd].
    assert (∀ l, default [] (joinLines l) = l) as Hjoin by (by intros []).
    rewrite Hjoin.
    change (flat_map lineChunks new) with ([] ++ flat_map lineChunks new) in HR3.
    pose proof (R_trans _ _ _ _ _ HR2 HR3) as HR. simpl in HR.
    destruct (truthyStr (cand_finishReason candidate)) eqn:Efin; [|done].
    rewrite flat_map_app. eapply R_trans; [exact HR|]. simpl.
    rewrite <- Hid3, <- Hcr3. apply R_finish; [by rewrite Hid3 | done].
  - destruct (promptFeedback googleResponse) as [feedback|]; simpl; [|done].
    change [?x] with ([] ++ [x]). eapply R_trans; [exact HR2|].
    rewrite <- Hid2, <- Hcr2. by apply R_blocked.
Qed.

(** Over a whole stream the chunks emitted and the final state are
    related by [R]. *)
Lemma stream_summary googleChunks : ∀ st tick,
  R st
    (emittedChunks (fst (fst (translateStream googleChunks modelName st tick))))
    (snd (fst (translateStream googleChunks modelName st tick))).
Proof.
  induction googleChunks as [|googleChunk rest IH]; intros st tick; simpl.
  - apply R_refl.
  - pose proof (call_summary googleChunk st tick) as H1.
    destruct (translateGoogleToOpenAIStream googleChunk modelName (Some st) tick)
      as [[out st1] tick1].
    specialize (IH st1 tick1).
    destruct (translateStream rest modelName st1 tick1) as [[outs st2] tick2].
    simpl in *. unfold emittedChunks. simpl. by eapply R_trans.
Qed.

End Summary.
(** *** One envelope for the whole stream *)

(** The fields every chunk shares, and where a usage can appear. *)
Definition chunkShape (modelName : string) (chunk : CompletionChunk) : Prop :=
  chunk_model chunk = modelName
  ∧ chunk_object chunk = "chat.completion.chunk"
  ∧ ∃ delta finish_reason,
      chunk_choices chunk
        = [{| cc_delta := delta; cc_finish_reason := finish_reason; cc_index := 0 |}]
      ∧ (is_Some (chunk_usage chunk) → delta = emptyDelta ∧ is_Some finish_reason).

Definition streamEnvelope (modelName : string)
    (st : StreamState) (chunks : list CompletionChunk) (st' : StreamState) : Prop :=
  (truthyStr (ss_id st) = true →
   ss_id st' = ss_id st ∧ ss_created st' = ss_created st)
  ∧ (chunks ≠ [] → truthyStr (ss_id st') = true)
  ∧ Forall (fun chunk =>
              chunk_id chunk = ss_id st' ∧ chunk_created chunk = ss_created st'
              ∧ chunkShape modelName chunk) chunks.

Section Envelope.
Context {host : Host} {wire : GeminiWire}.

Lemma streamEnvelope_stream modelName googleChunks st tick :
  streamEnvelope modelName st
    (emittedChunks (fst (fst (translateStream googleChunks modelName st tick))))
    (snd (fst (translateStream googleChunks modelName st tick))).
Proof.
  apply stream_summary; unfold streamEnvelope.
  - intros s. by repeat split.
  - intros st1 st2 st3 a b (Hk1 & Hn1 & Ha) (Hk2 & Hn2 & Hb).
    assert (a ≠ [] → ss_id st3 = ss_id st2 ∧ ss_created st3 = ss_created st2) as Hkeep
      by (intros Ha'; apply Hk2, Hn1, Ha').
    split; [|split].
    + intros H1. destruct (Hk1 H1) as [Hi Hc]. rewrite <- Hi, <- Hc.
      apply Hk2. by rewrite Hi.
    + intros Hne. destruct b as [|y b]; [|by apply Hn2].
      rewrite app_nil_r in Hne. destruct (Hkeep Hne) as [-> _]. by apply Hn1.
    + apply Forall_app. split; [|done].
      destruct a as [|x a]; [constructor|].
      destruct Hkeep as [-> ->]; done.
  - intros s id created Hclosed Hid. split; [congruence|]. by split.
  - intros s u. by repeat split.
  - intros s errorText Hopen. split; [done|]. split; [done|].
    constructor; [|constructor]. repeat split.
    eexists _, _. split; [done|]. simpl. by intros [? [=]].
  - intros s tk part delta st1 tick1 Hopen Hpart.
    assert (ss_id st1 = ss_id s ∧ ss_created st1 = ss_created s) as [Hi Hc].
    { apply partDelta_Some in Hpart as [_ [(-> & _) | (-> & _)]]; by split. }
    simpl. rewrite Hi, Hc. split; [done|]. split; [done|].
    constructor; [|constructor]. repeat split.
    eexists _, _. split; [done|]. simpl. by intros [? [=]].
  - intros s reason Hopen Hreason. split; [done|]. split; [done|].
    constructor; [|constructor]. repeat split.
    eexists _, _. split; [done|]. by split; [|eexists].
Qed.

(** X16: every chunk a stream emits, from whatever state, carries the
    same non-empty [id] and the same [created], those kept in the stream
    state, the requested model, the object "chat.completion.chunk" and
    one choice of index 0; a [usage] appears only on a chunk with an
    empty delta and a finish reason. *)
Theorem stream_chunks_share_one_envelope
    (googleChunks : list (option string)) (modelName : string)
    (streamState : StreamState) (tick : nat) :
  Forall (fun chunk =>
            chunk_id chunk
              = ss_id (snd (fst (translateStream googleChunks modelName streamState tick)))
            ∧ truthyStr (chunk_id chunk) = true
            ∧ chunk_created chunk
              = ss_created (snd (fst (translateStream googleChunks modelName
                                        streamState tick)))
            ∧ chunk_model chunk = modelName
            ∧ chunk_object chunk = "chat.completion.chunk"
            ∧ ∃ delta finish_reason,
                chunk_choices chunk
                  = [{| cc_delta := delta; cc_finish_reason := finish_reason;
                        cc_index := 0 |}]
                ∧ (is_Some (chunk_usage chunk) →
                   delta = emptyDelta ∧ is_Some finish_reason))
         (emittedChunks (fst (fst (translateStream googleChunks modelName
                                     streamState tick)))).
Proof.
  destruct (streamEnvelope_stream modelName googleChunks streamState tick)
    as (_ & Hopen & Hall).
  destruct (emittedChunks _) as [|c cs]; [constructor|].
  specialize (Hopen ltac:(done)).
  eapply Forall_impl; [exact Hall|].
  intros chunk (Hi & Hc & Hm & Ho & Hshape). rewrite Hi. by repeat split.
Qed.

End Envelope.

(** *** Properties that depend on what was emitted before *)

Section Scan.
Variable mark : CompletionChunk → bool.
Variable ok : bool → CompletionChunk → Prop.

(** Every chunk is [ok] for whether a marked chunk came before it. *)
Fixpoint scan (seen : bool) (chunks : list CompletionChunk) : Prop :=
  match chunks with
  | [] => True
  | chunk :: rest => ok seen chunk ∧ scan (seen || mark chunk) rest
  end.

Lemma scan_app seen a b :
  scan seen a → scan (seen || existsb mark a) b → scan seen (a ++ b).
Proof.
  revert seen. induction a as [|x a IH]; intros seen Ha Hb; simpl in *.
  - by rewrite orb_false_r in Hb.
  - destruct Ha as [Hx Ha]. split; [done|]. apply IH; [done|].
    by rewrite <- orb_assoc.
Qed.

Lemma scan_split seen pre chunk post :
  scan seen (pre ++ chunk :: post) → ok (seen || existsb mark pre) chunk.
Proof.
  revert seen. induction pre as [|x pre IH]; intros seen; simpl.
  - rewrite orb_false_r. by intros [? _].
  - intros [_ H]. rewrite orb_assoc. by apply IH.
Qed.

(** The summary for a flag of the stream state that is set by marked
    chunks and never reset. *)
Definition flagged (flag : StreamState → bool)
    (st : StreamState) (chunks : list CompletionChunk) (st' : StreamState) : Prop :=
  flag st' = flag st || existsb mark chunks ∧ scan (flag st) chunks.

Lemma flagged_refl flag st : flagged flag st [] st.
Proof. split; [by rewrite orb_false_r | done]. Qed.

Lemma flagged_trans flag st1 st2 st3 a b :
  flagged flag st1 a st2 → flagged flag st2 b st3 → flagged flag st1 (a ++ b) st3.
Proof.
  intros [H1 Ha] [H2 Hb]. split.
  - by rewrite H2, H1, existsb_app, orb_assoc.
  - apply scan_app; [done|]. by rewrite <- H1.
Qed.

End Scan.
(** *** The assistant role is announced once *)

(** The chunk was made from a part: its choice has no finish reason. *)
Definition carriesPart (chunk : CompletionChunk) : bool :=
  forallb (fun choice => bool_decide (cc_finish_reason choice = None))
          (chunk_choices chunk).

Definition chunkRoles (chunk : CompletionChunk) : list (option string) :=
  map (fun choice => delta_role (cc_delta choice)) (chunk_choices chunk).

Definition roleOk (seen : bool) (chunk : CompletionChunk) : Prop :=
  chunkRoles chunk
  = [if carriesPart chunk && negb seen then Some "assistant" else None].

(** *** The finish reason after a tool call *)

Definition hasCalls (chunk : CompletionChunk) : bool :=
  match lineToolCalls (SseData chunk) with
  | [] => false
  | _ :: _ => true
  end.

Definition finishOk (seen : bool) (chunk : CompletionChunk) : Prop :=
  ∀ finish_reason,
    chunk_choices chunk
      = [{| cc_delta := emptyDelta; cc_finish_reason := finish_reason;
            cc_index := 0 |}] →
    finish_reason = Some "tool_calls" ↔ seen = true.

Section Flags.
Context {host : Host} {wire : GeminiWire}.

Lemma roles_stream modelName googleChunks st tick :
  flagged carriesPart roleOk ss_roleSent st
    (emittedChunks (fst (fst (translateStream googleChunks modelName st tick))))
    (snd (fst (translateStream googleChunks modelName st tick))).
Proof.
  apply stream_summary.
  - apply flagged_refl.
  - apply flagged_trans.
  - intros s id created _ _. split; [by rewrite orb_false_r | done].
  - intros s u. split; [by rewrite orb_false_r | done].
  - intros s errorText _. split; [by rewrite orb_false_r | done].
  - intros s tk part delta st1 tick1 _ Hpart.
    apply partDelta_Some in Hpart as [Hrole Hst1].
    assert (ss_roleSent st1 = ss_roleSent s) as ->
      by (by destruct Hst1 as [(-> & _) | (-> & _)]).
    split; [by rewrite orb_true_r|]. split; [|done].
    unfold roleOk, chunkRoles, withRole. simpl.
    destruct (ss_roleSent s); simpl; by rewrite ?Hrole.
  - intros s reason _ _. split; [by rewrite orb_false_r | done].
Qed.

(** X17: a chunk announces the role "assistant" exactly when it is the
    first chunk made from a part on a stream whose role was not yet
    sent; every other chunk, and every finish or block notice, carries
    no role. *)
Theorem role_is_sent_with_first_part_only
    (googleChunks : list (option string)) (modelName : string)
    (streamState : StreamState) (tick k : nat) (chunk : CompletionChunk) :
  emittedChunks (fst (fst (translateStream googleChunks modelName streamState tick)))
    !! k = Some chunk →
  chunkRoles chunk
  = [if carriesPart chunk
        && negb (ss_roleSent streamState
                 || existsb carriesPart
                      (take k (emittedChunks
                                 (fst (fst (translateStream googleChunks modelName
                                              streamState tick))))))
     then Some "assistant" else None].
Proof.
  intros Hk. destruct (roles_stream modelName googleChunks streamState tick) as [_ Hscan].
  rewrite <- (take_drop_middle _ _ _ Hk) in Hscan at 1.
  exact (scan_split carriesPart roleOk _ _ _ _ Hscan).
Qed.

Lemma mapFinishReason_range geminiReason :
  _mapFinishReason geminiReason ∈ ["length"; "stop"; "content_filter"].
Proof.
  unfold _mapFinishReason.
  repeat case_match; repeat first [apply list_elem_of_here | apply list_elem_of_further].
Qed.

Lemma calls_stream modelName googleChunks st tick :
  flagged hasCalls finishOk ss_hasFunctionCall st
    (emittedChunks (fst (fst (translateStream googleChunks modelName st tick))))
    (snd (fst (translateStream googleChunks modelName st tick))).
Proof.
  apply stream_summary.
  - apply flagged_refl.
  - apply flagged_trans.
  - intros s id created _ _. split; [by rewrite orb_false_r | done].
  - intros s u. split; [by rewrite orb_false_r | done].
  - intros s errorText _. split; [by rewrite orb_false_r|]. split; [|done].
    by intros finish_reason [=].
  - intros s tk part delta st1 tick1 _ Hpart.
    apply partDelta_Some in Hpart
      as [Hrole [(-> & _ & Hcalls & Hsome)
                | (-> & _ & _ & _ & funcCall & _ & Hcalls)]].
    + split.
      * unfold hasCalls, withRole. simpl.
        destruct (ss_roleSent s); simpl; rewrite Hcalls; simpl;
          by rewrite orb_false_r.
      * split; [|done]. intros finish_reason. unfold withRole. simpl.
        destruct (ss_roleSent s); intros [= Hdelta]; subst;
          destruct Hsome as [[? [=]] | [? [=]]]; simplify_eq/=.
        all: destruct delta; simplify_eq/=.
    + split.
      * unfold hasCalls, withRole. simpl.
        destruct (ss_roleSent s); simpl; rewrite Hcalls; simpl;
          by rewrite orb_true_r.
      * split; [|done]. intros finish_reason. unfold withRole. simpl.
        destruct (ss_roleSent s); intros [= Hdelta]; subst; simplify_eq/=.
        all: destruct delta; simplify_eq/=.
  - intros s reason _ _. split; [by rewrite orb_false_r|]. split; [|done].
    intros finish_reason [= <-].
    destruct (ss_hasFunctionCall s); [done|].
    pose proof (mapFinishReason_range reason) as Hrange.
    split; [|done]. intros [= Heq]. rewrite Heq in Hrange.
    repeat (apply elem_of_cons in Hrange as [Hrange | Hrange]; [discriminate|]).
    by apply elem_of_nil in Hrange.
Qed.

(** X18: a finish chunk (empty delta) says "tool_calls" exactly when
    the stream emitted a tool call before it, or its state already
    recorded one; in that case the finish reason of the model is not
    passed on. *)
Theorem finish_is_tool_calls_after_a_call
    (googleChunks : list (option string)) (modelName : string)
    (streamState : StreamState) (tick k : nat) (chunk : CompletionChunk)
    (finish_reason : option string) :
  emittedChunks (fst (fst (translateStream googleChunks modelName streamState tick)))
    !! k = Some chunk →
  chunk_choices chunk
    = [{| cc_delta := emptyDelta; cc_finish_reason := finish_reason;
          cc_index := 0 |}] →
  finish_reason = Some "tool_calls"
  ↔ ss_hasFunctionCall streamState
    || existsb hasCalls
         (take k (emittedChunks
                    (fst (fst (translateStream googleChunks modelName
                                 streamState tick))))) = true.
Proof.
  intros Hk Hchoices.
  destruct (calls_stream modelName googleChunks streamState tick) as [_ Hscan].
  rewrite <- (take_drop_middle _ _ _ Hk) in Hscan at 1.
  exact (scan_split hasCalls finishOk _ _ _ _ Hscan finish_reason Hchoices).
Qed.

End Flags.

Lemma role_is_sent_with_first_part_only_witness :
  ∃ first second,
    emittedChunks
      (fst (fst (translateStream (host := ExampleHost.host) (wire := ExampleHost.wire)
                   [Some "<two calls>"; Some "data: <one call, stop>"]
                   "gemini-2.5-flash-lite" emptyStreamState 0)))
      !! 0 = Some first
    ∧ emittedChunks
        (fst (fst (translateStream (host := ExampleHost.host) (wire := ExampleHost.wire)
                     [Some "<two calls>"; Some "data: <one call, stop>"]
                     "gemini-2.5-flash-lite" emptyStreamState 0)))
        !! 1 = Some second
    ∧ chunkRoles first = [Some "assistant"]
    ∧ chunkRoles second = [None].
Proof.
  eexists _, _. split; [vm_compute; reflexivity|]. split; [vm_compute; reflexivity|].
  split.
  - rewrite (role_is_sent_with_first_part_only (host := ExampleHost.host)
               (wire := ExampleHost.wire)
               [Some "<two calls>"; Some "data: <one call, stop>"]
               "gemini-2.5-flash-lite" emptyStreamState 0 0);
      vm_compute; reflexivity.
  - rewrite (role_is_sent_with_first_part_only (host := ExampleHost.host)
               (wire := ExampleHost.wire)
               [Some "<two calls>"; Some "data: <one call, stop>"]
               "gemini-2.5-flash-lite" emptyStreamState 0 1);
      vm_compute; reflexivity.
Defined.

Lemma finish_is_tool_calls_after_a_call_witness :
  ∃ chunk finish_reason,
    emittedChunks
      (fst (fst (translateStream (host := ExampleHost.host) (wire := ExampleHost.wire)
                   [Some "<two calls>"; Some "data: <one call, stop>"]
                   "gemini-2.5-flash-lite" emptyStreamState 0)))
      !! 3 = Some chunk
    ∧ chunk_choices chunk
      = [{| cc_delta := emptyDelta; cc_finish_reason := finish_reason;
            cc_index := 0 |}]
    ∧ finish_reason = Some "tool_calls".
Proof.
  eexists _, _. split; [vm_compute; reflexivity|].
  match goal with
  | |- chunk_choices ?chunk = _ ∧ _ =>
      pose proof (finish_is_tool_calls_after_a_call (host := ExampleHost.host)
                    (wire := ExampleHost.wire)
                    [Some "<two calls>"; Some "data: <one call, stop>"]
                    "gemini-2.5-flash-lite" emptyStreamState 0 3 chunk
                    (Some "tool_calls")) as Hfinish
  end.
  split; [reflexivity|]. apply Hfinish; vm_compute; reflexivity.
Defined.

End StreamFacts.

Module ConversionAgreement.
Import ResponseConverter.
Local Open Scope nat_scope.

(** What a client that appends the deltas of a stream ends up with. *)
Definition lineText (field : Delta → option string) (line : SseLine) : string :=
  match line with
  | SseDone => EmptyString
  | SseData chunk =>
      String.concat EmptyString
        (map (fun choice => default EmptyString (field (cc_delta choice)))
             (chunk_choices chunk))
  end.

Definition joined (field : Delta → option string) (lines : list SseLine) : string :=
  fold_left (fun acc line => acc +:+ lineText field line) lines EmptyString.

(** A tool call without its random [id]. *)
Definition callBody (call : ToolCallObj) : ToolCallFunctionObj * nat * string :=
  (tco_function call, tco_index call, tco_type call).

Section Agreement.
Context {host : Host} {wire : GeminiWire}.

(** The stream loop and the non-stream loop have seen the same parts. *)
Definition agree (loop : PartLoop)
    (acc : string * string * list ToolCallObj * nat) : Prop :=
  joined delta_content (snd loop) = fst (fst (fst acc))
  ∧ joined delta_reasoning_content (snd loop) = snd (fst (fst acc))
  ∧ map callBody (flat_map lineToolCalls (snd loop))
    = map callBody (snd (fst acc))
  ∧ default 0 (ss_toolCallIndex (fst (fst loop))) = length (snd (fst acc))
  ∧ ss_hasFunctionCall (fst (fst loop)) = (0 <? length (snd (fst acc))).

Lemma joined_snoc field lines delta finish created streamId modelName usage :
  joined field
    (lines ++ [SseData (mkChunk delta finish created streamId modelName usage)])
  = joined field lines +:+ default EmptyString (field delta).
Proof. unfold joined. by rewrite fold_left_app. Qed.

Lemma calls_snoc lines delta finish created streamId modelName usage :
  flat_map lineToolCalls
    (lines ++ [SseData (mkChunk delta finish created streamId modelName usage)])
  = flat_map lineToolCalls lines ++ default [] (delta_tool_calls delta).
Proof. rewrite flat_map_app. simpl. by rewrite !app_nil_r. Qed.

Lemma truthyStr_default text :
  truthyStr text = false ∨ ∃ s, text = Some s.
Proof. destruct text; [right; by eexists | by left]. Qed.

Lemma convertPart_agree modelName created streamId loop acc part :
  agree loop acc →
  agree (convertPart modelName created streamId loop part) (collectPart acc part).
Proof.
  destruct loop as [[st tick] lines]. destruct acc as [[[content reasoning] tool_calls] tk].
  unfold agree. cbn [fst snd]. intros (Hc & Hr & Hcalls & Hidx & Hflag).
  unfold convertPart, partDelta, collectPart.
  destruct (bool_decide (part_thought part = Some true)).
  { destruct (truthyStr (part_text part)) eqn:E; cbn [fst snd].
    - destruct (ss_roleSent st); cbn [fst snd];
        rewrite !joined_snoc, calls_snoc; cbn [delta_content delta_reasoning_content
          delta_tool_calls default]; rewrite app_nil_r, Hc, Hr, ClientFacts.append_empty_r;
        by repeat split.
    - rewrite ClientFacts.append_empty_r. by repeat split. }
  destruct (truthyStr (part_text part)) eqn:E; cbn [fst snd].
  { destruct (ss_roleSent st); cbn [fst snd];
      rewrite !joined_snoc, calls_snoc; cbn [delta_content delta_reasoning_content
        delta_tool_calls default]; rewrite app_nil_r, Hc, Hr, ClientFacts.append_empty_r;
      by repeat split. }
  destruct (part_inlineData part) as [image|]; cbn [fst snd].
  { destruct (ss_roleSent st); cbn [fst snd];
      rewrite !joined_snoc, calls_snoc; cbn [delta_content delta_reasoning_content
        delta_tool_calls default]; rewrite app_nil_r, Hc, Hr, ClientFacts.append_empty_r;
      by repeat split. }
  destruct (part_functionCall part) as [funcCall|]; cbn [fst snd]; [|by repeat split].
  destruct (ss_roleSent st); cbn [fst snd ss_toolCallIndex ss_hasFunctionCall];
    rewrite !joined_snoc, calls_snoc; cbn [delta_content delta_reasoning_content
      delta_tool_calls default]; rewrite !ClientFacts.append_empty_r, Hc, Hr, !map_app, Hcalls,
      length_app, Hidx; cbn [length map callBody tco_function tco_index tco_type];
    repeat split; symmetry; apply Nat.ltb_lt; lia.
Qed.

Lemma convertParts_agree modelName created streamId ps : ∀ loop acc,
  agree loop acc →
  agree (fold_left (convertPart modelName created streamId) ps loop)
        (fold_left collectPart ps acc).
Proof.
  induction ps as [|part ps IH]; intros loop acc Hagree; [done|].
  cbn [fold_left]. by apply IH, convertPart_agree.
Qed.

(** X19: for a response with a candidate, converting it as the single
    chunk of a new stream and converting it as a non-stream answer
    agree: the appended [content] deltas are the message content, the
    appended [reasoning_content] deltas are its reasoning content, the
    tool calls are the same up to their random ids, and when the
    candidate has a finish reason the last chunk of the stream carries
    the finish reason of the non-stream choice and, when the response
    has [usageMetadata], its usage. *)
Theorem one_chunk_stream_agrees_with_nonstream
    (googleChunk : option string) (googleResponse : GoogleResponse)
    (candidate : Candidate) (modelName : string) (tick tick' : nat) :
  readChunk googleChunk = ResponseChunk googleResponse →
  firstCandidate googleResponse = Some candidate →
  ∃ message finish_reason,
    choices (fst (convertGoogleToOpenAINonStream googleResponse modelName tick'))
      = [{| ch_finish_reason := finish_reason; ch_index := 0;
            ch_message := message |}]
    ∧ joined delta_content
        (default [] (fst (fst (translateGoogleToOpenAIStream googleChunk modelName
                                 None tick))))
      = cm_content message
    ∧ joined delta_reasoning_content
        (default [] (fst (fst (translateGoogleToOpenAIStream googleChunk modelName
                                 None tick))))
      = default EmptyString (cm_reasoning_content message)
    ∧ map callBody
        (flat_map lineToolCalls
           (default [] (fst (fst (translateGoogleToOpenAIStream googleChunk modelName
                                    None tick)))))
      = map callBody (default [] (cm_tool_calls message))
    ∧ (truthyStr (cand_finishReason candidate) = true →
       ∃ front last,
         fst (fst (translateGoogleToOpenAIStream googleChunk modelName None tick))
           = Some (front ++ [SseData last])
         ∧ map cc_finish_reason (chunk_choices last) = [Some finish_reason]
         ∧ (is_Some (usageMetadata googleResponse) →
            chunk_usage last
            = Some (usage (fst (convertGoogleToOpenAINonStream googleResponse
                                  modelName tick'))))).
Proof.
  intros Hread Hfirst.
  unfold translateGoogleToOpenAIStream, convertGoogleToOpenAINonStream.
  rewrite Hread, Hfirst. cbn [default emptyStreamState ss_id truthyStr].
  set (st2 := match usageMetadata googleResponse with Some _ => _ | None => _ end).
  assert (default 0 (ss_toolCallIndex st2) = 0 ∧ ss_hasFunctionCall st2 = false
          ∧ (is_Some (usageMetadata googleResponse) →
             ss_usage st2 = Some (_parseUsage googleResponse))) as (Hidx & Hflag & Husage).
  { subst st2. destruct (usageMetadata googleResponse); repeat split; by intros [? [=]]. }
  clearbody st2.
  set (created := ss_created _). set (streamId := Some ("chatcmpl-" +:+ _)).
  assert (∃ loop acc,
    match candidateParts candidate with
    | Some ps =>
        fold_left (convertPart modelName created streamId) ps (st2, S (S tick), [])
    | None => (st2, S (S tick), [])
    end = loop
    ∧ match candidateParts candidate with
      | Some ps => fold_left collectPart ps (EmptyString, EmptyString, [], tick')
      | None => (EmptyString, EmptyString, [], tick')
      end = acc
    ∧ agree loop acc
    ∧ ss_usage (fst (fst loop)) = ss_usage st2)
    as (loop & acc & -> & -> & Hagree & Hsame).
  { assert (agree (st2, S (S tick), []) (EmptyString, EmptyString, [], tick')) as H0
      by (unfold agree; cbn [fst snd]; by rewrite Hidx, Hflag).
    destruct (candidateParts candidate) as [ps|].
    - eexists _, _. split; [done|]. split; [done|].
      split; [by apply convertParts_agree|].
      clear. generalize (S (S tick)) (@nil SseLine). revert st2.
      induction ps as [|part ps IH]; intros st tk lines; [done|].
      cbn [fold_left]. unfold convertPart at 2.
      destruct (partDelta st tk part) as [[[delta|] st1] tk1] eqn:E.
      + rewrite IH. cbn [ss_usage].
        apply StreamFacts.partDelta_Some in E as [_ [(-> & _) | (-> & _)]]; done.
      + apply StreamFacts.partDelta_None in E as [-> ->]. apply IH.
    - by eexists _, _. }
  destruct loop as [[st3 tick3] lines]. destruct acc as [[[content reasoning] tool_calls] tk].
  unfold agree in Hagree. cbn [fst snd] in Hagree, Hsame.
  destruct Hagree as (Hc & Hr & Hcalls & _ & Hcall).
  cbn [fst snd]. eexists _, _. split; [reflexivity|]. cbn [cm_content
    cm_reasoning_content cm_tool_calls].
  assert (∀ l, default [] (joinLines l) = l) as Hjoin by (by intros []).
  rewrite Hjoin.
  assert (default EmptyString
            (if String.eqb reasoning EmptyString then None else Some reasoning)
          = reasoning) as ->.
  { destruct (String.eqb reasoning EmptyString) eqn:E; [|done].
    by apply String.eqb_eq in E. }
  assert (default [] match tool_calls with [] => None | _ :: _ => Some tool_calls end
          = tool_calls) as -> by (by destruct tool_calls).
  destruct (truthyStr (cand_finishReason candidate)) eqn:Efin.
  - rewrite !joined_snoc, calls_snoc. cbn [emptyDelta delta_content
      delta_reasoning_content delta_tool_calls default].
    rewrite !ClientFacts.append_empty_r, app_nil_r.
    repeat split; [done..|]. intros _. eexists lines, _.
    split; [by destruct lines|]. split.
    + cbn [mkChunk chunk_choices map cc_finish_reason]. rewrite Hcall.
      by destruct tool_calls.
    + intros Hum. cbn [mkChunk chunk_usage usage]. rewrite Hsame. by apply Husage.
  - by repeat split.
Qed.


End Agreement.

Lemma one_chunk_stream_agrees_with_nonstream_witness :
  ∃ message finish_reason,
    choices (fst (convertGoogleToOpenAINonStream (host := ExampleHost.host)
                    (ExampleHost.modelTurn [ExampleHost.callPart "get_news"] (Some "STOP"))
                    "gemini-2.5-flash-lite" 7))
      = [{| ch_finish_reason := finish_reason; ch_index := 0;
            ch_message := message |}]
    ∧ finish_reason = "tool_calls"
    ∧ map callBody
        (flat_map lineToolCalls
           (default [] (fst (fst (translateGoogleToOpenAIStream
                                    (host := ExampleHost.host) (wire := ExampleHost.wire)
                                    (Some "data: <one call, stop>")
                                    "gemini-2.5-flash-lite" None 0)))))
      = map callBody (default [] (cm_tool_calls message)).
Proof.
  destruct (one_chunk_stream_agrees_with_nonstream (host := ExampleHost.host)
              (wire := ExampleHost.wire) (Some "data: <one call, stop>")
              (ExampleHost.modelTurn [ExampleHost.callPart "get_news"] (Some "STOP"))
              _ "gemini-2.5-flash-lite" 0 7 eq_refl eq_refl)
    as (message & finish_reason & Hchoices & _ & _ & Hcalls & _).
  exists message, finish_reason. split; [exact Hchoices|]. split; [|exact Hcalls].
  vm_compute in Hchoices. by injection Hchoices as <- _.
Defined.

End ConversionAgreement.

Module ClientProtocol.
Import Client.
Local Open Scope nat_scope.

Definition frameId (frame : Frame) : string :=
  match frame with
  | ResponseHeadersFrame request_id _ _ | ChunkFrame request_id _
  | StreamCloseFrame request_id | ErrorFrame request_id _ _ => request_id
  end.

(** A frame that ends the exchange: [stream_close] or [error]. *)
Definition isTerminal (frame : Frame) : bool :=
  match frame with
  | StreamCloseFrame _ | ErrorFrame _ _ _ => true
  | _ => false
  end.

Definition isHeaders (frame : Frame) : bool :=
  match frame with
  | ResponseHeadersFrame _ _ _ => true
  | _ => false
  end.

(** A chunk frame, which never carries empty data. *)
Definition isChunk (frame : Frame) : bool :=
  match frame with
  | ChunkFrame _ data => negb (String.eqb data EmptyString)
  | _ => false
  end.

(** The data of the chunk frames, concatenated. *)
Definition payload (frames : list Frame) : string :=
  foldr (fun frame acc =>
           match frame with
           | ChunkFrame _ data => data +:+ acc
           | _ => acc
           end) EmptyString frames.

(** The frames that are not chunks. *)
Definition control (frames : list Frame) : list Frame :=
  List.filter (fun frame => match frame with ChunkFrame _ _ => false | _ => true end)
              frames.

Definition withMode (mode : string) (requestSpec : RequestSpec) : RequestSpec :=
  {| request_id := request_id requestSpec; method := method requestSpec;
     path := path requestSpec; url := url requestSpec;
     query_params := query_params requestSpec; headers := headers requestSpec;
     streaming_mode := Some mode |}.

(** The body, if one is read, is read to its end. *)
Definition readToEnd (up : Upstream) : Prop :=
  match outcome up with
  | Fetched response => resp_readError response = None
  | _ => True
  end.

Section Frames.
Context {host : Host} {urlHost : UrlHost}.

Lemma transmitChunk_chunks data operationId :
  Forall (fun frame => isChunk frame = true ∧ frameId frame = operationId)
         (_transmitChunk data operationId).
Proof.
  unfold _transmitChunk. destruct (String.eqb data EmptyString) eqn:E; [constructor|].
  constructor; [|constructor]. simpl. by rewrite E.
Qed.

Lemma readBody_chunks mode operationId reads : ∀ fullBody,
  Forall (fun frame => isChunk frame = true ∧ frameId frame = operationId)
         (fst (readBody mode operationId reads fullBody)).
Proof.
  induction reads as [|chunk rest IH]; intros fullBody; simpl; [constructor|].
  destruct (String.eqb mode "real"); [|apply IH].
  specialize (IH fullBody).
  destruct (readBody mode operationId rest fullBody) as [frames body]. simpl in *.
  apply Forall_app. split; [apply transmitChunk_chunks | done].
Qed.

Lemma sendErrorResponse_frame error operationId :
  operationId ≠ EmptyString →
  ∃ status message,
    _sendErrorResponse error operationId = [ErrorFrame operationId status message].
Proof.
  intros Hid. unfold _sendErrorResponse.
  destruct (String.eqb operationId EmptyString) eqn:E;
    [by apply String.eqb_eq in E | by eexists _, _].
Qed.

(** X21: for a descriptor with a request id, whatever happens upstream
    (cancelled, fetch rejected, idle timeout, error status, read error
    or success), the frames end with exactly one terminal frame
    ([stream_close] or [error]) and hold no other; all frames carry the
    request id; and before the terminal frame there is either nothing,
    or the response headers followed only by chunks with data. *)
Theorem frames_end_with_one_terminal_frame
    (requestSpec : RequestSpec) (up : Upstream) :
  request_id requestSpec ≠ EmptyString →
  ∃ body last,
    _processProxyRequest requestSpec up = body ++ [last]
    ∧ isTerminal last = true
    ∧ frameId last = request_id requestSpec
    ∧ Forall (fun frame => isTerminal frame = false
                           ∧ frameId frame = request_id requestSpec) body
    ∧ (body = []
       ∨ ∃ first chunks,
           body = first :: chunks ∧ isHeaders first = true
           ∧ Forall (fun frame => isChunk frame = true) chunks).
Proof.
  intros Hid. unfold _processProxyRequest.
  assert (∀ error, ∃ body last,
            _sendErrorResponse error (request_id requestSpec) = body ++ [last]
            ∧ isTerminal last = true ∧ frameId last = request_id requestSpec
            ∧ Forall (fun frame => isTerminal frame = false
                                   ∧ frameId frame = request_id requestSpec) body
            ∧ (body = []
               ∨ ∃ first chunks,
                   body = first :: chunks ∧ isHeaders first = true
                   ∧ Forall (fun frame => isChunk frame = true) chunks)) as Herror.
  { intros error.
    destruct (sendErrorResponse_frame error _ Hid) as (status & message & ->).
    exists [], (ErrorFrame (request_id requestSpec) status message).
    repeat split; [constructor | by left]. }
  destruct (cancelledBefore up); [apply Herror|].
  destruct (execute (outcome up)) as [response|error]; [|apply Herror].
  destruct (cancelledAfter up); [apply Herror|].
  set (mode := match streaming_mode requestSpec with Some _ => _ | None => _ end).
  pose proof (readBody_chunks mode (request_id requestSpec) (resp_reads response)
                EmptyString) as Hchunks.
  destruct (readBody mode (request_id requestSpec) (resp_reads response) EmptyString)
    as [frames fullBody]. cbn [fst] in Hchunks.
  unfold _transmitHeaders. cbn [app].
  assert (∀ chunks last,
            Forall (fun frame => isChunk frame = true
                                 ∧ frameId frame = request_id requestSpec) chunks →
            isTerminal last = true → frameId last = request_id requestSpec →
            ∃ body last',
              ResponseHeadersFrame (request_id requestSpec) (resp_status response)
                (map (rewriteHeader (headers requestSpec ≫= (fun h => h !! "host")))
                     (resp_headers response))
                :: chunks ++ [last] = body ++ [last']
              ∧ isTerminal last' = true ∧ frameId last' = request_id requestSpec
              ∧ Forall (fun frame => isTerminal frame = false
                                     ∧ frameId frame = request_id requestSpec) body
              ∧ (body = []
                 ∨ ∃ first chunks',
                     body = first :: chunks' ∧ isHeaders first = true
                     ∧ Forall (fun frame => isChunk frame = true) chunks')) as Hok.
  { intros chunks last Hall Hterm Hlast.
    exists (ResponseHeadersFrame (request_id requestSpec) (resp_status response)
              (map (rewriteHeader (headers requestSpec ≫= (fun h => h !! "host")))
                   (resp_headers response)) :: chunks), last.
    split; [done|]. split; [done|]. split; [done|]. split.
    - constructor; [done|]. eapply Forall_impl; [exact Hall|].
      intros frame [Hc Hf]. split; [|done]. by destruct frame.
    - right. eexists _, chunks. split; [done|]. split; [done|].
      eapply Forall_impl; [exact Hall|]. by intros frame [Hc _]. }
  destruct (resp_readError response) as [error|].
  - destruct (sendErrorResponse_frame error _ Hid) as (status & message & ->).
    by apply Hok.
  - unfold _transmitStreamEnd. rewrite !app_assoc.
    apply Hok; [|done..]. apply Forall_app. split; [done|].
    destruct (String.eqb mode "fake"); [apply transmitChunk_chunks | constructor].
Qed.

(** *** The bytes forwarded do not depend on the streaming mode *)

Lemma payload_app a b :
  payload (a ++ b) = payload a +:+ payload b.
Proof.
  induction a as [|frame a IH]; [done|]. simpl. rewrite IH.
  destruct frame; try done. by rewrite ClientFacts.append_assoc.
Qed.

Lemma control_app a b : control (a ++ b) = control a ++ control b.
Proof. apply List.filter_app. Qed.

Lemma transmitChunk_payload data operationId :
  payload (_transmitChunk data operationId) = data
  ∧ control (_transmitChunk data operationId) = [].
Proof.
  unfold _transmitChunk. destruct (String.eqb data EmptyString) eqn:E; simpl.
  - apply String.eqb_eq in E. by subst.
  - by rewrite ClientFacts.append_empty_r.
Qed.

Lemma readBody_real operationId reads : ∀ fullBody,
  payload (fst (readBody "real" operationId reads fullBody))
    = ClientFacts.wholeBody reads
  ∧ control (fst (readBody "real" operationId reads fullBody)) = []
  ∧ snd (readBody "real" operationId reads fullBody) = fullBody.
Proof.
  induction reads as [|chunk rest IH]; intros fullBody; [done|].
  cbn [readBody]. change (String.eqb "real" "real") with true. cbv iota.
  specialize (IH fullBody).
  destruct (readBody "real" operationId rest fullBody) as [frames body].
  cbn [fst snd] in *. destruct IH as (Hp & Hc & Hb).
  destruct (transmitChunk_payload chunk operationId) as [Hp1 Hc1].
  by rewrite payload_app, control_app, Hp, Hc, Hp1, Hc1.
Qed.

(** X22: when the body, if there is one, is read to its end, the
    "real" and the "fake" streaming mode forward the same bytes (the
    concatenated chunk data, which is the whole body read) and the same
    control frames: they differ only in how the body is cut into
    chunks. *)
Theorem real_and_fake_forward_the_same_bytes
    (requestSpec : RequestSpec) (up : Upstream) :
  readToEnd up →
  payload (_processProxyRequest (withMode "real" requestSpec) up)
    = payload (_processProxyRequest (withMode "fake" requestSpec) up)
  ∧ control (_processProxyRequest (withMode "real" requestSpec) up)
    = control (_processProxyRequest (withMode "fake" requestSpec) up)
  ∧ (∀ response,
       cancelledBefore up = false → cancelledAfter up = false →
       execute (outcome up) = inl response →
       payload (_processProxyRequest (withMode "real" requestSpec) up)
       = ClientFacts.wholeBody (resp_reads response)).
Proof.
  intros Hend. unfold _processProxyRequest.
  cbn [withMode request_id streaming_mode headers].
  change (if String.eqb "real" EmptyString then "fake" else "real") with "real".
  change (if String.eqb "fake" EmptyString then "fake" else "fake") with "fake".
  destruct (cancelledBefore up); [by repeat split|].
  destruct (execute (outcome up)) as [response|error] eqn:Eexec; [|by repeat split].
  destruct (cancelledAfter up); [by repeat split|].
  assert (resp_readError response = None) as Hnone.
  { unfold readToEnd in Hend. unfold execute in Eexec.
    destruct (outcome up) as [r|e|]; [|done..].
    destruct (resp_ok r); by simplify_eq. }
  rewrite Hnone.
  destruct (readBody_real (request_id requestSpec) (resp_reads response) EmptyString)
    as (Hp & Hc & Hb).
  destruct (readBody "real" (request_id requestSpec) (resp_reads response) EmptyString)
    as [frames fullBody]. cbn [fst snd] in *.
  rewrite (ClientFacts.readBody_accumulates "fake") by done.
  change (String.eqb "real" "fake") with false.
  change (String.eqb "fake" "fake") with true. cbv iota.
  destruct (transmitChunk_payload (EmptyString +:+ ClientFacts.wholeBody (resp_reads response))
              (request_id requestSpec)) as [Hp1 Hc1].
  rewrite !payload_app, !control_app, Hp, Hc, Hp1, Hc1.
  cbn [app payload control _transmitHeaders _transmitStreamEnd foldr List.filter].
  rewrite !ClientFacts.append_empty_r.
  split; [done|]. split; [done|]. by intros r _ _ [= <-].
Qed.

End Frames.

Definition sampleRequest : RequestSpec :=
  {| request_id := "req-7"; method := Some "POST";
     path := Some "/v1beta/models/gemini-2.5-flash:streamGenerateContent";
     url := None; query_params := []; headers := None;
     streaming_mode := None |}.

Definition sampleUpstream : Upstream :=
  {| cancelledBefore := false;
     outcome :=
       Fetched {| resp_ok := true; resp_status := 200; resp_statusText := "OK";
                  resp_headers := []; resp_reads := ["ab"; EmptyString; "c"];
                  resp_readError := None; resp_text := EmptyString |};
     cancelledAfter := false |}.

Lemma frames_end_with_one_terminal_frame_witness :
  ∃ body last,
    _processProxyRequest (host := ExampleHost.host) (urlHost := ExampleHost.urlHost)
      sampleRequest sampleUpstream = body ++ [last]
    ∧ isTerminal last = true
    ∧ frameId last = "req-7"
    ∧ Forall (fun frame => isTerminal frame = false ∧ frameId frame = "req-7") body
    ∧ (body = []
       ∨ ∃ first chunks,
           body = first :: chunks ∧ isHeaders first = true
           ∧ Forall (fun frame => isChunk frame = true) chunks).
Proof.
  apply (frames_end_with_one_terminal_frame (host := ExampleHost.host)
           (urlHost := ExampleHost.urlHost) sampleRequest sampleUpstream).
  discriminate.
Defined.

Lemma real_and_fake_forward_the_same_bytes_witness :
  payload (_processProxyRequest (host := ExampleHost.host)
             (urlHost := ExampleHost.urlHost)
             (withMode "real" sampleRequest) sampleUpstream) = "abc"
  ∧ payload (_processProxyRequest (host := ExampleHost.host)
               (urlHost := ExampleHost.urlHost)
               (withMode "fake" sampleRequest) sampleUpstream) = "abc".
Proof.
  destruct (real_and_fake_forward_the_same_bytes (host := ExampleHost.host)
              (urlHost := ExampleHost.urlHost) sampleRequest sampleUpstream eq_refl)
    as (Hsame & _ & Hwhole).
  rewrite <- Hsame. split; apply (Hwhole _ eq_refl eq_refl eq_refl).
Defined.

(** *** The constructed URL *)

Section Url.
Context {host : Host} {urlHost : UrlHost}.






End Url.

End ClientProtocol.

Module WebRoutesFacts.
Import WebRoutes.
Local Open Scope Z_scope.

(** *** Login rate limiting *)

(** [RATE_LIMIT_WINDOW], in milliseconds. *)
Definition window (limit : RateLimit) : Z := rateLimitWindow limit * 60 * 1000.

Definition rejected : LoginResponse :=
  {| location := "/login?error=2"; isAuthenticated := false |}.

(** The address has used up its attempts, and its window ends at
    [until]. *)
Definition locked (limit : RateLimit) (loginAttempts : gmap string Attempts)
    (ip : string) (until : Z) : Prop :=
  ∃ attempts,
    loginAttempts !! ip = Some attempts
    ∧ rateLimitMaxAttempts limit ≤ count attempts
    ∧ firstAttempt attempts + window limit = until.

Definition fromAddress (ip : string) (request : LoginRequest) : bool :=
  String.eqb (login_ip request) ip.

Section RateLimiting.
Variable limit : RateLimit.
Variable apiKeys : list string.
Hypothesis enabled : rateLimitEnabled limit = true.

(** A request from another address leaves the record of [ip] alone,
    unless it draws the cleanup after the window of [ip] has ended. *)
Lemma attemptsOf_Some (loginAttempts : gmap string Attempts) ip now attempts :
  loginAttempts !! ip = Some attempts → attemptsOf loginAttempts ip now = attempts.
Proof. unfold attemptsOf. by intros ->. Qed.

Lemma attemptsOf_None (loginAttempts : gmap string Attempts) ip now :
  loginAttempts !! ip = None →
  attemptsOf loginAttempts ip now
  = {| count := 0; firstAttempt := now; lastAttempt := 0 |}.
Proof. unfold attemptsOf. by intros ->. Qed.

Lemma checkRateLimit_other loginAttempts request ip :
  login_ip request ≠ ip →
  fst (checkRateLimit limit request loginAttempts) !! ip = loginAttempts !! ip.
Proof.
  intros Hne. unfold checkRateLimit. rewrite enabled.
  case_bool_decide; [|done]. cbn [fst].
  destruct (loginAttempts !! login_ip request); [|done].
  by rewrite lookup_insert_ne.
Qed.

Lemma checkKey_other loginAttempts request ip :
  login_ip request ≠ ip →
  (∀ attempts, loginAttempts !! ip = Some attempts →
               login_now request ≤ firstAttempt attempts + window limit) →
  fst (checkKey limit apiKeys request loginAttempts) !! ip = loginAttempts !! ip.
Proof.
  intros Hne Hnow. unfold checkKey. rewrite enabled.
  destruct (keyAccepted apiKeys (login_apiKey request)); cbn [fst].
  - by rewrite lookup_delete_ne.
  - destruct (cleanupDrawn request); [|by rewrite lookup_insert_ne].
    unfold _cleanupExpiredAttempts.
    destruct (loginAttempts !! ip) as [a|] eqn:E.
    + apply map_lookup_filter_Some. split.
      * by rewrite lookup_insert_ne.
      * cbn. specialize (Hnow a eq_refl). unfold window in Hnow. lia.
    + apply map_lookup_filter_None. left. by rewrite lookup_insert_ne.
Qed.

Lemma login_other loginAttempts request ip :
  login_ip request ≠ ip →
  (∀ attempts, loginAttempts !! ip = Some attempts →
               login_now request ≤ firstAttempt attempts + window limit) →
  fst (login limit apiKeys loginAttempts request) !! ip = loginAttempts !! ip.
Proof.
  intros Hne Hnow. unfold login.
  pose proof (checkRateLimit_other loginAttempts request ip Hne) as Hcheck.
  destruct (checkRateLimit limit request loginAttempts) as [m limited].
  cbn [fst] in Hcheck. destruct limited; [done|].
  rewrite checkKey_other; [done | done |]. rewrite Hcheck. exact Hnow.
Qed.

(** A locked address is turned away before the key is looked at, and
    stays locked until its window ends. *)
Lemma login_locked loginAttempts request ip until :
  locked limit loginAttempts ip until →
  login_now request ≤ until →
  locked limit (fst (login limit apiKeys loginAttempts request)) ip until
  ∧ (login_ip request = ip →
     login limit apiKeys loginAttempts request = (loginAttempts, rejected)).
Proof.
  intros (a & Ha & Hmax & Huntil) Hnow.
  destruct (decide (login_ip request = ip)) as [Hip|Hne].
  - assert (login limit apiKeys loginAttempts request = (loginAttempts, rejected)) as Heq.
    { unfold login, checkRateLimit.
      rewrite enabled, Hip, (attemptsOf_Some _ _ _ _ Ha).
      rewrite bool_decide_eq_false_2 by (unfold window in Huntil; lia).
      by rewrite bool_decide_eq_true_2 by lia. }
    split; [|done]. rewrite Heq. by exists a.
  - split; [|done]. exists a. split; [|done].
    rewrite login_other; [done | done |].
    intros a' Ha'. simplify_eq. lia.
Qed.

(** X24: once an address has used up its attempts, every login from it
    until the end of its window is redirected to [/login?error=2],
    whatever key it sends, and the address stays locked; requests from
    other addresses, and the cleanup they may trigger, do not unlock
    it. *)
Theorem locked_address_is_rejected_until_window_ends
    (loginAttempts : gmap string Attempts) (ip : string) (until : Z)
    (requests : list LoginRequest) :
  locked limit loginAttempts ip until →
  Forall (fun request => login_now request ≤ until) requests →
  locked limit (fst (logins limit apiKeys loginAttempts requests)) ip until
  ∧ Forall2 (fun request response => login_ip request = ip → response = rejected)
            requests (snd (logins limit apiKeys loginAttempts requests)).
Proof.
  intros Hlocked Htimes. revert loginAttempts Hlocked.
  induction Htimes as [|request rest Hnow _ IH]; intros loginAttempts Hlocked.
  - split; [done | constructor].
  - cbn [logins].
    destruct (login_locked loginAttempts request ip until Hlocked Hnow) as [Hl Hr].
    destruct (login limit apiKeys loginAttempts request) as [m response].
    cbn [fst] in Hl. destruct (IH m Hl) as [Hl' Hall].
    destruct (logins limit apiKeys m rest) as [m' responses]. cbn [fst snd] in *.
    split; [done|]. constructor; [|done].
    intros Hip. by injection (Hr Hip).
Qed.

(** *** How an address gets locked *)

Hypothesis positive : 1 ≤ rateLimitMaxAttempts limit.
Hypothesis window_nonnegative : 0 ≤ window limit.

(** The record of [ip] after [n] failed logins, the first at [start]. *)
Definition counted (loginAttempts : gmap string Attempts) (ip : string)
    (start : Z) (n : nat) : Prop :=
  ∃ attempts,
    loginAttempts !! ip = Some attempts
    ∧ firstAttempt attempts = start
    ∧ count attempts = Z.min (Z.of_nat n) (rateLimitMaxAttempts limit).

Lemma login_first loginAttempts request :
  loginAttempts !! login_ip request = None →
  keyAccepted apiKeys (login_apiKey request) = false →
  counted (fst (login limit apiKeys loginAttempts request)) (login_ip request)
          (login_now request) 1.
Proof.
  intros Hnone Hkey. unfold login, checkRateLimit, checkKey.
  rewrite enabled, (attemptsOf_None _ _ _ Hnone). cbn [firstAttempt count].
  rewrite bool_decide_eq_false_2 by (unfold window in window_nonnegative; lia).
  rewrite bool_decide_eq_false_2 by lia.
  rewrite Hkey, (attemptsOf_None _ _ _ Hnone). cbn [fst count firstAttempt].
  exists {| count := 0 + 1; firstAttempt := login_now request;
            lastAttempt := login_now request |}.
  split; [|split; [done | cbn; lia]].
  destruct (cleanupDrawn request); [|by rewrite lookup_insert_eq].
  apply map_lookup_filter_Some. split; [by rewrite lookup_insert_eq|].
  cbn. unfold window in window_nonnegative. lia.
Qed.

Lemma login_again loginAttempts request start n :
  counted loginAttempts (login_ip request) start n →
  login_now request ≤ start + window limit →
  keyAccepted apiKeys (login_apiKey request) = false →
  counted (fst (login limit apiKeys loginAttempts request)) (login_ip request)
          start (S n).
Proof.
  intros (a & Ha & Hstart & Hcount) Hnow Hkey.
  unfold login, checkRateLimit, checkKey.
  rewrite enabled, (attemptsOf_Some _ _ _ _ Ha).
  rewrite bool_decide_eq_false_2 by (unfold window in Hnow; lia).
  case_bool_decide as Hlimited.
  - exists a. cbn [fst]. split; [done|]. split; [done|]. lia.
  - rewrite Hkey, (attemptsOf_Some _ _ _ _ Ha). cbn [fst].
    exists {| count := count a + 1; firstAttempt := firstAttempt a;
              lastAttempt := login_now request |}.
    split; [|split; [done | cbn; lia]].
    destruct (cleanupDrawn request); [|by rewrite lookup_insert_eq].
    apply map_lookup_filter_Some. split; [by rewrite lookup_insert_eq|].
    cbn. unfold window in Hnow. lia.
Qed.

Lemma logins_counted requests : ∀ loginAttempts ip start n,
  counted loginAttempts ip start n →
  Forall (fun request => login_now request ≤ start + window limit) requests →
  Forall (fun request => login_ip request = ip →
                         keyAccepted apiKeys (login_apiKey request) = false) requests →
  counted (fst (logins limit apiKeys loginAttempts requests)) ip start
          (n + length (List.filter (fromAddress ip) requests)).
Proof.
  induction requests as [|request rest IH]; intros loginAttempts ip start n Hc Ht Hk.
  - cbn. by rewrite Nat.add_0_r.
  - apply Forall_cons in Ht as [Hnow Ht]. apply Forall_cons in Hk as [Hkey Hk].
    cbn [logins List.filter].
    assert (counted (fst (login limit apiKeys loginAttempts request)) ip start
              (if fromAddress ip request then S n else n)) as Hstep.
    { unfold fromAddress. destruct (String.eqb (login_ip request) ip) eqn:E.
      - apply String.eqb_eq in E. subst ip. by apply login_again; [| |apply Hkey].
      - apply String.eqb_neq in E. destruct Hc as (a & Ha & Hs & Hcnt).
        exists a. split; [|done]. rewrite login_other; [done | done |].
        intros a' Ha'. simplify_eq. lia. }
    destruct (login limit apiKeys loginAttempts request) as [m response].
    cbn [fst] in Hstep. specialize (IH m ip start _ Hstep Ht Hk).
    destruct (logins limit apiKeys m rest) as [m' responses]. cbn [fst] in *.
    destruct (fromAddress ip request); cbn [length];
      [by rewrite Nat.add_succ_r | done].
Qed.

Lemma logins_absent requests : ∀ loginAttempts ip,
  loginAttempts !! ip = None →
  Forall (fun request => login_ip request ≠ ip) requests →
  fst (logins limit apiKeys loginAttempts requests) !! ip = None.
Proof.
  induction requests as [|request rest IH]; intros loginAttempts ip Hnone Hother; [done|].
  apply Forall_cons in Hother as [Hne Hother]. cbn [logins].
  pose proof (login_other loginAttempts request ip Hne) as Hstep.
  rewrite Hnone in Hstep. specialize (Hstep ltac:(done)).
  destruct (login limit apiKeys loginAttempts request) as [m response]. cbn [fst] in Hstep.
  specialize (IH m ip Hstep Hother).
  by destruct (logins limit apiKeys m rest) as [m' responses].
Qed.

Lemma logins_app a b loginAttempts :
  fst (logins limit apiKeys loginAttempts (a ++ b))
  = fst (logins limit apiKeys (fst (logins limit apiKeys loginAttempts a)) b).
Proof.
  revert loginAttempts. induction a as [|request a IH]; intros loginAttempts; [done|].
  cbn [app logins].
  destruct (login limit apiKeys loginAttempts request) as [m response].
  specialize (IH m).
  destruct (logins limit apiKeys m (a ++ b)) as [m1 r1].
  destruct (logins limit apiKeys m a) as [m2 r2]. done.
Qed.

(** X25: starting with no record for an address, its failed logins are
    counted from the first one, up to the maximum: after the requests,
    the record of the address starts at the time of its first failed
    login and counts its failed logins, capped at the maximum, as long
    as all of them fall into the window that the first one opened;
    requests from other addresses in between do not change the count. *)
Theorem failed_logins_are_counted_from_the_first
    (loginAttempts : gmap string Attempts) (ip : string)
    (before : list LoginRequest) (first : LoginRequest) (after : list LoginRequest) :
  loginAttempts !! ip = None →
  Forall (fun request => login_ip request ≠ ip) before →
  login_ip first = ip →
  Forall (fun request => login_now request ≤ login_now first + window limit) after →
  Forall (fun request => login_ip request = ip →
                         keyAccepted apiKeys (login_apiKey request) = false)
         (first :: after) →
  ∃ attempts,
    fst (logins limit apiKeys loginAttempts (before ++ first :: after)) !! ip
      = Some attempts
    ∧ firstAttempt attempts = login_now first
    ∧ count attempts
      = Z.min (Z.of_nat (S (length (List.filter (fromAddress ip) after))))
              (rateLimitMaxAttempts limit).
Proof.
  intros Hnone Hbefore Hip Hafter Hkeys.
  apply Forall_cons in Hkeys as [Hkey Hkeys].
  rewrite logins_app.
  pose proof (logins_absent before loginAttempts ip Hnone Hbefore) as Habsent.
  set (m := fst (logins limit apiKeys loginAttempts before)) in *.
  cbn [logins]. subst ip.
  pose proof (login_first m first Habsent (Hkey eq_refl)) as Hfirst.
  destruct (login limit apiKeys m first) as [m1 response]. cbn [fst] in Hfirst.
  pose proof (logins_counted after m1 (login_ip first) (login_now first) 1
                Hfirst Hafter Hkeys) as Hcounted.
  destruct (logins limit apiKeys m1 after) as [m2 responses]. cbn [fst] in *.
  exact Hcounted.
Qed.

End RateLimiting.
Definition twoAttempts : RateLimit :=
  {| rateLimitEnabled := true; rateLimitWindow := 15; rateLimitMaxAttempts := 2 |}.

Definition attempt (ip : string) (now : Z) (key : string) : LoginRequest :=
  {| login_ip := ip; login_now := now; login_apiKey := Some key;
     regenerateFails := false; cleanupDrawn := true |}.

Lemma locked_address_is_rejected_until_window_ends_witness :
  Forall2 (fun request response => login_ip request = "10.0.0.7" → response = rejected)
    [attempt "10.0.0.8" 5000 "guess"; attempt "10.0.0.7" 6000 "secret"]
    (snd (logins twoAttempts ["secret"]
            {["10.0.0.7" := {| count := 2; firstAttempt := 1000; lastAttempt := 2000 |}]}
            [attempt "10.0.0.8" 5000 "guess"; attempt "10.0.0.7" 6000 "secret"])).
Proof.
  apply (locked_address_is_rejected_until_window_ends twoAttempts ["secret"] eq_refl
           {["10.0.0.7" := {| count := 2; firstAttempt := 1000; lastAttempt := 2000 |}]}
           "10.0.0.7" 901000).
  - eexists. split; [apply lookup_singleton_eq|]. split; [cbn; lia | reflexivity].
  - repeat constructor; cbn; lia.
Defined.

Lemma failed_logins_are_counted_from_the_first_witness :
  ∃ attempts,
    fst (logins twoAttempts ["secret"] ∅
           ([] ++ attempt "10.0.0.7" 1000 "guess"
               :: [attempt "10.0.0.7" 2000 "again"; attempt "10.0.0.8" 2500 "secret";
                   attempt "10.0.0.7" 3000 "third"])) !! "10.0.0.7"
      = Some attempts
    ∧ firstAttempt attempts = 1000
    ∧ count attempts = 2.
Proof.
  apply (failed_logins_are_counted_from_the_first twoAttempts ["secret"] eq_refl
           ltac:(cbn; lia) ltac:(unfold window; cbn; lia) ∅ "10.0.0.7" []
           (attempt "10.0.0.7" 1000 "guess")
           [attempt "10.0.0.7" 2000 "again"; attempt "10.0.0.8" 2500 "secret";
            attempt "10.0.0.7" 3000 "third"]).
  - apply lookup_empty.
  - constructor.
  - reflexivity.
  - repeat constructor; unfold window; cbn; lia.
  - repeat constructor; cbn; first [done | by intros [=]].
Defined.

(** *** _escapeHtml *)

(** The characters that open or close markup or an attribute value. *)
Definition isMarkup (char : ascii) : bool :=
  Ascii.eqb char (ascii_of_nat 34) || Ascii.eqb char "'" || Ascii.eqb char "/"
  || Ascii.eqb char "<" || Ascii.eqb char ">".

Lemma escapeChar_cases char :
  (escapeChar char = String char EmptyString
   ∧ isMarkup char = false ∧ Ascii.eqb char "&" = false)
  ∨ escapeChar char ∈ ["&quot;"; "&amp;"; "&#x27;"; "&#x2F;"; "&lt;"; "&gt;"].
Proof.
  unfold escapeChar, isMarkup.
  destruct (Ascii.eqb char (ascii_of_nat 34)); [right; set_solver|].
  destruct (Ascii.eqb char "&"); [right; set_solver|].
  destruct (Ascii.eqb char "'"); [right; set_solver|].
  destruct (Ascii.eqb char "/"); [right; set_solver|].
  destruct (Ascii.eqb char "<"); [right; set_solver|].
  destruct (Ascii.eqb char ">"); [right; set_solver|].
  by left.
Qed.

Lemma list_ascii_of_string_append (a b : string) :
  list_ascii_of_string (a +:+ b) = list_ascii_of_string a ++ list_ascii_of_string b.
Proof.
  induction a as [|c a IH]; [done|].
  rewrite ClientFacts.append_cons. cbn [list_ascii_of_string app]. by rewrite IH.
Qed.

(** X26: the escaped text contains no quote, apostrophe, slash or angle
    bracket, whatever the text. *)
Theorem escapeHtml_leaves_no_markup (text : string) :
  Forall (fun char => isMarkup char = false)
         (list_ascii_of_string (_escapeHtml text)).
Proof.
  induction text as [|char rest IH]; [constructor|].
  cbn [_escapeHtml]. rewrite list_ascii_of_string_append.
  apply Forall_app. split; [|done].
  destruct (escapeChar_cases char) as [(-> & Hsafe & _) | Hentity].
  - by constructor.
  - repeat (apply elem_of_cons in Hentity as [-> | Hentity];
            [by repeat constructor|]).
    by apply elem_of_nil in Hentity.
Qed.

(** Reading an escaped text back: after an ampersand the next
    characters tell which of the six characters was escaped; [skip]
    characters of the entity are still to be passed over. *)
Fixpoint unescape (skip : nat) (text : string) : string :=
  match text with
  | EmptyString => EmptyString
  | String char rest =>
      match skip with
      | S skip' => unescape skip' rest
      | O =>
          if Ascii.eqb char "&" then
            match rest with
            | String next after =>
                if Ascii.eqb next "q" then String (ascii_of_nat 34) (unescape 5 rest)
                else if Ascii.eqb next "a" then String "&" (unescape 4 rest)
                else if Ascii.eqb next "l" then String "<" (unescape 3 rest)
                else if Ascii.eqb next "g" then String ">" (unescape 3 rest)
                else
                  match after with
                  | String _ (String _ (String last _)) =>
                      String (if Ascii.eqb last "7" then "'" else "/")%char
                             (unescape 5 rest)
                  | _ => String char (unescape 0 rest)
                  end
            | EmptyString => String char EmptyString
            end
          else String char (unescape 0 rest)
      end
  end.

(** X27: escaping loses nothing: the text can be read back from the
    escaped text, so two different texts never escape to the same
    text. *)
Theorem escapeHtml_can_be_read_back :
  ∃ decode : string → string, ∀ text, decode (_escapeHtml text) = text.
Proof.
  exists (unescape 0). induction text as [|char rest IH]; [done|].
  cbn [_escapeHtml]. unfold escapeChar.
  repeat
    match goal with
    | |- context [if Ascii.eqb char ?special then _ else _] =>
        let E := fresh "E" in
        destruct (Ascii.eqb char special) eqn:E;
        [ apply Ascii.eqb_eq in E; subst char;
          rewrite !ClientFacts.append_cons; change (EmptyString +:+ ?x) with x;
          cbn [unescape Ascii.eqb Bool.eqb]; by rewrite IH
        | ]
    end.
  rewrite ClientFacts.append_cons. change (EmptyString +:+ ?x) with x.
  cbn [unescape].
  match goal with E : Ascii.eqb char "&" = false |- _ => rewrite E end.
  by rewrite IH.
Qed.

End WebRoutesFacts.

Module ToolSchemaFacts.
Import ToolSchemas.

(** Induction on a JSON value, with the hypotheses for the elements of
    an array and the values of an object. *)
Lemma JValue_induction (P : JValue → Prop) :
  P JNull → (∀ b, P (JBool b)) → (∀ n, P (JNum n)) → (∀ s, P (JStr s)) →
  (∀ items, Forall P items → P (JArr items)) →
  (∀ fields, Forall (fun field => P (snd field)) fields → P (JObj fields)) →
  ∀ value, P value.
Proof.
  intros Hnull Hbool Hnum Hstr Harr Hobj. fix IH 1.
  intros [| b | n | s | items | fields]; [done..| |].
  - apply Harr. induction items as [|item items IHitems]; constructor; [apply IH | done].
  - apply Hobj. induction fields as [|[key value] fields IHfields]; constructor;
      [apply IH | done].
Qed.

(** No field named [$schema] or [additionalProperties] at any depth. *)
Fixpoint supported (value : JValue) : bool :=
  match value with
  | JArr items => forallb supported items
  | JObj fields =>
      forallb (fun field => negb (unsupportedKey (fst field)) && supported (snd field))
              fields
  | _ => true
  end.

Definition toolsOf (geminiBody : option JValue) : list JValue :=
  match geminiBody with
  | Some (JObj fields) =>
      match getProp "tools" (JObj fields) with
      | Some (JArr tools) => tools
      | _ => []
      end
  | _ => []
  end.

Definition declarationsOf (tool : JValue) : list JValue :=
  match getProp "functionDeclarations" tool with
  | Some (JArr functionDeclarations) => functionDeclarations
  | _ => []
  end.

Lemma forEach_Forall2 {A B} (body : A → option B) xs : ∀ ys,
  forEach body xs = Some ys → Forall2 (fun x y => body x = Some y) xs ys.
Proof.
  induction xs as [|x xs IH]; intros ys; cbn [forEach].
  - intros [= <-]. constructor.
  - destruct (body x) as [y|] eqn:E; [|done].
    destruct (forEach body xs) as [ys'|]; [|done].
    intros [= <-]. constructor; [done | by apply IH].
Qed.

Lemma forEach_is_Some {A B} (body : A → option B) xs :
  is_Some (forEach body xs) ↔ Forall (fun x => is_Some (body x)) xs.
Proof.
  induction xs as [|x xs IH]; cbn [forEach].
  - split; [constructor | by eexists].
  - rewrite Forall_cons, <- IH.
    destruct (body x) as [y|]; [|split; [by intros [? [=]] | by intros [[? [=]] _]]].
    destruct (forEach body xs) as [ys|].
    + split; [by split; eexists | by eexists].
    + split; [by intros [? [=]] | by intros [_ [? [=]]]].
Qed.

Lemma getProp_setProp key value fields :
  is_Some (getProp key (JObj fields)) →
  getProp key (JObj (setProp key value fields)) = Some value.
Proof.
  unfold getProp, setProp. induction fields as [|[k v] fields IH]; cbn.
  - by intros [? [=]].
  - destruct (String.eqb k key) eqn:E; cbn; [by rewrite E|]. by rewrite E.
Qed.

Section Sanitize.
Context {host : Host}.

Lemma sanitizeSchema_supported value : supported (sanitizeSchema value) = true.
Proof.
  induction value as [| b | n | s | items IH | fields IH] using JValue_induction;
    try reflexivity.
  - cbn [sanitizeSchema supported]. induction IH as [|item items Hitem _ IHitems]; [done|].
    cbn [map forallb]. by rewrite Hitem, IHitems.
  - cbn [sanitizeSchema supported].
    induction IH as [|[key value] fields Hvalue _ IHfields]; [done|].
    cbn [sanitizeFields]. destruct (unsupportedKey key) eqn:E; [exact IHfields|].
    cbn [forallb fst snd]. fold (sanitizeFields sanitizeSchema fields).
    rewrite E, IHfields. cbn [negb andb]. rewrite andb_true_r.
    destruct value; try exact Hvalue. by destruct (String.eqb key "type").
Qed.

Lemma sanitizeDeclaration_is_Some funcDecl :
  is_Some (sanitizeDeclaration funcDecl) ↔ funcDecl ≠ JNull.
Proof.
  unfold sanitizeDeclaration.
  destruct funcDecl as [| b | n | s | items | fields].
  - split; [by intros [? [=]] | done].
  - split; [by intros _ [=] | by eexists].
  - split; [by intros _ [=] | by eexists].
  - split; [by intros _ [=] | by eexists].
  - split; [by intros _ [=] | by eexists].
  - split; [by intros _ [=]|]. intros _.
    destruct (getProp "parameters" (JObj fields)) as [parameters|]; [|by eexists].
    destruct (truthy (Some parameters)); by eexists.
Qed.

Lemma sanitizeDeclaration_supported funcDecl sanitized parameters :
  sanitizeDeclaration funcDecl = Some sanitized →
  getProp "parameters" sanitized = Some parameters →
  supported parameters = true.
Proof.
  unfold sanitizeDeclaration.
  destruct funcDecl as [| b | n | s | items | fields];
    [done | by intros [= <-] [=].. |].
  destruct (getProp "parameters" (JObj fields)) as [given|] eqn:E.
  - destruct (truthy (Some given)) eqn:Etruthy; intros [= <-].
    + rewrite getProp_setProp by (by rewrite E). intros [= <-].
      apply sanitizeSchema_supported.
    + rewrite E. intros [= <-]. destruct given as [| [] | n | s | |]; try done.
  - intros [= <-]. by rewrite E.
Qed.

Lemma sanitizeTool_is_Some tool :
  is_Some (sanitizeTool tool)
  ↔ tool ≠ JNull ∧ Forall (fun funcDecl => funcDecl ≠ JNull) (declarationsOf tool).
Proof.
  unfold sanitizeTool, declarationsOf.
  destruct tool as [| b | n | s | items | fields];
    try (split; [by split; [|constructor] | by eexists]).
  - split; [by intros [? [=]] | by intros [? _]].
  - destruct (getProp "functionDeclarations" (JObj fields))
      as [[| b | n | s | decls | fs]|];
      try (split; [by split; [|constructor] | by eexists]).
    pose proof (forEach_is_Some sanitizeDeclaration decls) as Hsome.
    destruct (forEach sanitizeDeclaration decls) as [sanitized|].
    + split; [|by eexists]. intros _. split; [done|].
      eapply Forall_impl; [apply Hsome; by eexists|].
      intros d. apply sanitizeDeclaration_is_Some.
    + split; [by intros [? [=]]|]. intros [_ Hall].
      destruct Hsome as [_ Hsome]. destruct Hsome as [? [=]].
      eapply Forall_impl; [exact Hall|]. intros d. apply sanitizeDeclaration_is_Some.
Qed.

Lemma sanitizeTool_supported tool sanitized :
  sanitizeTool tool = Some sanitized →
  Forall (fun funcDecl =>
            ∀ parameters, getProp "parameters" funcDecl = Some parameters →
                          supported parameters = true)
         (declarationsOf sanitized).
Proof.
  unfold sanitizeTool.
  destruct tool as [| b | n | s | items | fields];
    [done | intros [= <-]; apply Forall_nil_2.. |].
  destruct (getProp "functionDeclarations" (JObj fields))
    as [[| b | n | s | decls | fs]|] eqn:E;
    try (intros [= <-]; unfold declarationsOf; rewrite E; apply Forall_nil_2).
  destruct (forEach sanitizeDeclaration decls) as [sanitizedDecls|] eqn:Eeach; [|done].
  intros [= <-]. unfold declarationsOf.
  rewrite getProp_setProp by (by rewrite E).
  apply forEach_Forall2 in Eeach. clear E.
  induction Eeach as [|d d' ds ds' Hd _ IH]; [apply Forall_nil_2|].
  constructor; [|done]. intros parameters. by apply sanitizeDeclaration_supported with d.
Qed.

(** X28: [sanitizeGeminiTools] returns its result unless a tool or a
    function declaration is [null] (reading a property of it throws);
    and in the body it returns, the [parameters] of every function
    declaration of every tool have no field named [$schema] or
    [additionalProperties] at any depth. *)
Theorem sanitizeGeminiTools_removes_unsupported_fields (geminiBody : option JValue) :
  (is_Some (sanitizeGeminiTools geminiBody)
   ↔ Forall (fun tool =>
               tool ≠ JNull
               ∧ Forall (fun funcDecl => funcDecl ≠ JNull) (declarationsOf tool))
            (toolsOf geminiBody))
  ∧ (∀ sanitized,
       sanitizeGeminiTools geminiBody = Some sanitized →
       Forall (fun tool =>
                 Forall (fun funcDecl =>
                           ∀ parameters,
                             getProp "parameters" funcDecl = Some parameters →
                             supported parameters = true)
                        (declarationsOf tool))
              (toolsOf sanitized)).
Proof.
  unfold sanitizeGeminiTools, toolsOf.
  destruct geminiBody as [[| b | n | s | items | fields]|];
    try (split; [split; [intros _; apply Forall_nil_2 | by eexists]
                | intros ? [= <-]; apply Forall_nil_2]).
  destruct (getProp "tools" (JObj fields)) as [[| b | n | s | tools | fs]|] eqn:E;
    try (split; [split; [intros _; apply Forall_nil_2 | by eexists]
                | intros ? [= <-]; rewrite E; apply Forall_nil_2]).
  pose proof (forEach_is_Some sanitizeTool tools) as Hsome.
  pose proof (forEach_Forall2 sanitizeTool tools) as Heach.
  destruct (forEach sanitizeTool tools) as [sanitizedTools|].
  - split.
    + split; [|by eexists]. intros _.
      eapply Forall_impl; [apply Hsome; by eexists|].
      intros tool. apply sanitizeTool_is_Some.
    + intros sanitized [= <-]. rewrite getProp_setProp by (by rewrite E).
      specialize (Heach _ eq_refl). clear E Hsome.
      induction Heach as [|t t' ts ts' Ht _ IH]; [apply Forall_nil_2|].
      constructor; [|done]. by apply sanitizeTool_supported with t.
  - split; [|done]. split; [by intros [? [=]]|]. intros Hall.
    destruct Hsome as [_ Hsome]. destruct Hsome as [? [=]].
    eapply Forall_impl; [exact Hall|].
    intros tool. apply sanitizeTool_is_Some.
Qed.

End Sanitize.
(** *** convertParameterTypes *)

Definition isString (value : JValue) : bool :=
  match value with
  | JStr _ => true
  | _ => false
  end.

(** Every array found under a key [type], where the conversion looks,
    holds only strings. *)
Fixpoint typeNamesOk (value : JValue) : bool :=
  match value with
  | JArr items => forallb typeNamesOk items
  | JObj fields =>
      forallb (fun field =>
                 unsupportedKey (fst field)
                 || (if String.eqb (fst field) "type" then
                       match snd field with
                       | JArr types => forallb isString types
                       | _ => typeNamesOk (snd field)
                       end
                     else typeNamesOk (snd field)))
              fields
  | _ => true
  end.

Definition supportedFields (fields : list (string * JValue)) : bool :=
  forallb (fun field => negb (unsupportedKey (fst field)) && supported (snd field))
          fields.

Section Convert.
Context {host : Host}.

Lemma upperCaseTypes_is_Some types :
  is_Some (forEach upperCaseType types) ↔ forallb isString types = true.
Proof.
  rewrite forEach_is_Some, forallb_forall, Forall_forall.
  split; intros H t Ht.
  - apply list_elem_of_In in Ht. specialize (H t Ht).
    destruct t; try done; by destruct H.
  - apply list_elem_of_In in Ht. specialize (H t Ht).
    destruct t; try done; by eexists.
Qed.

Lemma upperCaseTypes_supported types : ∀ converted,
  forEach upperCaseType types = Some converted → forallb supported converted = true.
Proof.
  induction types as [|t types IH]; intros converted; cbn [forEach].
  - by intros [= <-].
  - destruct t; try done. cbn [upperCaseType].
    destruct (forEach upperCaseType types) as [others|]; [|done].
    intros [= <-]. cbn. by apply IH.
Qed.

Lemma nonNull_strings types :
  forallb isString (List.filter (fun t => negb (isNullName t)) types)
  = forallb isString types.
Proof.
  induction types as [|t types IH]; [done|]. cbn [List.filter forallb].
  destruct t; cbn [isNullName negb isString forallb andb]; try done.
  destruct (String.eqb s "null"); cbn [negb forallb isString andb]; by rewrite IH.
Qed.

Lemma convertTypes_is_Some types :
  is_Some (convertTypes types) ↔ forallb isString types = true.
Proof.
  unfold convertTypes. rewrite <- nonNull_strings.
  destruct (List.filter _ types) as [|t [|t' rest]].
  - split; [done | by eexists].
  - cbn. destruct t; cbn; split; try done; try (by intros [? [=]]); by eexists.
  - rewrite fmap_is_Some. apply upperCaseTypes_is_Some.
Qed.

Lemma convertTypes_supported types converted :
  convertTypes types = Some converted → supported converted = true.
Proof.
  unfold convertTypes.
  destruct (List.filter _ types) as [|t [|t' rest]].
  - by intros [= <-].
  - destruct t; try done. by intros [= <-].
  - intros (others & Heach & ->)%fmap_Some. cbn [supported].
    by apply upperCaseTypes_supported with (t :: t' :: rest).
Qed.

Lemma assign_supported key value result :
  supportedFields result = true →
  unsupportedKey key = false → supported value = true →
  supportedFields (assign key value result) = true.
Proof.
  unfold supportedFields. intros Hresult Hkey Hvalue.
  induction result as [|[k v] result IH]; cbn [assign forallb fst snd].
  - by rewrite Hkey, Hvalue.
  - cbn [forallb fst snd] in Hresult. apply andb_true_iff in Hresult as [Hkv Hrest].
    destruct (String.eqb k key); cbn [forallb fst snd].
    + by rewrite Hkey, Hvalue, Hrest.
    + by rewrite Hkv, IH.
Qed.

Lemma convertFields_supported (rec : JValue → option JValue) fields :
  Forall (fun field => ∀ converted, rec (snd field) = Some converted →
                                    supported converted = true) fields →
  ∀ result converted,
    supportedFields result = true →
    convertFields rec fields result = Some converted →
    supportedFields converted = true.
Proof.
  induction 1 as [|[key value] fields Hvalue _ IH]; intros result converted Hresult;
    cbn [convertFields].
  - by intros [= <-].
  - cbn [snd] in Hvalue. destruct (unsupportedKey key) eqn:Ekey; [by apply IH|].
    assert (∀ c, rec value = Some c →
                 match rec value with
                 | Some converted0 =>
                     convertFields rec fields (assign key converted0 result)
                 | None => None
                 end = Some converted →
                 supportedFields converted = true) as Hrec.
    { intros c Hc. rewrite Hc. apply IH. apply assign_supported; [done..|by apply Hvalue]. }
    assert (match rec value with
            | Some converted0 =>
                convertFields rec fields (assign key converted0 result)
            | None => None
            end = Some converted →
            supportedFields converted = true) as Hother.
    { destruct (rec value) as [c|] eqn:Ec; [by apply Hrec with c | done]. }
    destruct (String.eqb key "type"); [|exact Hother].
    destruct value as [| b | n | s | types | fs]; try exact Hother.
    + apply IH. by apply assign_supported.
    + destruct (convertTypes types) as [c|] eqn:Ec; [|done].
      apply IH. apply assign_supported; [|done|by apply convertTypes_supported with types].
      destruct (existsb isNullName types); [|done]. by apply assign_supported.
Qed.

Lemma convertFields_is_Some (rec : JValue → option JValue) fields :
  Forall (fun field => is_Some (rec (snd field)) ↔ typeNamesOk (snd field) = true)
         fields →
  ∀ result,
    is_Some (convertFields rec fields result) ↔ typeNamesOk (JObj fields) = true.
Proof.
  induction 1 as [|[key value] fields Hvalue _ IH]; intros result;
    cbn [convertFields typeNamesOk forallb fst snd].
  - split; [done | by eexists].
  - cbn [snd] in Hvalue. change (forallb _ fields) with (typeNamesOk (JObj fields)).
    destruct (unsupportedKey key); [by rewrite IH|]. cbn [orb].
    assert (is_Some match rec value with
                    | Some converted =>
                        convertFields rec fields (assign key converted result)
                    | None => None
                    end
            ↔ typeNamesOk value && typeNamesOk (JObj fields) = true) as Hother.
    { rewrite andb_true_iff, <- Hvalue.
      destruct (rec value) as [c|]; [rewrite IH|];
        split; try (by intros [? [=]]); try (by intros [[? [=]] _]);
        first [ intros ?; by split; [eexists|] | by intros [_ ?] ]. }
    destruct (String.eqb key "type"); [|exact Hother].
    destruct value as [| b | n | s | types | fs]; try exact Hother.
    + by rewrite IH.
    + rewrite andb_true_iff, <- convertTypes_is_Some.
      destruct (convertTypes types) as [c|]; [rewrite IH|];
        split; try (by intros [? [=]]); try (by intros [[? [=]] _]);
        first [ intros ?; by split; [eexists|] | by intros [_ ?] ].
Qed.

(** X29: [convertParameterTypes] returns a result exactly when every
    array it finds under a key [type] holds only strings (otherwise
    [toUpperCase] is called on something that has none); and what it
    returns has no field named [$schema] or [additionalProperties] at
    any depth. *)
Theorem convertParameterTypes_removes_unsupported_fields (obj : JValue) :
  (is_Some (convertParameterTypes obj) ↔ typeNamesOk obj = true)
  ∧ (∀ converted, convertParameterTypes obj = Some converted →
                  supported converted = true).
Proof.
  induction obj as [| b | n | s | items IH | fields IH] using JValue_induction;
    try (split; [split; [done | by eexists] | by intros ? [= <-]]).
  - cbn [convertParameterTypes typeNamesOk]. split.
    + rewrite fmap_is_Some, forEach_is_Some, forallb_forall, Forall_forall.
      rewrite Forall_forall in IH.
      split; intros H item Hitem.
      * apply list_elem_of_In in Hitem. by apply IH, H.
      * apply IH; [done|]. by apply H, list_elem_of_In.
    + intros converted (others & Heach & ->)%fmap_Some. cbn [supported].
      apply forEach_Forall2 in Heach.
      induction Heach as [|item c items cs Hc _ IHeach]; [done|].
      apply Forall_cons in IH as [[_ Hitem] IH]. cbn [forallb].
      by rewrite (Hitem c Hc), IHeach.
  - cbn [convertParameterTypes]. split.
    + rewrite fmap_is_Some. apply convertFields_is_Some.
      eapply Forall_impl; [exact IH|]. by intros field [? _].
    + intros converted (cs & Hcs & ->)%fmap_Some.
      change (supported (JObj cs)) with (supportedFields cs).
      eapply (convertFields_supported convertParameterTypes fields); [| |exact Hcs]; [|done].
      eapply Forall_impl; [exact IH|]. by intros field [_ ?].
Qed.

End Convert.
End ToolSchemaFacts.

Module RequestBodyFacts.
Import RequestBody.






Section Adapt.
Context {host : Host}.











End Adapt.
End RequestBodyFacts.
